(** * The client registry of main/client.c

    A shallow embedding of the prefix-indexed client registry
    ([client_add], [client_delete], [client_find], [client_findbynumber],
    [client_ipaddr_cmp] and the boundary checks of [client_afrom_request])
    together with the properties the specification states about them.

    Conventions of the embedding:
    - a [RADCLIENT_LIST *] is an index into the table [lists] of allocated
      client lists, [None] standing for the NULL pointer;
    - a [RADCLIENT] is stored by value: the record kept in a tree is the
      record as [client_add] leaves it (prefix fixed up, number assigned);
    - C integers are [Z], except prefix lengths, which are only compared
      and used as array indices and are [nat];
    - a result [None] of a state-changing function stands for an execution
      the C standard leaves undefined or that trips an assertion (an index
      outside [trees[129]], a dangling or NULL list handle, overflow of the
      [int] counter); memory allocation is assumed to succeed. *)

From Stdlib Require Import ZArith Lia.
From stdpp Require Import base option list gmap strings.

(** ** Constants of the system headers *)

Definition AF_INET : Z := 2.
Definition AF_INET6 : Z := 10.
Definition IPPROTO_IP : Z := 0.
Definition IPPROTO_TCP : Z := 6.
Definition IPPROTO_UDP : Z := 17.
Definition INT_MAX : Z := 2147483647.

(** ** Addresses *)

(** [addr] holds the address bytes read as one big-endian number: below
    [2^32] for [AF_INET], below [2^128] for [AF_INET6]. *)
Record fr_ipaddr_t := {
  af : Z;
  addr : Z;
  prefix : nat
}.

Definition set_prefix (a : fr_ipaddr_t) (p : nat) : fr_ipaddr_t :=
  {| af := af a; addr := addr a; prefix := p |}.

(** Keep the [p] most significant bits of a [w]-bit number. *)
Definition mask_bits (w : nat) (a : Z) (p : nat) : Z :=
  if w <=? p then a
  else if p =? 0 then 0%Z
  else Z.shiftl (Z.shiftr a (Z.of_nat (w - p))) (Z.of_nat (w - p)).

(** Modelled from the spec: [fr_ipaddr_mask] of the address library, which
    is not part of this file. It masks the address down to [p] bits and
    records [p] as the prefix length; an address of an unsupported family
    is left as it is. *)
Definition fr_ipaddr_mask (a : fr_ipaddr_t) (p : nat) : fr_ipaddr_t :=
  if (af a =? AF_INET)%Z then
    {| af := af a; addr := mask_bits 32 (addr a) p; prefix := p |}
  else if (af a =? AF_INET6)%Z then
    {| af := af a; addr := mask_bits 128 (addr a) p; prefix := p |}
  else a.

(** Modelled from the spec: [fr_ipaddr_cmp] of the address library. Two
    keys are equal exactly when family, prefix length and (masked) address
    are equal; otherwise the sign orders them by family, then prefix
    length, then address read as a number. *)
Definition fr_ipaddr_cmp (a b : fr_ipaddr_t) : Z :=
  if (af a <? af b)%Z then (-1)%Z
  else if (af b <? af a)%Z then 1%Z
  else if prefix a <? prefix b then (-1)%Z
  else if prefix b <? prefix a then 1%Z
  else if (addr a <? addr b)%Z then (-1)%Z
  else if (addr b <? addr a)%Z then 1%Z
  else 0%Z.

(** Modelled from the spec: [fr_ipaddr_is_inaddr_any] of the address
    library: 1 when the address bytes of a supported family are all zero,
    0 when they are not, -1 for an unsupported family. *)
Definition fr_ipaddr_is_inaddr_any (a : fr_ipaddr_t) : Z :=
  if ((af a =? AF_INET) || (af a =? AF_INET6))%Z then
    if (addr a =? 0)%Z then 1%Z else 0%Z
  else (-1)%Z.

(** ** Client records *)

(** The fields of [RADCLIENT] that the registry reads or writes. A
    [char const *] is an optional string, [None] being NULL. *)
Record RADCLIENT := {
  ipaddr : fr_ipaddr_t;
  longname : option string;
  secret : option string;
  shortname : option string;
  nas_type : option string;
  server : option string;
  message_authenticator : bool;
  proto : Z;
  number : Z
}.

Definition set_ipaddr_prefix (c : RADCLIENT) (p : nat) : RADCLIENT :=
  {| ipaddr := set_prefix (ipaddr c) p;
     longname := longname c; secret := secret c; shortname := shortname c;
     nas_type := nas_type c; server := server c;
     message_authenticator := message_authenticator c;
     proto := proto c; number := number c |}.

Definition set_number (c : RADCLIENT) (n : Z) : RADCLIENT :=
  {| ipaddr := ipaddr c;
     longname := longname c; secret := secret c; shortname := shortname c;
     nas_type := nas_type c; server := server c;
     message_authenticator := message_authenticator c;
     proto := proto c; number := n |}.

(** The stack variable [myclient] of the lookup functions: only the
    fields the comparison reads are set in C; the others are fixed here
    to a default. *)
Definition myclient (a : fr_ipaddr_t) (pr : Z) (n : Z) : RADCLIENT :=
  {| ipaddr := a; longname := None; secret := None; shortname := None;
     nas_type := None; server := None; message_authenticator := false;
     proto := pr; number := n |}.

(** Compare clients by IP address (built WITH_TCP). *)
Definition client_ipaddr_cmp (a b : RADCLIENT) : Z :=
  let rcode := fr_ipaddr_cmp (ipaddr a) (ipaddr b) in
  if negb (rcode =? 0)%Z then rcode
  else if ((proto a =? IPPROTO_IP) || (proto b =? IPPROTO_IP))%Z then 0%Z
  else (proto a - proto b)%Z.

(** Compare clients by number. *)
Definition client_num_cmp (a b : RADCLIENT) : Z := (number a - number b)%Z.

(** ** Trees *)

(** Modelled from the spec: the ordered set [rbtree_t] and its operations
    [rbtree_create], [rbtree_finddata], [rbtree_insert] and
    [rbtree_deletebydata], which live in the tree library. A tree is
    probed through the comparison function it was created with: an entry
    is found, refused as already present, or deleted when the comparison
    with the given data yields 0. The entries are kept in a list. *)
Abbreviation rbtree_t := (list RADCLIENT).

Definition rbtree_create : rbtree_t := [].

Fixpoint rbtree_finddata (compare : RADCLIENT → RADCLIENT → Z)
    (tree : rbtree_t) (data : RADCLIENT) : option RADCLIENT :=
  match tree with
  | [] => None
  | x :: rest =>
      if (compare data x =? 0)%Z then Some x
      else rbtree_finddata compare rest data
  end.

Definition rbtree_insert (compare : RADCLIENT → RADCLIENT → Z)
    (tree : rbtree_t) (data : RADCLIENT) : option rbtree_t :=
  match rbtree_finddata compare tree data with
  | Some _ => None
  | None => Some (tree ++ [data])
  end.

Fixpoint rbtree_deletebydata (compare : RADCLIENT → RADCLIENT → Z)
    (tree : rbtree_t) (data : RADCLIENT) : rbtree_t :=
  match tree with
  | [] => []
  | x :: rest =>
      if (compare data x =? 0)%Z then rest
      else x :: rbtree_deletebydata compare rest data
  end.

(** ** Client lists and the process state *)

(** Group of clients: [trees] has one slot per prefix length 0..128, a
    NULL slot being [None]. *)
Record radclient_list := {
  name : string;
  trees : list (option rbtree_t);
  min_prefix : nat
}.

Definition set_trees (cl : radclient_list) (ts : list (option rbtree_t))
    : radclient_list :=
  {| name := name cl; trees := ts; min_prefix := min_prefix cl |}.

Definition set_min_prefix (cl : radclient_list) (m : nat) : radclient_list :=
  {| name := name cl; trees := trees cl; min_prefix := m |}.

(** Modelled from the spec: what the registry needs of the configuration
    section of a virtual server (the configuration library is not part of
    this file): its first name, whether it has a "listen" subsection, and
    the client list attached to it as section data, if any. *)
Record CONF_SECTION := {
  name1 : string;
  listen : bool;
  cs_clients : option nat
}.

Definition set_cs_clients (cs : CONF_SECTION) (p : option nat) : CONF_SECTION :=
  {| name1 := name1 cs; listen := listen cs; cs_clients := p |}.

(** The file-scope variables [tree_num], [tree_num_max] and
    [root_clients], the allocated client lists, and the virtual servers
    by name (what [virtual_server_find] searches). *)
Record state := {
  lists : list radclient_list;
  root_clients : option nat;
  tree_num : option rbtree_t;
  tree_num_max : Z;
  servers : gmap string CONF_SECTION
}.

Definition set_lists (st : state) (l : list radclient_list) : state :=
  {| lists := l; root_clients := root_clients st; tree_num := tree_num st;
     tree_num_max := tree_num_max st; servers := servers st |}.

Definition set_root_clients (st : state) (r : option nat) : state :=
  {| lists := lists st; root_clients := r; tree_num := tree_num st;
     tree_num_max := tree_num_max st; servers := servers st |}.

Definition set_tree_num (st : state) (t : option rbtree_t) : state :=
  {| lists := lists st; root_clients := root_clients st; tree_num := t;
     tree_num_max := tree_num_max st; servers := servers st |}.

Definition set_tree_num_max (st : state) (n : Z) : state :=
  {| lists := lists st; root_clients := root_clients st;
     tree_num := tree_num st; tree_num_max := n; servers := servers st |}.

Definition set_servers (st : state) (s : gmap string CONF_SECTION) : state :=
  {| lists := lists st; root_clients := root_clients st;
     tree_num := tree_num st; tree_num_max := tree_num_max st; servers := s |}.

(** The state of a process that has not touched the registry yet. *)
Definition initial_state (srv : gmap string CONF_SECTION) : state :=
  {| lists := []; root_clients := None; tree_num := None;
     tree_num_max := 0; servers := srv |}.

(** [clients->trees[i] = t] *)
Definition set_tree (st : state) (p i : nat) (t : rbtree_t) : state :=
  set_lists st
    (alter (λ cl, set_trees cl (<[i := Some t]> (trees cl))) p (lists st)).

(** Return a new client list: no trees, watermark 128. *)
Definition client_list_init (st : state) (cs : option CONF_SECTION)
    : nat * state :=
  let clients :=
    {| name := match cs with Some s => name1 s | None => "root" end;
       trees := replicate 129 None;
       min_prefix := 128 |} in
  (length (lists st), set_lists st (lists st ++ [clients])).

(** ** Adding a client *)

(** The macro [namecmp]: both NULL, or both set and equal as strings. *)
Definition namecmp (a b : option string) : bool :=
  match a, b with
  | None, None => true
  | Some x, Some y => bool_decide (x = y)
  | _, _ => false
  end.

(** The test for "a complete duplicate" in [client_add]. *)
Definition complete_duplicate (old client : RADCLIENT) : bool :=
  (fr_ipaddr_cmp (ipaddr old) (ipaddr client) =? 0)%Z &&
  (prefix (ipaddr old) =? prefix (ipaddr client)) &&
  namecmp (longname old) (longname client) &&
  namecmp (secret old) (secret client) &&
  namecmp (shortname old) (shortname client) &&
  namecmp (nas_type old) (nas_type client) &&
  namecmp (server old) (server client) &&
  bool_decide (message_authenticator old = message_authenticator client).

(** The "hack to fixup wildcard clients" at the head of [client_add]:
    an all-zero address with a full-width prefix becomes a /0. The
    [default] arm of the switch is [rad_assert(0)]. *)
Definition wildcard_fixup (client : RADCLIENT) : option RADCLIENT :=
  if (fr_ipaddr_is_inaddr_any (ipaddr client) =? 1)%Z then
    if (af (ipaddr client) =? AF_INET)%Z then
      Some (if prefix (ipaddr client) =? 32
            then set_ipaddr_prefix client 0 else client)
    else if (af (ipaddr client) =? AF_INET6)%Z then
      Some (if prefix (ipaddr client) =? 128
            then set_ipaddr_prefix client 0 else client)
    else None
  else Some client.

(** The label [global_clients]: initialise the global list, if not done
    already, and use it. *)
Definition global_clients (st : state) : nat * state :=
  match root_clients st with
  | Some r => (r, st)
  | None =>
      let '(r, st') := client_list_init st None in
      (r, set_root_clients st' (Some r))
  end.

(** The list a client goes to: the one given, else the list of the
    client's virtual server when that server has a "listen" section
    (created and attached to the section on first use), else the global
    list. [None] is the [return false] for an unknown virtual server. *)
Definition client_add_clients (st : state) (clients : option nat)
    (client : RADCLIENT) : option (nat * state) :=
  match clients with
  | Some p => Some (p, st)
  | None =>
      match server client with
      | Some sname =>
          match servers st !! sname with
          | None => None
          | Some cs =>
              if negb (listen cs) then Some (global_clients st)
              else
                match cs_clients cs with
                | Some p => Some (p, st)
                | None =>
                    let '(p, st') := client_list_init st (Some cs) in
                    Some (p, set_servers st'
                               (<[sname := set_cs_clients cs (Some p)]>
                                  (servers st')))
                end
          end
      | None => Some (global_clients st)
      end
  end.

(** The tail of [client_add] for a client that is not in its tree: it
    gets the next number, enters the tree and the number index, and
    lowers the watermark. The tree holds a pointer to the client, so the
    number written after [rbtree_insert] in C is the number of the stored
    record; here the record is stored with the number already in it.
    Incrementing [tree_num_max] at [INT_MAX] is undefined. *)
Definition client_add_new (st : state) (p : nat) (tree : rbtree_t)
    (client : RADCLIENT) : option (bool * state) :=
  let i := prefix (ipaddr client) in
  if (tree_num_max st =? INT_MAX)%Z then None
  else
    let client := set_number client (tree_num_max st) in
    match rbtree_insert client_ipaddr_cmp tree client with
    | None => Some (false, st)
    | Some tree' =>
        let st := set_tree st p i tree' in
        let num := match tree_num st with
                   | Some t => t
                   | None => rbtree_create
                   end in
        let num := match rbtree_insert client_num_cmp num client with
                   | Some num' => num'
                   | None => num
                   end in
        let st := set_tree_num (set_tree_num_max st (tree_num_max st + 1))
                    (Some num) in
        let st :=
          set_lists st
            (alter (λ cl, if i <? min_prefix cl
                          then set_min_prefix cl i else cl) p (lists st)) in
        Some (true, st)
    end.

(** Add a client to a RADCLIENT_LIST. The boolean is the C result. *)
Definition client_add (st : state) (clients : option nat)
    (client : option RADCLIENT) : option (bool * state) :=
  match client with
  | None => Some (false, st)
  | Some client =>
      client ← wildcard_fixup client;
      match client_add_clients st clients client with
      | None => Some (false, st)
      | Some (p, st) =>
          cl ← lists st !! p;
          slot ← trees cl !! prefix (ipaddr client);
          let '(tree, st) :=
            match slot with
            | Some t => (t, st)
            | None =>
                (rbtree_create,
                 set_tree st p (prefix (ipaddr client)) rbtree_create)
            end in
          match rbtree_finddata client_ipaddr_cmp tree client with
          | Some old =>
              if complete_duplicate old client then Some (true, st)
              else Some (false, st)
          | None => client_add_new st p tree client
          end
      end
  end.

(** ** Deleting a client *)

(** [client_delete]: [clients->trees] is read after the number index has
    been updated; [rad_assert(prefix <= 128)] guards the array access.
    Deleting from a NULL tree does nothing. *)
Definition client_delete (st : state) (clients : option nat)
    (client : option RADCLIENT) : option state :=
  match client with
  | None => Some st
  | Some client =>
      let clients := match clients with
                     | Some p => Some p
                     | None => root_clients st
                     end in
      if 128 <? prefix (ipaddr client) then None
      else
        let st :=
          set_tree_num st
            ((λ t, rbtree_deletebydata client_num_cmp t client)
               <$> tree_num st) in
        p ← clients;
        cl ← lists st !! p;
        slot ← trees cl !! prefix (ipaddr client);
        match slot with
        | Some t =>
            Some (set_tree st p (prefix (ipaddr client))
                    (rbtree_deletebydata client_ipaddr_cmp t client))
        | None => Some st
        end
  end.

(** ** Lookups *)

(** Find a client in the RADCLIENTS list by number. *)
Definition client_findbynumber (st : state) (clients : option nat)
    (number : Z) : option RADCLIENT :=
  let clients := match clients with
                 | Some p => Some p
                 | None => root_clients st
                 end in
  match clients with
  | None => None
  | Some _ =>
      if (tree_num_max st <=? number)%Z then None
      else
        match tree_num st with
        | Some t => rbtree_finddata client_num_cmp t (myclient
                      {| af := 0; addr := 0; prefix := 0 |} 0 number)
        | None => None
        end
  end.

(** One round of the loop of [client_find] at prefix length [i]. *)
Definition client_find_probe (cl : radclient_list) (ipaddr : fr_ipaddr_t)
    (proto : Z) (i : nat) : option RADCLIENT :=
  match trees cl !! i with
  | Some (Some t) =>
      rbtree_finddata client_ipaddr_cmp t
        (myclient (fr_ipaddr_mask ipaddr i) proto 0)
  | _ => None
  end.

(** The loop [for (i = max_prefix; i >= min_prefix; i--)], written for
    the [n] values [lo + n - 1], ..., [lo] of [i]. *)
Fixpoint client_find_loop (cl : radclient_list) (ipaddr : fr_ipaddr_t)
    (proto : Z) (lo n : nat) : option RADCLIENT :=
  match n with
  | O => None
  | S n' =>
      match client_find_probe cl ipaddr proto (lo + n') with
      | Some data => Some data
      | None => client_find_loop cl ipaddr proto lo n'
      end
  end.

(** The prefix length the scan starts at. [None] is an unsupported
    address family. *)
Definition client_find_max_prefix (ipaddr : fr_ipaddr_t) : option nat :=
  let clamp (max_prefix : nat) :=
    if prefix ipaddr <? max_prefix then prefix ipaddr else max_prefix in
  if (af ipaddr =? AF_INET)%Z then Some (clamp 32)
  else if (af ipaddr =? AF_INET6)%Z then Some (clamp 128)
  else None.

(** Find a client in the RADCLIENTS list. The handle of a list is taken
    to be valid: a dangling one yields no client here. *)
Definition client_find (st : state) (clients : option nat)
    (ipaddr : option fr_ipaddr_t) (proto : Z) : option RADCLIENT :=
  let clients := match clients with
                 | Some p => Some p
                 | None => root_clients st
                 end in
  match clients, ipaddr with
  | Some p, Some ipaddr =>
      cl ← lists st !! p;
      max_prefix ← client_find_max_prefix ipaddr;
      client_find_loop cl ipaddr proto (min_prefix cl)
        (S max_prefix - min_prefix cl)
  | _, _ => None
  end.

(** ** The boundary checks of a client made from a request *)

(** The three ways [client_afrom_request] refuses a client it has built,
    after the messages it leaves in [fr_strerror], and the failure of the
    builder itself. *)
Inductive request_error :=
  | BuilderFailed
  | IPVersionMismatch
  | NotWithinPrefix
  | NotWithinNetwork.

(** [client_afrom_request] from the point where [client_afrom_cs] has
    returned: [c] is its result ([None] for NULL) and [network] is
    [request->client->network]. Turning the control attributes into a
    configuration section and parsing it belongs to the configuration
    library. *)
Definition client_afrom_request (network : fr_ipaddr_t)
    (c : option RADCLIENT) : request_error + RADCLIENT :=
  match c with
  | None => inl BuilderFailed
  | Some c =>
      if negb (af network =? af (ipaddr c))%Z then inl IPVersionMismatch
      else if prefix (ipaddr c) <? prefix network then inl NotWithinPrefix
      else
        let ipaddr := fr_ipaddr_mask (ipaddr c) (prefix network) in
        if negb (fr_ipaddr_cmp ipaddr network =? 0)%Z
        then inl NotWithinNetwork
        else inr c
  end.

(** ** Traces of registry operations *)

(** The calls a process makes on the registry over its lifetime. *)
Inductive op :=
  | OpInit (cs : option CONF_SECTION)
  | OpAdd (clients : option nat) (client : RADCLIENT)
  | OpDelete (clients : option nat) (client : RADCLIENT).

Definition step (st : state) (o : op) : option state :=
  match o with
  | OpInit cs => Some (snd (client_list_init st cs))
  | OpAdd clients client => snd <$> client_add st clients (Some client)
  | OpDelete clients client => client_delete st clients (Some client)
  end.

Fixpoint run (st : state) (ops : list op) : option state :=
  match ops with
  | [] => Some st
  | o :: rest => st' ← step st o; run st' rest
  end.

(** ** Vocabulary of the statements *)

(** The list a handle denotes, NULL being the global list. *)
Definition list_of (st : state) (clients : option nat)
    : option radclient_list :=
  p ← match clients with Some p => Some p | None => root_clients st end;
  lists st !! p.

(** A lookup handle is usable: it is not NULL, or the global list exists. *)
Definition handle_exists (st : state) (clients : option nat) : Prop :=
  is_Some (match clients with Some p => Some p | None => root_clients st end).

(** [e] is held by some tree of the list. *)
Definition stored (cl : radclient_list) (e : RADCLIENT) : Prop :=
  ∃ i t, trees cl !! i = Some (Some t) ∧ e ∈ t.

(** Entry [e] matches a query: the query address masked to the entry's
    prefix length is the entry's address, and transports are compatible,
    which is what the comparison function of the trees decides. *)
Definition matches (q : fr_ipaddr_t) (pr : Z) (e : RADCLIENT) : Prop :=
  client_ipaddr_cmp (myclient (fr_ipaddr_mask q (prefix (ipaddr e))) pr 0) e
  = 0%Z.

(** The entries of a tree that compare equal to [c]. *)
Definition entries_for (t : rbtree_t) (c : RADCLIENT) : list RADCLIENT :=
  filter (λ e, client_ipaddr_cmp c e = 0%Z) t.

(** No two entries of a tree compare equal under its comparison. *)
Definition distinct_by (compare : RADCLIENT → RADCLIENT → Z)
    (t : rbtree_t) : Prop :=
  NoDup t ∧ ∀ a b, a ∈ t → b ∈ t → compare a b = 0%Z → a = b.

Abbreviation distinct_keys := (distinct_by client_ipaddr_cmp).

(** The invariant of a client list: 129 slots; the tree in slot [i] was
    created no lower than the watermark, holds entries of prefix length
    [i] only, and no two of them compare equal. *)
Record list_wf (cl : radclient_list) : Prop := {
  wf_length : length (trees cl) = 129;
  wf_watermark : ∀ i t, trees cl !! i = Some (Some t) → min_prefix cl ≤ i;
  wf_prefix : ∀ i t e,
    trees cl !! i = Some (Some t) → e ∈ t → prefix (ipaddr e) = i;
  wf_distinct : ∀ i t, trees cl !! i = Some (Some t) → distinct_keys t
}.

(** The invariant of the process state: every list is well formed, the
    number index holds numbers below the counter only, and no two of its
    entries have the same number. *)
Record state_wf (st : state) : Prop := {
  wf_lists : ∀ p cl, lists st !! p = Some cl → list_wf cl;
  wf_num : ∀ t e, tree_num st = Some t → e ∈ t →
    (0 ≤ number e < tree_num_max st)%Z;
  wf_num_distinct : ∀ t, tree_num st = Some t → distinct_by client_num_cmp t;
  wf_num_max : (0 ≤ tree_num_max st)%Z
}.

(** ** Derived states and worked configurations *)

(** The list [cl] once [c] has entered the tree [t] of its prefix length
    ([t] being empty when the slot was NULL). *)
Definition inserted (cl : radclient_list) (t : rbtree_t) (c : RADCLIENT)
    : radclient_list :=
  {| name := name cl;
     trees := <[prefix (ipaddr c) := Some (t ++ [c])]> (trees cl);
     min_prefix := if prefix (ipaddr c) <? min_prefix cl
                   then prefix (ipaddr c) else min_prefix cl |}.

(** The number index once [c] has been offered to it. *)
Definition num_inserted (num : option rbtree_t) (c : RADCLIENT) : rbtree_t :=
  let num := match num with Some t => t | None => rbtree_create end in
  match rbtree_insert client_num_cmp num c with
  | Some num' => num'
  | None => num
  end.

(** The state once [c] has been added to list [p], which was [cl]. *)
Definition added_state (st : state) (p : nat) (cl : radclient_list)
    (t : rbtree_t) (c : RADCLIENT) : state :=
  {| lists := <[p := inserted cl t c]> (lists st);
     root_clients := root_clients st;
     tree_num := Some (num_inserted (tree_num st) c);
     tree_num_max := tree_num_max st + 1;
     servers := servers st |}.

(** The list [client_list_init] returns. *)
Definition empty_list (cs : option CONF_SECTION) : radclient_list :=
  {| name := match cs with Some s => name1 s | None => "root" end;
     trees := replicate 129 None;
     min_prefix := 128 |}.

Module Example.
Definition ip4 (a b c d : Z) (p : nat) : fr_ipaddr_t :=
  {| af := AF_INET; addr := (((a * 256 + b) * 256 + c) * 256 + d)%Z;
     prefix := p |}.

Definition client (a : fr_ipaddr_t) (nm sec : string) (pr : Z)
    (srv : option string) : RADCLIENT :=
  {| ipaddr := a; longname := Some nm; secret := Some sec;
     shortname := Some nm; nas_type := None; server := srv;
     message_authenticator := false; proto := pr; number := 0 |}.

(** One virtual server with its own listeners. *)
Definition srv : gmap string CONF_SECTION :=
  {[ "inner" := {| name1 := "server"; listen := true;
                    cs_clients := None |} ]}.

Definition net8 := client (ip4 10 0 0 0 8) "net8" "s8" IPPROTO_UDP None.
Definition host := client (ip4 10 1 2 3 32) "host" "s32" IPPROTO_UDP None.
Definition dual := client (ip4 203 0 113 5 32) "dual" "sd" IPPROTO_IP None.
Definition any32 := client (ip4 0 0 0 0 32) "any" "s0" IPPROTO_UDP None.
Definition any0 := client (ip4 0 0 0 0 0) "any" "s0" IPPROTO_UDP None.
Definition inner :=
  client (ip4 192 0 2 1 32) "inner" "si" IPPROTO_TCP (Some "inner").

(** The global list after three clients. *)
Definition ops3 : list op :=
  [OpAdd None net8; OpAdd None host; OpAdd None dual].

Definition st3 : state :=
  Eval vm_compute in
    default (initial_state srv) (run (initial_state srv) ops3).

(** The records as they are stored. *)
Definition net8' := set_number net8 0.
Definition host' := set_number host 1.
Definition dual' := set_number dual 2.
Definition any' := set_number any0 3.
Definition inner' := set_number inner 3.

Definition root3 : radclient_list :=
  Eval vm_compute in default (empty_list None) (list_of st3 None).
End Example.

(** All the entries a list holds, tree by tree. *)
Definition entries (cl : radclient_list) : list RADCLIENT :=
  mjoin (omap id (trees cl)).

Module Example2.
Import Example.
(** The global list once the all-zero /32 client has been added. *)
Definition st4 : state :=
  Eval vm_compute in
    default st3 (snd <$> client_add st3 None (Some any32)).

Definition root4 : radclient_list :=
  Eval vm_compute in default (empty_list None) (list_of st4 None).
End Example2.

(** An all-zero address of a supported family with a full-width prefix. *)
Definition inaddr_any_full (a : fr_ipaddr_t) : Prop :=
  addr a = 0%Z ∧
  ((af a = AF_INET ∧ prefix a = 32) ∨ (af a = AF_INET6 ∧ prefix a = 128)).

(** The entry of number [k] in the index is [c]. *)
Definition numbered (st : state) (k : Z) (c : RADCLIENT) : Prop :=
  ∃ t, tree_num st = Some t ∧ c ∈ t ∧ number c = k.

Module Example3.
Import Example Example2.
(** The stored /8 client is deleted, then the all-zero client added. *)
Definition ops5 : list op := [OpDelete None net8'; OpAdd None any32].

Definition st5 : state := Eval vm_compute in default st3 (run st3 ops5).
End Example3.

Module Example4.
Import Example.
(** A client of the virtual server "inner" is added through the NULL
    handle: it goes to that server's own list, which is created. *)
Definition st6 : state :=
  Eval vm_compute in
    default st3 (snd <$> client_add st3 None (Some inner)).

(** The state once the list of "inner" has been created and attached. *)
Definition st3_inner : state :=
  Eval vm_compute in
    default st3 (snd <$> client_add_clients st3 None inner).
End Example4.

Module Example5.
Import Example.
(** The stored /8 client is deleted from the global list. *)
Definition st7 : state :=
  Eval vm_compute in default st3 (client_delete st3 None (Some net8')).

Definition root7 : radclient_list :=
  Eval vm_compute in default (empty_list None) (list_of st7 None).
End Example5.

Module Example6.
Import Example.
(** A record that was never added: the address of the stored host
    client under another secret, as a reloaded configuration would
    produce it. *)
Definition rotated : RADCLIENT :=
  client (ip4 10 1 2 3 32) "host" "rotated" IPPROTO_UDP None.

(** A record whose key no stored entry has. *)
Definition stranger : RADCLIENT :=
  client (ip4 10 9 9 9 32) "stranger" "s" IPPROTO_UDP None.

Definition st8 : state :=
  Eval vm_compute in default st3 (client_delete st3 None (Some rotated)).
End Example6.

Module ExampleX.
Import Example.
(** The state after the first client has been added. *)
Definition st1 : state :=
  Eval vm_compute in
    default (initial_state srv)
      (snd <$> client_add (initial_state srv) None (Some net8)).

(** A client of a virtual server that is not configured. *)
Definition lost : RADCLIENT :=
  client (ip4 192 0 2 9 32) "lost" "s" IPPROTO_UDP (Some "outer").
End ExampleX.

(** The entries of the lists of a state all satisfy [P]. *)
Definition all_stored (P : RADCLIENT → Prop) (st : state) : Prop :=
  ∀ p cl e, lists st !! p = Some cl → stored cl e → P e.

(** ** Building a client from a configuration section *)

(** [fr_socket_limit_t]: the connection limits of a client, unsigned. *)
Record fr_socket_limit_t := {
  max_connections : Z;
  lifetime : Z;
  idle_timeout : Z
}.

Record timeval := {
  tv_sec : Z;
  tv_usec : Z
}.

(** [RADCLIENT] as the builders fill it: the fields the registry uses, in
    [rc_client], and the fields that only the builders and the listeners
    use. *)
Record RADCLIENT_cs := {
  rc_client : RADCLIENT;
  tls_required : bool;
  limit : fr_socket_limit_t;
  response_window : timeval;
  src_ipaddr : fr_ipaddr_t;
  server_cs : option CONF_SECTION
}.

Definition set_rc_client (c : RADCLIENT_cs) (r : RADCLIENT) : RADCLIENT_cs :=
  {| rc_client := r; tls_required := tls_required c; limit := limit c;
     response_window := response_window c; src_ipaddr := src_ipaddr c;
     server_cs := server_cs c |}.

Definition set_tls_required (c : RADCLIENT_cs) (b : bool) : RADCLIENT_cs :=
  {| rc_client := rc_client c; tls_required := b; limit := limit c;
     response_window := response_window c; src_ipaddr := src_ipaddr c;
     server_cs := server_cs c |}.

Definition set_limit (c : RADCLIENT_cs) (l : fr_socket_limit_t)
    : RADCLIENT_cs :=
  {| rc_client := rc_client c; tls_required := tls_required c; limit := l;
     response_window := response_window c; src_ipaddr := src_ipaddr c;
     server_cs := server_cs c |}.

Definition set_response_window (c : RADCLIENT_cs) (w : timeval)
    : RADCLIENT_cs :=
  {| rc_client := rc_client c; tls_required := tls_required c;
     limit := limit c; response_window := w; src_ipaddr := src_ipaddr c;
     server_cs := server_cs c |}.

Definition set_src_ipaddr (c : RADCLIENT_cs) (a : fr_ipaddr_t)
    : RADCLIENT_cs :=
  {| rc_client := rc_client c; tls_required := tls_required c;
     limit := limit c; response_window := response_window c;
     src_ipaddr := a; server_cs := server_cs c |}.

Definition set_server_cs (c : RADCLIENT_cs) (s : option CONF_SECTION)
    : RADCLIENT_cs :=
  {| rc_client := rc_client c; tls_required := tls_required c;
     limit := limit c; response_window := response_window c;
     src_ipaddr := src_ipaddr c; server_cs := s |}.

Definition set_ipaddr (c : RADCLIENT) (a : fr_ipaddr_t) : RADCLIENT :=
  {| ipaddr := a;
     longname := longname c; secret := secret c; shortname := shortname c;
     nas_type := nas_type c; server := server c;
     message_authenticator := message_authenticator c;
     proto := proto c; number := number c |}.

Definition set_longname (c : RADCLIENT) (s : option string) : RADCLIENT :=
  {| ipaddr := ipaddr c;
     longname := s; secret := secret c; shortname := shortname c;
     nas_type := nas_type c; server := server c;
     message_authenticator := message_authenticator c;
     proto := proto c; number := number c |}.

Definition set_secret (c : RADCLIENT) (s : option string) : RADCLIENT :=
  {| ipaddr := ipaddr c;
     longname := longname c; secret := s; shortname := shortname c;
     nas_type := nas_type c; server := server c;
     message_authenticator := message_authenticator c;
     proto := proto c; number := number c |}.

Definition set_shortname (c : RADCLIENT) (s : option string) : RADCLIENT :=
  {| ipaddr := ipaddr c;
     longname := longname c; secret := secret c; shortname := s;
     nas_type := nas_type c; server := server c;
     message_authenticator := message_authenticator c;
     proto := proto c; number := number c |}.

Definition set_server (c : RADCLIENT) (s : option string) : RADCLIENT :=
  {| ipaddr := ipaddr c;
     longname := longname c; secret := secret c; shortname := shortname c;
     nas_type := nas_type c; server := s;
     message_authenticator := message_authenticator c;
     proto := proto c; number := number c |}.

Definition set_nas_type (c : RADCLIENT) (s : option string) : RADCLIENT :=
  {| ipaddr := ipaddr c;
     longname := longname c; secret := secret c; shortname := shortname c;
     nas_type := s; server := server c;
     message_authenticator := message_authenticator c;
     proto := proto c; number := number c |}.

Definition set_message_authenticator (c : RADCLIENT) (b : bool) : RADCLIENT :=
  {| ipaddr := ipaddr c;
     longname := longname c; secret := secret c; shortname := shortname c;
     nas_type := nas_type c; server := server c;
     message_authenticator := b;
     proto := proto c; number := number c |}.

Definition set_proto (c : RADCLIENT) (p : Z) : RADCLIENT :=
  {| ipaddr := ipaddr c;
     longname := longname c; secret := secret c; shortname := shortname c;
     nas_type := nas_type c; server := server c;
     message_authenticator := message_authenticator c;
     proto := p; number := number c |}.

(** The file-scope variables [cl_ipaddr], [cl_srcipaddr] and [hs_proto]
    that the parser of a client section writes through pointers. *)
Record statics := {
  cl_ipaddr : fr_ipaddr_t;
  cl_srcipaddr : option string;
  hs_proto : option string
}.

Definition set_cl_ipaddr (s : statics) (a : fr_ipaddr_t) : statics :=
  {| cl_ipaddr := a; cl_srcipaddr := cl_srcipaddr s; hs_proto := hs_proto s |}.

Definition set_cl_srcipaddr (s : statics) (v : option string) : statics :=
  {| cl_ipaddr := cl_ipaddr s; cl_srcipaddr := v; hs_proto := hs_proto s |}.

Definition set_hs_proto (s : statics) (v : option string) : statics :=
  {| cl_ipaddr := cl_ipaddr s; cl_srcipaddr := cl_srcipaddr s; hs_proto := v |}.

(** What the configuration library, which is not part of this file,
    answers about one "client" section. Each field is the result of the
    call it is named after: the second name of the section, the result
    code of [cf_section_rules_push], what [cf_section_parse] returns and
    leaves in the zero-filled client and in the file-scope variables,
    whether [cf_pair_find] finds one of "ipaddr", "ipv4addr" and
    "ipv6addr", and the value of the pair "dhcp" when there is one. *)
Record client_section := {
  cf_section_name2 : option string;
  cf_section_rules_push : Z;
  cf_section_parse : statics → Z * RADCLIENT_cs * statics;
  cf_pair_find_ipaddr : bool;
  cf_pair_dhcp : option string
}.

(** The two comparisons [FR_TIMEVAL_BOUND_CHECK] is used with. *)
Inductive bound_op := BoundGe | BoundLe.

(** The functions and the macro of other files that the builders call,
    as parameters: address printing and parsing ([None] for a negative
    result), [fr_timeval_isset], the macro [FR_TIMEVAL_BOUND_CHECK] as
    the value it leaves in the variable, and
    [main_config.max_request_time]. *)
Record builder_env := {
  fr_inet_ntoh : fr_ipaddr_t → string;
  fr_inet_pton : string → option fr_ipaddr_t;
  fr_inet_pton4 : string → option fr_ipaddr_t;
  fr_inet_pton6 : string → option fr_ipaddr_t;
  fr_timeval_isset : timeval → bool;
  FR_TIMEVAL_BOUND_CHECK : timeval → bound_op → Z → Z → timeval;
  max_request_time : Z
}.

(** How a builder ends: with a client, with NULL, or in [rad_assert(0)]. *)
Inductive built (A : Type) :=
  | Built (a : A)
  | Failed
  | Asserted.

Arguments Built {A} a.
Arguments Failed {A}.
Arguments Asserted {A}.

(** The label [error] of [client_afrom_cs], built WITH_TCP. *)
Definition afrom_cs_error (s : statics) : statics :=
  set_cl_srcipaddr (set_hs_proto s None) None.

(** "Find the virtual server for this client": [None] is [goto error].
    [server_cs], when given, comes with its second name. *)
Definition afrom_cs_server (srv : gmap string CONF_SECTION)
    (server_cs : option (option string * CONF_SECTION)) (c : RADCLIENT_cs)
    : option RADCLIENT_cs :=
  match server (rc_client c) with
  | Some name =>
      match server_cs with
      | Some _ => None
      | None =>
          match srv !! name with
          | None => None
          | Some vs => Some (set_server_cs c (Some vs))
          end
      end
  | None =>
      match server_cs with
      | Some (name2, scs) =>
          Some (set_server_cs (set_rc_client c (set_server (rc_client c) name2))
                  (Some scs))
      | None => Some c
      end
  end.

(** "Newer style client definitions": address, long name, short name. *)
Definition afrom_cs_ipaddr (env : builder_env) (cs : client_section)
    (name2 : string) (s : statics) (c : RADCLIENT_cs) : option RADCLIENT_cs :=
  if cf_pair_find_ipaddr cs then
    let r := set_ipaddr (rc_client c) (cl_ipaddr s) in
    let r := set_longname r (Some (fr_inet_ntoh env (ipaddr r))) in
    let r := match shortname r with
             | None => set_shortname r (Some name2)
             | Some _ => r
             end in
    Some (set_rc_client c r)
  else None.

(** The transport: UDP unless "proto" says otherwise. *)
Definition afrom_cs_proto (s : statics) (c : RADCLIENT_cs)
    : option (RADCLIENT_cs * statics) :=
  let c := set_rc_client c (set_proto (rc_client c) IPPROTO_UDP) in
  match hs_proto s with
  | None => Some (c, s)
  | Some str =>
      if bool_decide (str = "udp") then Some (c, set_hs_proto s None)
      else if bool_decide (str = "tcp") then
        Some (set_rc_client c (set_proto (rc_client c) IPPROTO_TCP),
              set_hs_proto s None)
      else if bool_decide (str = "tls") then
        Some (set_tls_required
                (set_rc_client c (set_proto (rc_client c) IPPROTO_TCP)) true,
              set_hs_proto s None)
      else if bool_decide (str = "radsec") then
        Some (set_tls_required
                (set_rc_client c (set_proto (rc_client c) IPPROTO_TCP)) true,
              set_hs_proto s None)
      else if bool_decide (str = "*") then
        Some (set_rc_client c (set_proto (rc_client c) IPPROTO_IP),
              set_hs_proto s None)
      else None
  end.

(** The reply source address, built WITH_UDPFROMTO. *)
Definition afrom_cs_src_ipaddr (env : builder_env) (s : statics)
    (c : RADCLIENT_cs) : built (RADCLIENT_cs * statics) :=
  match cl_srcipaddr s with
  | None => Built (c, s)
  | Some str =>
      if (af (ipaddr (rc_client c)) =? AF_INET)%Z then
        match fr_inet_pton4 env str with
        | None => Failed
        | Some a => Built (set_src_ipaddr c a, set_cl_srcipaddr s None)
        end
      else if (af (ipaddr (rc_client c)) =? AF_INET6)%Z then
        match fr_inet_pton6 env str with
        | None => Failed
        | Some a => Built (set_src_ipaddr c a, set_cl_srcipaddr s None)
        end
      else Asserted
  end.

(** The three bound checks of a response window that is set. *)
Definition afrom_cs_response_window (env : builder_env) (c : RADCLIENT_cs)
    : RADCLIENT_cs :=
  if fr_timeval_isset env (response_window c) then
    let w := FR_TIMEVAL_BOUND_CHECK env (response_window c) BoundGe 0 1000 in
    let w := FR_TIMEVAL_BOUND_CHECK env w BoundLe 60 0 in
    let w := FR_TIMEVAL_BOUND_CHECK env w BoundLe (max_request_time env) 0 in
    set_response_window c w
  else c.

(** The floors of the connection limits of a TCP or dual client. *)
Definition afrom_cs_limit (c : RADCLIENT_cs) : RADCLIENT_cs :=
  if ((proto (rc_client c) =? IPPROTO_TCP)
      || (proto (rc_client c) =? IPPROTO_IP))%Z then
    let l := limit c in
    let l := if ((0 <? idle_timeout l) && (idle_timeout l <? 5))%Z
             then {| max_connections := max_connections l;
                     lifetime := lifetime l; idle_timeout := 5 |}
             else l in
    let l := if ((0 <? lifetime l) && (lifetime l <? 5))%Z
             then {| max_connections := max_connections l;
                     lifetime := 5; idle_timeout := idle_timeout l |}
             else l in
    let l := if ((0 <? lifetime l) && (lifetime l <? idle_timeout l))%Z
             then {| max_connections := max_connections l;
                     lifetime := lifetime l; idle_timeout := 0 |}
             else l in
    set_limit c l
  else c.

(** A missing or empty secret, built WITH_DHCP and WITH_TLS, then the
    limits. A DHCP client returns at once; [None] is [goto error]. *)
Definition afrom_cs_secret (cs : client_section) (c : RADCLIENT_cs)
    : option RADCLIENT_cs :=
  if match secret (rc_client c) with
     | None => true
     | Some str => bool_decide (str = "")
     end
  then
    if match cf_pair_dhcp cs with
       | Some value => bool_decide (value = "yes")
       | None => false
       end
    then Some c
    else if tls_required c then
      Some (afrom_cs_limit
              (set_rc_client c (set_secret (rc_client c) (Some "radsec"))))
    else None
  else Some (afrom_cs_limit c).

(** Allocate a new client from a config section. [server_cs], when
    given, comes with its second name. *)
Definition client_afrom_cs (env : builder_env)
    (srv : gmap string CONF_SECTION) (s : statics) (cs : client_section)
    (server_cs : option (option string * CONF_SECTION))
    : built RADCLIENT_cs * statics :=
  match cf_section_name2 cs with
  | None => (Failed, s)
  | Some name2 =>
      let s := set_cl_ipaddr s {| af := 0; addr := 0; prefix := 0 |} in
      if (cf_section_rules_push cs <? 0)%Z then (Failed, s)
      else
        let '(rcode, c, s) := cf_section_parse cs s in
        if (rcode <? 0)%Z then (Failed, afrom_cs_error s)
        else
          match afrom_cs_server srv server_cs c with
          | None => (Failed, afrom_cs_error s)
          | Some c =>
              match afrom_cs_ipaddr env cs name2 s c with
              | None => (Failed, afrom_cs_error s)
              | Some c =>
                  match afrom_cs_proto s c with
                  | None => (Failed, afrom_cs_error s)
                  | Some (c, s) =>
                      match afrom_cs_src_ipaddr env s c with
                      | Asserted => (Asserted, s)
                      | Failed => (Failed, afrom_cs_error s)
                      | Built (c, s) =>
                          let c := afrom_cs_response_window env c in
                          match afrom_cs_secret cs c with
                          | None => (Failed, afrom_cs_error s)
                          | Some c => (Built c, s)
                          end
                      end
                  end
              end
          end
  end.

(** The zero-filled client of [talloc_zero]. *)
Definition zero_client : RADCLIENT_cs :=
  {| rc_client :=
       {| ipaddr := {| af := 0; addr := 0; prefix := 0 |};
          longname := None; secret := None; shortname := None;
          nas_type := None; server := None; message_authenticator := false;
          proto := 0; number := 0 |};
     tls_required := false;
     limit := {| max_connections := 0; lifetime := 0; idle_timeout := 0 |};
     response_window := {| tv_sec := 0; tv_usec := 0 |};
     src_ipaddr := {| af := 0; addr := 0; prefix := 0 |};
     server_cs := None |}.

(** Add a client from a result set (SQL). A NULL string is [None]. *)
Definition client_afrom_query (env : builder_env) (identifier : string)
    (secret shortname type server : option string) (require_ma : bool)
    : option RADCLIENT_cs :=
  match fr_inet_pton env identifier with
  | None => None
  | Some a =>
      let r := set_ipaddr (rc_client zero_client) a in
      let r := set_longname r (Some (fr_inet_ntoh env (ipaddr r))) in
      let r := set_secret r secret in
      let r := match shortname with
               | Some _ => set_shortname r shortname
               | None => r
               end in
      let r := match type with
               | Some _ => set_nas_type r type
               | None => r
               end in
      let r := match server with
               | Some _ => set_server r server
               | None => r
               end in
      let r := set_message_authenticator r require_ma in
      Some (set_rc_client zero_client r)
  end.

(** The transport and TLS flag that go with a value of "proto", the TLS
    flag having been [tls0]. *)
Definition transport_of (str : option string) (tls0 : bool) (pr : Z)
    (tls : bool) : Prop :=
  match str with
  | None => pr = IPPROTO_UDP ∧ tls = tls0
  | Some str =>
      (str = "udp" ∧ pr = IPPROTO_UDP ∧ tls = tls0) ∨
      (str = "tcp" ∧ pr = IPPROTO_TCP ∧ tls = tls0) ∨
      ((str = "tls" ∨ str = "radsec") ∧ pr = IPPROTO_TCP ∧ tls = true) ∨
      (str = "*" ∧ pr = IPPROTO_IP ∧ tls = tls0)
  end.

(** A secret is missing: NULL or the empty string. *)
Definition no_secret (c : RADCLIENT) : Prop :=
  secret c = None ∨ secret c = Some "".

(** The connection limits are within their floors. *)
Definition limit_ok (l : fr_socket_limit_t) : Prop :=
  ¬ (0 < idle_timeout l < 5)%Z ∧ ¬ (0 < lifetime l < 5)%Z ∧
  ((0 < lifetime l)%Z → (idle_timeout l ≤ lifetime l)%Z).

Module ExampleB.
Import Example.
(** Stand-ins for the library functions: the printer gives a fixed name,
    the parsers refuse, a window is set when one of its fields is not
    zero, and the bound check leaves the window alone. *)
Definition env : builder_env :=
  {| fr_inet_ntoh := λ _, "192.0.2.1";
     fr_inet_pton := λ _, Some (ip4 192 0 2 1 32);
     fr_inet_pton4 := λ _, None;
     fr_inet_pton6 := λ _, None;
     fr_timeval_isset :=
       λ w, negb ((tv_sec w =? 0)%Z && (tv_usec w =? 0)%Z);
     FR_TIMEVAL_BOUND_CHECK := λ w _ _ _, w;
     max_request_time := 30 |}.

Definition no_statics : statics :=
  {| cl_ipaddr := {| af := 0; addr := 0; prefix := 0 |};
     cl_srcipaddr := None; hs_proto := None |}.

(** A section [client nas1 { ipaddr = 192.0.2.1  proto = <pr>
    secret = <sec>  limit { lifetime = 3  idle_timeout = 30 } }]. *)
Definition nas (a : fr_ipaddr_t) (pr : option string) (sec : option string)
    : client_section :=
  {| cf_section_name2 := Some "nas1";
     cf_section_rules_push := 0;
     cf_section_parse := λ s,
       (0%Z,
        set_limit
          (set_rc_client zero_client
             (set_secret (rc_client zero_client) sec))
          {| max_connections := 16; lifetime := 3; idle_timeout := 30 |},
        set_hs_proto (set_cl_ipaddr s a) pr);
     cf_pair_find_ipaddr := true;
     cf_pair_dhcp := None |}.

Definition nas_tcp : client_section :=
  nas (ip4 192 0 2 1 32) (Some "tcp") (Some "testing123").

Definition nas_tcp_built : RADCLIENT_cs :=
  Eval vm_compute in
    match client_afrom_cs env srv no_statics nas_tcp None with
    | (Built c, _) => c
    | _ => zero_client
    end.

Definition nas_tcp_after : statics :=
  Eval vm_compute in
    (client_afrom_cs env srv no_statics nas_tcp None).2.

(** A client from a query result, and the state once it is added. *)
Definition sql_client : RADCLIENT_cs :=
  Eval vm_compute in
    default zero_client
      (client_afrom_query env "192.0.2.1" (Some "sql") None None None false).

Definition st_sql : state :=
  Eval vm_compute in
    default st3 (snd <$> client_add st3 None (Some (rc_client sql_client))).
End ExampleB.

(** ** Parsing the clients of a section *)

(** Modelled from the spec: the section given to
    [client_list_parse_section], a section of the configuration library:
    the root of the configuration, or the section of a virtual server,
    under the name [virtual_server_find] finds it by. *)
Inductive section_id :=
  | SecRoot
  | SecServer (name2 : string).

(** Modelled from the spec: the registry state, whose [servers] holds
    the sections of the virtual servers, together with the root section
    of the configuration and the file-scope variables of the parser. *)
Record config := {
  registry : state;
  root_section : CONF_SECTION;
  parser_statics : statics
}.

(** Modelled from the spec: the section a [section_id] points to, whose
    [cs_clients] is what [cf_data_find] answers; [None] when it points to
    no section of the configuration. *)
Definition cf_section (cf : config) (section : section_id)
    : option CONF_SECTION :=
  match section with
  | SecRoot => Some (root_section cf)
  | SecServer n => servers (registry cf) !! n
  end.

Definition cf_section_name2_of (section : section_id) : option string :=
  match section with
  | SecRoot => None
  | SecServer n => Some n
  end.

(** Modelled from the spec: [cf_data_add(section, clients, NULL, false)]
    of the configuration library, which attaches the list to the section
    and is taken to succeed as allocation is. *)
Definition cf_data_add (cf : config) (section : section_id) (clients : nat)
    : config :=
  match section with
  | SecRoot =>
      {| registry := registry cf;
         root_section := set_cs_clients (root_section cf) (Some clients);
         parser_statics := parser_statics cf |}
  | SecServer n =>
      {| registry :=
           set_servers (registry cf)
             (alter (λ cs, set_cs_clients cs (Some clients)) n
                (servers (registry cf)));
         root_section := root_section cf;
         parser_statics := parser_statics cf |}
  end.

(** The loop of [client_list_parse_section] over the "client"
    subsections [cf_section_find_next] yields, built WITH_TLS. The
    boolean is false when the loop left through the label [error];
    [None] is an assertion or undefined behaviour in a callee. *)
Fixpoint parse_section_loop (env : builder_env) (st : state) (s : statics)
    (clients : nat) (server_cs : option (option string * CONF_SECTION))
    (tls : bool) (subsections : list client_section)
    : option (bool * state * statics) :=
  match subsections with
  | [] => Some (true, st, s)
  | cs :: rest =>
      match client_afrom_cs env (servers st) s cs server_cs with
      | (Asserted, _) => None
      | (Failed, s) => Some (false, st, s)
      | (Built c, s) =>
          if bool_decide (tls ≠ tls_required c) then Some (false, st, s)
          else
            match client_add st (Some clients) (Some (rc_client c)) with
            | None => None
            | Some (false, st) => Some (false, st, s)
            | Some (true, st) =>
                parse_section_loop env st s clients server_cs tls rest
            end
      end
  end.

(** Create a list of clients from a client section. The result is the
    list, or [None] for NULL. On the error path [talloc_free(clients)]
    releases the list and, with it, the records the list holds, which
    [client_add] has re-parented to it, and the number index when that
    was created under this list. The list is the last one allocated, so
    [lists] is cut back to what it was. When the released list holds
    records, the number index is left pointing into released memory,
    which the state of the registry here cannot describe: the call then
    has no result in this model. *)
Definition client_list_parse_section (env : builder_env) (cf : config)
    (section : section_id) (subsections : list client_section)
    (tls_required : bool) : option (option nat * config) :=
  sec ← cf_section cf section;
  match cs_clients sec with
  | Some clients => Some (Some clients, cf)
  | None =>
      let '(clients, st) := client_list_init (registry cf) (Some sec) in
      let global :=
        match section with SecRoot => true | SecServer _ => false end in
      let server_cs :=
        if bool_decide (name1 sec = "server")
        then Some (cf_section_name2_of section, sec) else None in
      match parse_section_loop env st (parser_statics cf) clients server_cs
              tls_required subsections with
      | None => None
      | Some (false, st, s) =>
          match entries <$> lists st !! clients with
          | Some [] =>
              Some (None,
                    {| registry := set_lists st (take clients (lists st));
                       root_section := root_section cf;
                       parser_statics := s |})
          | _ => None
          end
      | Some (true, st, s) =>
          let cf := cf_data_add {| registry := st;
                                   root_section := root_section cf;
                                   parser_statics := s |} section clients in
          let cf :=
            if global
            then {| registry :=
                      set_root_clients (registry cf) (Some clients);
                    root_section := root_section cf;
                    parser_statics := parser_statics cf |}
            else cf in
          Some (Some clients, cf)
      end
  end.

(** What the loop guarantees of a subsection it has got past: the
    builder made a client of it, from some value of the file-scope
    variables, and the client's TLS flag is the listener's. *)
Definition parsed_with (env : builder_env) (srv : gmap string CONF_SECTION)
    (server_cs : option (option string * CONF_SECTION)) (tls : bool)
    (cs : client_section) (c : RADCLIENT_cs) : Prop :=
  ∃ s s', client_afrom_cs env srv s cs server_cs = (Built c, s') ∧
          tls_required c = tls.

(** The number index keeps the records of [st]. *)
Definition numbers_kept (st st' : state) : Prop :=
  ∀ t e, tree_num st = Some t → e ∈ t →
    ∃ t', tree_num st' = Some t' ∧ e ∈ t'.

Module ExampleP.
Import Example ExampleB.
(** The configuration behind [st3]: the root section "main" and the
    virtual server "inner", neither with a client list attached. *)
Definition cf3 : config :=
  {| registry := st3;
     root_section := {| name1 := "main"; listen := false;
                        cs_clients := None |};
     parser_statics := no_statics |}.

(** Two clients of different addresses; the first speaks TCP. *)
Definition two_clients : list client_section :=
  [nas_tcp; nas (ip4 192 0 2 2 32) None (Some "s2")].

(** The address of the first client again, under another secret. *)
Definition clashing : list client_section :=
  [nas_tcp; nas (ip4 192 0 2 1 32) (Some "tcp") (Some "other")].

(** The section of "inner" parsed with [two_clients]. *)
Definition cf_inner : config :=
  Eval vm_compute in
    default cf3
      (snd <$> client_list_parse_section env cf3 (SecServer "inner")
                 two_clients false).

(** The root section parsed with [two_clients] for a TLS listener: the
    first client does not require TLS, and nothing has been stored. *)
Definition cf_tls : config :=
  Eval vm_compute in
    default cf3
      (snd <$> client_list_parse_section env cf3 SecRoot two_clients true).

(** The loop over [clashing] for the root section: the first client is
    stored, then the second fails. *)
Definition clash_loop : state * statics :=
  Eval vm_compute in
    match parse_section_loop env
            (client_list_init st3 (Some (root_section cf3))).2
            no_statics 1 None false clashing with
    | Some (_, st, s) => (st, s)
    | None => (st3, no_statics)
    end.
End ExampleP.

(** ** Reading a client from a file *)

(** [strrchr(s, c)] for a character [c] other than NUL: [s] from the
    last [c] on, [None] for NULL. *)
Fixpoint strrchr (s : string) (c : Ascii.ascii) : option string :=
  match s with
  | EmptyString => None
  | String a rest =>
      match strrchr rest c with
      | Some p => Some p
      | None => if Ascii.eqb a c then Some s else None
      end
  end.

(** The slash. *)
Definition FR_DIR_SEP : Ascii.ascii := Ascii.ascii_of_nat 47.

(** Read a single client from a file. [cf_file_read] stands for reading
    the file into a new section and looking for its "client" section:
    [None] when the file cannot be read, [Some None] when it has no such
    section. *)
Definition client_read (env : builder_env) (srv : gmap string CONF_SECTION)
    (s : statics) (cf_file_read : string → option (option client_section))
    (filename : option string)
    (server_cs : option (option string * CONF_SECTION)) (check_dns : bool)
    : built RADCLIENT_cs * statics :=
  match filename with
  | None => (Failed, s)
  | Some filename =>
      match cf_file_read filename with
      | None | Some None => (Failed, s)
      | Some (Some cs) =>
          match client_afrom_cs env srv s cs server_cs with
          | (Built c, s) =>
              let p := match strrchr filename FR_DIR_SEP with
                       | Some (String _ p) => p
                       | _ => filename
                       end in
              if negb check_dns then (Built c, s)
              else if negb (String.eqb p
                              (fr_inet_ntoh env (ipaddr (rc_client c))))
              then (Failed, s)
              else (Built c, s)
          | r => r
          end
      end
  end.

(** [name] is the last component of the path [filename]. *)
Definition last_component (filename name : string) : Prop :=
  strrchr name FR_DIR_SEP = None ∧
  ∃ dir, filename = dir +:+ name ∧
         (dir = "" ∨ ∃ d, dir = d +:+ String FR_DIR_SEP "").

(** ** The vocabulary of the properties *)

(** Two transports are compatible: one of them is the wildcard, or they
    are the same. *)
Definition compatible (a b : Z) : Prop :=
  a = IPPROTO_IP ∨ b = IPPROTO_IP ∨ a = b.

(** The bit width of an address family. *)
Definition family_width (family : Z) : nat :=
  if (family =? AF_INET)%Z then 32 else 128.

(** An address that has no bit set beyond its own prefix length, as the
    address parser leaves it. *)
Definition canonical (a : fr_ipaddr_t) : Prop :=
  fr_ipaddr_mask a (prefix a) = a.

(** The query masked to the entry's prefix length is the entry's address
    as it is stored, and the transports are compatible. *)
Definition key_matches (q : fr_ipaddr_t) (pr : Z) (e : RADCLIENT) : Prop :=
  fr_ipaddr_mask q (prefix (ipaddr e)) = ipaddr e ∧ compatible pr (proto e).

(** The query masked to the entry's prefix length is the entry's masked
    address, and the transports are compatible. *)
Definition covers (q : fr_ipaddr_t) (pr : Z) (e : RADCLIENT) : Prop :=
  fr_ipaddr_mask q (prefix (ipaddr e))
  = fr_ipaddr_mask (ipaddr e) (prefix (ipaddr e)) ∧
  compatible pr (proto e).

(** Two records have equal address keys: the same family, address and
    prefix length, and compatible transports. *)
Definition same_key (a b : RADCLIENT) : Prop :=
  ipaddr a = ipaddr b ∧ compatible (proto a) (proto b).

(** Two records agree in long name, secret, short name, NAS type,
    virtual server and message-authenticator flag. *)
Definition same_fields (a b : RADCLIENT) : Prop :=
  longname a = longname b ∧ secret a = secret b ∧
  shortname a = shortname b ∧ nas_type a = nas_type b ∧
  server a = server b ∧
  message_authenticator a = message_authenticator b.

(** The floor of 5 under a limit that is set. *)
Definition floor5 (x : Z) : Z :=
  if ((0 <? x) && (x <? 5))%Z then 5%Z else x.

Module ExampleC.
Import Example.
(** One address under two concrete transports and two secrets, and a
    wildcard-transport record for it with the secret of the first. *)
Definition tcp_st := client (ip4 192 0 2 7 32) "nas" "st" IPPROTO_TCP None.
Definition udp_su := client (ip4 192 0 2 7 32) "nas" "su" IPPROTO_UDP None.
Definition wild_st := client (ip4 192 0 2 7 32) "nas" "st" IPPROTO_IP None.

Definition st_pair : state :=
  Eval vm_compute in
    default (initial_state srv)
      (run (initial_state srv) [OpAdd None tcp_st; OpAdd None udp_su]).

Definition root_pair : radclient_list :=
  Eval vm_compute in default (empty_list None) (list_of st_pair None).

(** The other insertion order. *)
Definition st_riap : state :=
  Eval vm_compute in
    default (initial_state srv)
      (run (initial_state srv) [OpAdd None udp_su; OpAdd None tcp_st]).


End ExampleC.

(** * Properties *)

(** ** The comparison functions *)

Lemma fr_ipaddr_cmp_eq a b : fr_ipaddr_cmp a b = 0%Z ↔ a = b.
Proof.
  unfold fr_ipaddr_cmp. split.
  - repeat case_match; try discriminate. intros _.
    rewrite ?Z.ltb_ge, ?Nat.ltb_ge in *.
    destruct a, b; simpl in *. f_equal; lia.
  - intros ->. rewrite !Z.ltb_irrefl, Nat.ltb_irrefl. done.
Qed.

Lemma client_ipaddr_cmp_eq a b :
  client_ipaddr_cmp a b = 0%Z ↔
  ipaddr a = ipaddr b ∧
  (proto a = IPPROTO_IP ∨ proto b = IPPROTO_IP ∨ proto a = proto b).
Proof.
  unfold client_ipaddr_cmp.
  destruct (fr_ipaddr_cmp (ipaddr a) (ipaddr b) =? 0)%Z eqn:E; simpl.
  - apply Z.eqb_eq, fr_ipaddr_cmp_eq in E. unfold IPPROTO_IP.
    destruct (Z.eqb_spec (proto a) 0), (Z.eqb_spec (proto b) 0); simpl;
      (split; [intros; split; [done | lia]
              | intros [_ [?|[?|?]]]; lia]).
  - apply Z.eqb_neq in E. split; [done|]. intros [Heq _].
    apply fr_ipaddr_cmp_eq in Heq. done.
Qed.

Lemma client_ipaddr_cmp_sym a b :
  client_ipaddr_cmp a b = 0%Z → client_ipaddr_cmp b a = 0%Z.
Proof.
  rewrite !client_ipaddr_cmp_eq. intros [H1 H2]. split; [done|].
  destruct H2 as [?|[?|?]]; auto.
Qed.

Lemma client_ipaddr_cmp_refl a : client_ipaddr_cmp a a = 0%Z.
Proof. apply client_ipaddr_cmp_eq. auto. Qed.

Lemma client_ipaddr_cmp_set_number a b n :
  client_ipaddr_cmp a (set_number b n) = client_ipaddr_cmp a b.
Proof. done. Qed.

Lemma client_num_cmp_eq a b : client_num_cmp a b = 0%Z ↔ number a = number b.
Proof. unfold client_num_cmp. lia. Qed.

(** ** The trees *)

Section trees.
Variable compare : RADCLIENT → RADCLIENT → Z.

Lemma rbtree_finddata_Some t d x :
  rbtree_finddata compare t d = Some x → x ∈ t ∧ compare d x = 0%Z.
Proof.
  induction t as [|y t IH]; simpl; [done|].
  destruct (compare d y =? 0)%Z eqn:E.
  - intros [= ->]. split; [left | by apply Z.eqb_eq].
  - intros H. destruct (IH H). split; [by right | done].
Qed.

Lemma rbtree_finddata_None t d :
  rbtree_finddata compare t d = None ↔ ∀ x, x ∈ t → compare d x ≠ 0%Z.
Proof.
  induction t as [|y t IH]; simpl.
  - split; [|done]. intros _ x Hx. by apply not_elem_of_nil in Hx.
  - destruct (compare d y =? 0)%Z eqn:E.
    + apply Z.eqb_eq in E. split; [done|]. intros H.
      destruct (H y); [left | done].
    + apply Z.eqb_neq in E. rewrite IH. split.
      * intros H x [->|Hx]%elem_of_cons; auto.
      * intros H x Hx. apply H. by right.
Qed.

Lemma rbtree_finddata_is_Some t d x :
  x ∈ t → compare d x = 0%Z → is_Some (rbtree_finddata compare t d).
Proof.
  intros Hx Hc.
  destruct (rbtree_finddata compare t d) eqn:E; [by eexists|].
  exfalso. eapply rbtree_finddata_None; eauto.
Qed.

(** A probe of [t ++ [c]] that finds nothing in [t] finds [c]. *)
Lemma rbtree_finddata_snoc t c d :
  rbtree_finddata compare t d = None →
  rbtree_finddata compare (t ++ [c]) d
  = if (compare d c =? 0)%Z then Some c else None.
Proof.
  induction t as [|y t IH]; simpl; [done|].
  destruct (compare d y =? 0)%Z; [done | apply IH].
Qed.

Lemma rbtree_finddata_app_Some t l d x :
  rbtree_finddata compare t d = Some x →
  rbtree_finddata compare (t ++ l) d = Some x.
Proof.
  induction t as [|y t IH]; simpl; [done|].
  destruct (compare d y =? 0)%Z; [done | apply IH].
Qed.

Lemma rbtree_deletebydata_absent t d :
  rbtree_finddata compare t d = None → rbtree_deletebydata compare t d = t.
Proof.
  induction t as [|y t IH]; simpl; [done|].
  destruct (compare d y =? 0)%Z; [done|]. intros H. by rewrite IH.
Qed.

Lemma rbtree_deletebydata_elem t d x :
  x ∈ rbtree_deletebydata compare t d → x ∈ t.
Proof.
  induction t as [|y t IH]; simpl; [done|].
  destruct (compare d y =? 0)%Z.
  - intros. by right.
  - intros [->|H]%elem_of_cons; [left | right; auto].
Qed.

Lemma rbtree_deletebydata_NoDup t d :
  NoDup t → NoDup (rbtree_deletebydata compare t d).
Proof.
  induction 1 as [|y t Hy Ht IH]; simpl; [constructor|].
  destruct (compare d y =? 0)%Z; [done|].
  constructor; [|done]. intros H. by apply rbtree_deletebydata_elem in H.
Qed.

(** An entry other than the first one comparing equal to [d] stays. *)
Lemma rbtree_deletebydata_other t d x :
  x ∈ t → compare d x ≠ 0%Z → x ∈ rbtree_deletebydata compare t d.
Proof.
  induction t as [|y t IH]; simpl; [done|].
  intros Hx Hc. destruct (compare d y =? 0)%Z eqn:E.
  - apply Z.eqb_eq in E. apply elem_of_cons in Hx as [->|Hx]; done.
  - apply elem_of_cons in Hx as [->|Hx]; [left | right; auto].
Qed.

(** The entry a probe finds is the one the deletion removes. *)
Lemma rbtree_deletebydata_found t d x :
  NoDup t → rbtree_finddata compare t d = Some x →
  x ∉ rbtree_deletebydata compare t d.
Proof.
  induction 1 as [|y t Hy Ht IH]; simpl; [done|].
  destruct (compare d y =? 0)%Z eqn:E.
  - intros [= ->]. done.
  - intros Hf [->|Hx]%elem_of_cons.
    + apply rbtree_finddata_Some in Hf as [? _]. done.
    + by apply IH.
Qed.

Lemma distinct_by_nil : distinct_by compare [].
Proof.
  split; [constructor|]. intros a b Ha. by apply not_elem_of_nil in Ha.
Qed.

Lemma distinct_by_delete t d :
  distinct_by compare t →
  distinct_by compare (rbtree_deletebydata compare t d).
Proof.
  intros [Hnd Hd]. split; [by apply rbtree_deletebydata_NoDup|].
  intros a b Ha%rbtree_deletebydata_elem Hb%rbtree_deletebydata_elem. auto.
Qed.

(** In a tree without equal entries, the probe with an entry finds it,
    and the deletion of an entry removes it and nothing else. *)
Lemma rbtree_finddata_self t x :
  distinct_by compare t → x ∈ t → compare x x = 0%Z →
  rbtree_finddata compare t x = Some x.
Proof.
  intros [_ Hd] Hx Hr.
  destruct (rbtree_finddata_is_Some _ _ _ Hx Hr) as [y Hy].
  rewrite Hy. f_equal. apply rbtree_finddata_Some in Hy as [Hyt Hyc].
  symmetry. by apply Hd.
Qed.

Lemma rbtree_deletebydata_self t x :
  distinct_by compare t → x ∈ t → compare x x = 0%Z →
  (x ∉ rbtree_deletebydata compare t x) ∧
  (∀ e, e ∈ t → e ≠ x → e ∈ rbtree_deletebydata compare t x).
Proof.
  intros Hd Hx Hr. split.
  - apply rbtree_deletebydata_found; [apply Hd|].
    by apply rbtree_finddata_self.
  - intros e He Hne. apply rbtree_deletebydata_other; [done|].
    intros Hc. apply Hne. symmetry. by apply Hd.
Qed.

Section symmetric.
Hypothesis compare_refl : ∀ a, compare a a = 0%Z.
Hypothesis compare_sym : ∀ a b, compare a b = 0%Z → compare b a = 0%Z.

Lemma distinct_by_snoc t c :
  distinct_by compare t → rbtree_finddata compare t c = None →
  distinct_by compare (t ++ [c]).
Proof.
  intros [Hnd Hd] Hfind.
  pose proof (proj1 (rbtree_finddata_None _ _) Hfind) as Hne.
  split.
  - apply NoDup_app. split; [done|]. split; [|apply NoDup_singleton].
    intros x Hx ->%list_elem_of_singleton. by apply (Hne c Hx).
  - intros a b [Ha| ->%list_elem_of_singleton]%elem_of_app
               [Hb| ->%list_elem_of_singleton]%elem_of_app Hc; auto.
    + by apply compare_sym, Hne in Hc.
    + by apply Hne in Hc.
Qed.
End symmetric.

End trees.

(** ** The scan of [client_find] *)

Section scan.
Variables (cl : radclient_list) (q : fr_ipaddr_t) (pr : Z).

Lemma client_find_probe_Some i r :
  client_find_probe cl q pr i = Some r →
  ∃ t, trees cl !! i = Some (Some t) ∧ r ∈ t ∧
       client_ipaddr_cmp (myclient (fr_ipaddr_mask q i) pr 0) r = 0%Z.
Proof.
  unfold client_find_probe. destruct (trees cl !! i) as [[t|]|]; try done.
  intros [? ?]%rbtree_finddata_Some. eauto.
Qed.

Lemma client_find_probe_is_Some i t e :
  trees cl !! i = Some (Some t) → e ∈ t →
  client_ipaddr_cmp (myclient (fr_ipaddr_mask q i) pr 0) e = 0%Z →
  is_Some (client_find_probe cl q pr i).
Proof.
  unfold client_find_probe. intros -> He Hc.
  eapply rbtree_finddata_is_Some; eauto.
Qed.

(** The scan returns the hit of the highest prefix length in range. *)
Lemma client_find_loop_Some lo n r :
  client_find_loop cl q pr lo n = Some r →
  ∃ i, lo ≤ i < lo + n ∧ client_find_probe cl q pr i = Some r ∧
       ∀ j, i < j < lo + n → client_find_probe cl q pr j = None.
Proof.
  induction n as [|n IH]; simpl; [done|].
  destruct (client_find_probe cl q pr (lo + n)) eqn:E.
  - intros [= ->]. exists (lo + n). split; [lia|]. split; [done|].
    intros j Hj. lia.
  - intros (i & Hi & Hp & Hn)%IH. exists i. split; [lia|]. split; [done|].
    intros j Hj. destruct (decide (j = lo + n)) as [->|]; [done|].
    apply Hn. lia.
Qed.

Lemma client_find_loop_None lo n :
  client_find_loop cl q pr lo n = None ↔
  ∀ i, lo ≤ i < lo + n → client_find_probe cl q pr i = None.
Proof.
  induction n as [|n IH]; simpl.
  - split; [|done]. intros _ i Hi. lia.
  - destruct (client_find_probe cl q pr (lo + n)) eqn:E.
    + split; [done|]. intros H. rewrite H in E; [done | lia].
    + rewrite IH. split.
      * intros H i Hi. destruct (decide (i = lo + n)) as [->|]; [done|].
        apply H. lia.
      * intros H i Hi. apply H. lia.
Qed.

(** The lowest prefix length is tried last. *)
Lemma client_find_loop_last lo n :
  client_find_loop cl q pr lo (S n)
  = match client_find_loop cl q pr (S lo) n with
    | Some data => Some data
    | None => client_find_probe cl q pr lo
    end.
Proof.
  induction n as [|n IH].
  - simpl. rewrite Nat.add_0_r. by destruct (client_find_probe cl q pr lo).
  - change (client_find_loop cl q pr lo (S (S n)))
      with (match client_find_probe cl q pr (lo + S n) with
            | Some data => Some data
            | None => client_find_loop cl q pr lo (S n)
            end).
    rewrite IH. simpl. replace (lo + S n) with (S (lo + n)) by lia.
    by destruct (client_find_probe cl q pr (S (lo + n))).
Qed.
End scan.

Lemma client_find_max_prefix_Some q m :
  client_find_max_prefix q = Some m →
  (af q = AF_INET ∧ m = prefix q `min` 32) ∨
  (af q = AF_INET6 ∧ m = prefix q `min` 128).
Proof.
  unfold client_find_max_prefix.
  destruct (Z.eqb_spec (af q) AF_INET); [|destruct (Z.eqb_spec (af q) AF_INET6)];
    [| |done]; intros [= <-]; [left | right]; (split; [done|]);
    case_match; rewrite ?Nat.ltb_lt, ?Nat.ltb_ge in *; lia.
Qed.

Lemma client_find_unfold st h q pr cl m :
  list_of st h = Some cl → client_find_max_prefix q = Some m →
  client_find st h (Some q) pr
  = client_find_loop cl q pr (min_prefix cl) (S m - min_prefix cl).
Proof.
  unfold list_of, client_find. intros Hl Hm.
  destruct (match h with Some p => Some p | None => root_clients st end)
    as [p|]; [|done].
  simpl in Hl. rewrite Hl. simpl. by rewrite Hm.
Qed.

(** Longest-prefix match on a well-formed list: when an entry within the
    scanned range matches, the lookup returns a stored, matching entry
    whose prefix length is in the scanned range and at least that of any
    matching entry in range. *)
Lemma client_find_lpm st h cl q pr m e :
  list_of st h = Some cl → list_wf cl →
  client_find_max_prefix q = Some m →
  stored cl e → matches q pr e → prefix (ipaddr e) ≤ m →
  ∃ r, client_find st h (Some q) pr = Some r ∧
       stored cl r ∧ matches q pr r ∧
       min_prefix cl ≤ prefix (ipaddr r) ≤ m ∧
       ∀ e', stored cl e' → matches q pr e' → prefix (ipaddr e') ≤ m →
             prefix (ipaddr e') ≤ prefix (ipaddr r).
Proof.
  intros Hl Hwf Hm (i & t & Hi & He) Hmatch Hle.
  rewrite (client_find_unfold _ _ _ _ _ _ Hl Hm).
  pose proof (wf_prefix _ Hwf _ _ _ Hi He) as Hpe.
  pose proof (wf_watermark _ Hwf _ _ Hi) as Hlo.
  destruct (client_find_loop cl q pr (min_prefix cl) (S m - min_prefix cl))
    as [r|] eqn:E.
  - apply client_find_loop_Some in E as (j & Hj & Hp & Hn).
    apply client_find_probe_Some in Hp as (tj & Htj & Hr & Hc).
    pose proof (wf_prefix _ Hwf _ _ _ Htj Hr) as Hpr.
    exists r. split; [done|]. split; [by exists j, tj|].
    split; [unfold matches; by rewrite Hpr|]. split; [lia|].
    intros e' (i' & t' & Hi' & He') Hmatch' Hle'.
    pose proof (wf_prefix _ Hwf _ _ _ Hi' He') as Hpe'.
    pose proof (wf_watermark _ Hwf _ _ Hi') as Hlo'.
    destruct (decide (prefix (ipaddr e') ≤ prefix (ipaddr r))); [done|].
    exfalso. unfold matches in Hmatch'. rewrite Hpe' in Hmatch'.
    destruct (client_find_probe_is_Some cl q pr i' t' e' Hi' He' Hmatch')
      as [x Hx].
    rewrite Hn in Hx; [done | lia].
  - exfalso. unfold matches in Hmatch. rewrite Hpe in Hmatch.
    destruct (client_find_probe_is_Some cl q pr i t e Hi He Hmatch)
      as [x Hx].
    rewrite (proj1 (client_find_loop_None cl q pr _ _) E) in Hx; [done | lia].
Qed.

(** ** What [client_add] does to the state *)

Lemma list_alter_lookup {A} (f : A → A) (l : list A) i x :
  l !! i = Some x → alter f i l = <[i := f x]> l.
Proof.
  intros H. apply list_eq. intros j.
  rewrite list_lookup_alter, list_lookup_insert.
  pose proof (lookup_lt_Some _ _ _ H).
  destruct (decide (i = j)) as [->|].
  - rewrite H. simpl. by rewrite decide_True by (split; [done | lia]).
  - by rewrite decide_False by (intros [? ?]; done).
Qed.

Lemma rbtree_finddata_set_number t c n :
  rbtree_finddata client_ipaddr_cmp t (set_number c n)
  = rbtree_finddata client_ipaddr_cmp t c.
Proof. induction t as [|y t IH]; simpl; [done|]. by rewrite IH. Qed.

Lemma inserted_min_prefix cl t c :
  min_prefix (inserted cl t c) = min_prefix cl `min` prefix (ipaddr c).
Proof.
  simpl. case_match; rewrite ?Nat.ltb_lt, ?Nat.ltb_ge in *; lia.
Qed.

Lemma client_add_new_fresh st p cl slot c :
  lists st !! p = Some cl →
  trees cl !! prefix (ipaddr c) = Some slot →
  let t := match slot with Some t => t | None => rbtree_create end in
  let st1 := match slot with
             | Some _ => st
             | None => set_tree st p (prefix (ipaddr c)) rbtree_create
             end in
  rbtree_finddata client_ipaddr_cmp t c = None →
  tree_num_max st ≠ INT_MAX →
  client_add_new st1 p t c
  = Some (true, added_state st p cl t (set_number c (tree_num_max st))).
Proof.
  intros Hp Hslot t st1 Hfind Hmax. unfold client_add_new.
  pose proof (lookup_lt_Some _ _ _ Hp) as Hlen.
  assert (tree_num_max st1 = tree_num_max st) as Hm by by destruct slot.
  rewrite Hm, (proj2 (Z.eqb_neq _ _) Hmax).
  unfold rbtree_insert. rewrite rbtree_finddata_set_number, Hfind.
  do 2 f_equal. unfold added_state, set_tree, set_lists, set_tree_num,
    set_tree_num_max, inserted, set_trees, set_min_prefix.
  subst t st1. destruct slot as [t|]; simpl.
  - rewrite (list_alter_lookup _ _ _ _ Hp).
    erewrite list_alter_lookup; last by apply list_lookup_insert_eq.
    rewrite list_insert_insert_eq. simpl. by case_match.
  - rewrite (list_alter_lookup _ _ _ _ Hp).
    erewrite (list_alter_lookup _ (<[p:=_]> (lists st)));
      last by apply list_lookup_insert_eq.
    erewrite list_alter_lookup;
      last by rewrite list_insert_insert_eq; apply list_lookup_insert_eq.
    rewrite !list_insert_insert_eq. simpl.
    rewrite list_insert_insert_eq. by case_match.
Qed.
#[local] Arguments replicate : simpl never.

Lemma empty_list_trees cs i slot :
  trees (empty_list cs) !! i = Some slot → slot = None.
Proof. unfold empty_list. cbn [trees]. by intros [-> _]%lookup_replicate. Qed.

Lemma client_list_init_spec st cs :
  client_list_init st cs
  = (length (lists st), set_lists st (lists st ++ [empty_list cs])).
Proof. done. Qed.

(** Choosing the list leaves the number index alone; it either changes
    nothing or allocates one empty list, which is the list chosen. *)
Lemma client_add_clients_inv st h c p st1 :
  client_add_clients st h c = Some (p, st1) →
  tree_num st1 = tree_num st ∧ tree_num_max st1 = tree_num_max st ∧
  (st1 = st ∨
   ∃ cs, p = length (lists st) ∧ lists st1 = lists st ++ [empty_list cs]).
Proof.
  assert (∀ p st1, global_clients st = (p, st1) →
    tree_num st1 = tree_num st ∧ tree_num_max st1 = tree_num_max st ∧
    (st1 = st ∨
     ∃ cs, p = length (lists st) ∧ lists st1 = lists st ++ [empty_list cs]))
    as Hglobal.
  { intros p' st1'. unfold global_clients.
    destruct (root_clients st); intros [= <- <-]; [by auto|].
    split; [done|]. split; [done|]. right. by exists None. }
  unfold client_add_clients. destruct h as [p'|].
  { intros [= <- <-]. auto. }
  destruct (server c) as [sname|]; [|intros [= H]; by apply Hglobal].
  destruct (servers st !! sname) as [cs|]; [|done].
  destruct (listen cs); simpl; [|intros [= H]; by apply Hglobal].
  destruct (cs_clients cs); intros [= <- <-]; [by auto|].
  split; [done|]. split; [done|]. right. by exists (Some cs).
Qed.

(** A list that already holds a tree was not allocated by the call. *)
Lemma client_add_clients_found st h c p st1 cl i t :
  client_add_clients st h c = Some (p, st1) →
  lists st1 !! p = Some cl → trees cl !! i = Some (Some t) → st1 = st.
Proof.
  intros (_ & _ & [->|(cs & -> & Hl)])%client_add_clients_inv Hp Ht; [done|].
  rewrite Hl, list_lookup_middle in Hp by done.
  injection Hp as <-. by apply empty_list_trees in Ht.
Qed.

(** Choosing the list again gives the same list and changes nothing, as
    long as [root_clients] and the virtual servers are as the first
    choice left them. *)
Lemma client_add_clients_again st h c p st1 st2 :
  client_add_clients st h c = Some (p, st1) →
  root_clients st2 = root_clients st1 → servers st2 = servers st1 →
  client_add_clients st2 h c = Some (p, st2).
Proof.
  assert (∀ p st1, global_clients st = (p, st1) →
    root_clients st2 = root_clients st1 → global_clients st2 = (p, st2))
    as Hglobal.
  { intros p' st1'. unfold global_clients.
    destruct (root_clients st) eqn:E; intros [= <- <-]; simpl.
    - rewrite E. by intros ->.
    - by intros ->. }
  unfold client_add_clients. destruct h as [p'|].
  { by intros [= <- <-]. }
  destruct (server c) as [sname|].
  2:{ intros [= H] Hr _. by rewrite (Hglobal _ _ H Hr). }
  destruct (servers st !! sname) as [cs|] eqn:Hcs; [|done].
  destruct (listen cs) eqn:Hlisten; simpl.
  2:{ intros [= H] Hr ->.
      assert (servers st1 = servers st) as ->.
      { revert H. unfold global_clients.
        destruct (root_clients st); by intros [= <- <-]. }
      rewrite Hcs, Hlisten. simpl. by rewrite (Hglobal _ _ H Hr). }
  destruct (cs_clients cs) eqn:Hc; intros [= <- <-] _ ->; simpl.
  - by rewrite Hcs, Hlisten, Hc.
  - rewrite lookup_insert_eq. simpl. by rewrite Hlisten.
Qed.

(** The outcomes of [client_add]. *)
Lemma client_add_inv st h c b st' :
  client_add st h (Some c) = Some (b, st') →
  ∃ c1, wildcard_fixup c = Some c1 ∧
    ((client_add_clients st h c1 = None ∧ b = false ∧ st' = st) ∨
     ∃ p st1 cl slot,
       client_add_clients st h c1 = Some (p, st1) ∧
       lists st1 !! p = Some cl ∧
       trees cl !! prefix (ipaddr c1) = Some slot ∧
       ((∃ t old, slot = Some t ∧ st1 = st ∧
           rbtree_finddata client_ipaddr_cmp t c1 = Some old ∧
           b = complete_duplicate old c1 ∧ st' = st) ∨
        (rbtree_finddata client_ipaddr_cmp (default [] slot) c1 = None ∧
         b = true ∧ tree_num_max st1 ≠ INT_MAX ∧
         st' = added_state st1 p cl (default [] slot)
                 (set_number c1 (tree_num_max st1))))).
Proof.
  unfold client_add. destruct (wildcard_fixup c) as [c1|]; [|done]. simpl.
  intros H. exists c1. split; [done|].
  destruct (client_add_clients st h c1) as [[p st1]|] eqn:Hc.
  2:{ injection H as <- <-. by left. }
  right. destruct (lists st1 !! p) as [cl|] eqn:Hp; [|done]. simpl in H.
  destruct (trees cl !! prefix (ipaddr c1)) as [slot|] eqn:Hslot; [|done].
  simpl in H. exists p, st1, cl, slot. do 3 (split; [done|]).
  destruct (rbtree_finddata client_ipaddr_cmp (default [] slot) c1)
    as [old|] eqn:Hfind.
  - left. destruct slot as [t|]; [|done]. simpl in *. rewrite Hfind in H.
    pose proof (client_add_clients_found _ _ _ _ _ _ _ _ Hc Hp Hslot) as ->.
    exists t, old. do 3 (split; [done|]).
    destruct (complete_duplicate old c1); by injection H as <- <-.
  - right. split; [done|].
    assert (client_add_new
              (match slot with
               | Some _ => st1
               | None => set_tree st1 p (prefix (ipaddr c1)) rbtree_create
               end) p (default [] slot) c1 = Some (b, st')) as Hnew.
    { destruct slot as [t|]; simpl in *; [by rewrite Hfind in H | done]. }
    destruct (decide (tree_num_max st1 = INT_MAX)) as [Hmax|Hmax].
    { exfalso. revert Hnew. unfold client_add_new.
      replace (tree_num_max _) with (tree_num_max st1) by by destruct slot.
      by rewrite Hmax. }
    pose proof (client_add_new_fresh st1 p cl slot c1 Hp Hslot) as Hfresh.
    simpl in Hfresh.
    replace (match slot with Some t => t | None => rbtree_create end)
      with (default [] slot) in Hfresh by by destruct slot.
    rewrite (Hfresh Hfind Hmax) in Hnew. by injection Hnew as <- <-.
Qed.

(** The outcomes of [client_add], the other way round. *)
Lemma client_add_found st h c c1 p st1 cl t old :
  wildcard_fixup c = Some c1 →
  client_add_clients st h c1 = Some (p, st1) →
  lists st1 !! p = Some cl →
  trees cl !! prefix (ipaddr c1) = Some (Some t) →
  rbtree_finddata client_ipaddr_cmp t c1 = Some old →
  client_add st h (Some c) = Some (complete_duplicate old c1, st).
Proof.
  intros Hfix Hc Hp Hslot Hfind.
  pose proof (client_add_clients_found _ _ _ _ _ _ _ _ Hc Hp Hslot) as ->.
  unfold client_add. rewrite Hfix. simpl. rewrite Hc, Hp. simpl.
  rewrite Hslot. simpl. rewrite Hfind. by destruct (complete_duplicate old c1).
Qed.

Lemma client_add_fresh st h c c1 p st1 cl slot :
  wildcard_fixup c = Some c1 →
  client_add_clients st h c1 = Some (p, st1) →
  lists st1 !! p = Some cl →
  trees cl !! prefix (ipaddr c1) = Some slot →
  rbtree_finddata client_ipaddr_cmp (default [] slot) c1 = None →
  tree_num_max st1 ≠ INT_MAX →
  client_add st h (Some c)
  = Some (true, added_state st1 p cl (default [] slot)
                  (set_number c1 (tree_num_max st1))).
Proof.
  intros Hfix Hc Hp Hslot Hfind Hmax.
  unfold client_add. rewrite Hfix. simpl. rewrite Hc, Hp. simpl.
  rewrite Hslot. simpl.
  pose proof (client_add_new_fresh st1 p cl slot c1 Hp Hslot) as Hfresh.
  simpl in Hfresh.
  replace (match slot with Some t => t | None => rbtree_create end)
    with (default [] slot) in Hfresh by by destruct slot.
  specialize (Hfresh Hfind Hmax).
  destruct slot as [t|]; simpl in *; [by rewrite Hfind | done].
Qed.

(** ** The invariant is kept *)

Lemma distinct_keys_snoc t c :
  distinct_keys t → rbtree_finddata client_ipaddr_cmp t c = None →
  distinct_keys (t ++ [c]).
Proof.
  apply distinct_by_snoc;
    [apply client_ipaddr_cmp_refl | apply client_ipaddr_cmp_sym].
Qed.

Lemma list_wf_empty cs : list_wf (empty_list cs).
Proof.
  split.
  - apply length_replicate.
  - by intros i t ?%empty_list_trees.
  - by intros i t e ?%empty_list_trees.
  - by intros i t ?%empty_list_trees.
Qed.

Lemma list_wf_slot cl i slot :
  list_wf cl → trees cl !! i = Some slot → distinct_keys (default [] slot) ∧
  ∀ e, e ∈ default [] slot → prefix (ipaddr e) = i.
Proof.
  intros Hwf Hi. destruct slot as [t|]; simpl.
  - split; [by eapply wf_distinct | intros e; by eapply wf_prefix].
  - split; [apply distinct_by_nil|]. intros e He.
    by apply not_elem_of_nil in He.
Qed.

Lemma list_wf_inserted cl slot c :
  list_wf cl → trees cl !! prefix (ipaddr c) = Some slot →
  rbtree_finddata client_ipaddr_cmp (default [] slot) c = None →
  list_wf (inserted cl (default [] slot) c).
Proof.
  intros Hwf Hslot Hfind.
  pose proof (lookup_lt_Some _ _ _ Hslot) as Hlt.
  destruct (list_wf_slot _ _ _ Hwf Hslot) as [Hd Hp].
  split.
  - cbn [inserted trees]. rewrite length_insert. by apply wf_length.
  - intros i t. rewrite inserted_min_prefix. cbn [inserted trees].
    rewrite list_lookup_insert. case_decide as Hi.
    + destruct Hi as [-> _]. lia.
    + intros Ht. pose proof (wf_watermark _ Hwf _ _ Ht). lia.
  - intros i t e. cbn [inserted trees].
    rewrite list_lookup_insert. case_decide as Hi.
    + destruct Hi as [<- _]. intros [= <-].
      intros [He| ->%list_elem_of_singleton]%elem_of_app; auto.
    + intros Ht. by eapply wf_prefix.
  - intros i t. cbn [inserted trees].
    rewrite list_lookup_insert. case_decide as Hi.
    + intros [= <-]. by apply distinct_keys_snoc.
    + intros Ht. by eapply wf_distinct.
Qed.

Lemma num_inserted_elem num c e :
  e ∈ num_inserted num c → e = c ∨ ∃ t, num = Some t ∧ e ∈ t.
Proof.
  unfold num_inserted, rbtree_insert.
  destruct num as [t|]; simpl.
  - destruct (rbtree_finddata client_num_cmp t c).
    + intros. right. eauto.
    + intros [He| ->%list_elem_of_singleton]%elem_of_app; [right|left]; eauto.
  - intros ->%list_elem_of_singleton. by left.
Qed.

Lemma num_inserted_distinct num c :
  (∀ t, num = Some t → distinct_by client_num_cmp t) →
  distinct_by client_num_cmp (num_inserted num c).
Proof.
  intros Hd. unfold num_inserted, rbtree_insert.
  assert (distinct_by client_num_cmp (default rbtree_create num)) as Ht.
  { destruct num as [t|]; simpl; [by apply Hd | apply distinct_by_nil]. }
  replace (match num with Some t => t | None => rbtree_create end)
    with (default rbtree_create num) by by destruct num.
  destruct (rbtree_finddata client_num_cmp (default rbtree_create num) c)
    eqn:E; [done|].
  apply distinct_by_snoc; try done.
  - intros a. by apply client_num_cmp_eq.
  - intros a b. rewrite !client_num_cmp_eq. done.
Qed.

Lemma state_wf_added st p cl slot c :
  state_wf st → lists st !! p = Some cl →
  trees cl !! prefix (ipaddr c) = Some slot →
  rbtree_finddata client_ipaddr_cmp (default [] slot) c = None →
  number c = tree_num_max st →
  state_wf (added_state st p cl (default [] slot) c).
Proof.
  intros Hwf Hp Hslot Hfind Hnum. split.
  - intros q cl'. cbn [added_state lists].
    rewrite list_lookup_insert. case_decide as Hq.
    + intros [= <-]. eapply list_wf_inserted; eauto. by eapply wf_lists.
    + by apply wf_lists.
  - intros t e [= <-]. cbn [added_state tree_num_max].
    pose proof (wf_num_max _ Hwf).
    intros [->|(t & Ht & He)]%num_inserted_elem; [lia|].
    pose proof (wf_num _ Hwf _ _ Ht He). lia.
  - intros t [= <-]. apply num_inserted_distinct, Hwf.
  - cbn [added_state tree_num_max]. pose proof (wf_num_max _ Hwf). lia.
Qed.

Lemma client_add_clients_wf st h c p st1 :
  state_wf st → client_add_clients st h c = Some (p, st1) → state_wf st1.
Proof.
  intros Hwf (Hn & Hm & [->|(cs & -> & Hl)])%client_add_clients_inv; [done|].
  split.
  - intros q cl. rewrite Hl.
    intros [?|[_ ?]]%lookup_app_Some; [by eapply wf_lists|].
    destruct (q - length (lists st)); [|done].
    simplify_eq/=. apply list_wf_empty.
  - rewrite Hn, Hm. apply Hwf.
  - rewrite Hn. apply Hwf.
  - rewrite Hm. apply Hwf.
Qed.

Lemma client_add_wf st h c b st' :
  state_wf st → client_add st h (Some c) = Some (b, st') → state_wf st'.
Proof.
  intros Hwf (c1 & _ & [(_ & _ & ->)|(p & st1 & cl & slot & Hc & Hp & Hs & H)])
    %client_add_inv; [done|].
  destruct H as [(t & old & _ & _ & _ & _ & ->)|(Hfind & _ & _ & ->)]; [done|].
  apply state_wf_added; try done.
  - by eapply client_add_clients_wf.
  - by rewrite rbtree_finddata_set_number.
Qed.

Lemma client_list_init_wf st cs :
  state_wf st → state_wf (snd (client_list_init st cs)).
Proof.
  intros Hwf. split; try apply Hwf.
  intros q cl. simpl. intros [?|[_ ?]]%lookup_app_Some; [by eapply wf_lists|].
  destruct (q - length (lists st)); [|done]. simplify_eq/=.
  apply (list_wf_empty cs).
Qed.

(** What [client_delete] does to a state: the entry with the client's
    number leaves the index, the entry with its key leaves its tree. *)
Lemma client_delete_inv st h c st' :
  client_delete st h (Some c) = Some st' →
  prefix (ipaddr c) ≤ 128 ∧
  ∃ p cl slot,
    match h with Some p => Some p | None => root_clients st end = Some p ∧
    lists st !! p = Some cl ∧
    trees cl !! prefix (ipaddr c) = Some slot ∧
    st' = {| lists :=
               match slot with
               | Some t =>
                   <[p := set_trees cl
                            (<[prefix (ipaddr c) :=
                                 Some (rbtree_deletebydata client_ipaddr_cmp
                                         t c)]> (trees cl))]> (lists st)
               | None => lists st
               end;
             root_clients := root_clients st;
             tree_num :=
               (λ t, rbtree_deletebydata client_num_cmp t c) <$> tree_num st;
             tree_num_max := tree_num_max st;
             servers := servers st |}.
Proof.
  unfold client_delete.
  destruct (Nat.ltb_spec 128 (prefix (ipaddr c))) as [|Hle]; [done|].
  split; [done|].
  destruct (match h with Some p => Some p | None => root_clients st end)
    as [p|]; [|done]. simpl in H.
  destruct (lists st !! p) as [cl|] eqn:Hp; [|done]. simpl in H.
  destruct (trees cl !! prefix (ipaddr c)) as [slot|] eqn:Hs; [|done].
  simpl in H. exists p, cl, slot. do 3 (split; [done|]).
  destruct slot as [t|]; injection H as <-; [|done].
  unfold set_tree, set_lists, set_tree_num. simpl.
  by rewrite (list_alter_lookup _ _ _ _ Hp).
Qed.

Lemma client_delete_wf st h c st' :
  state_wf st → client_delete st h (Some c) = Some st' → state_wf st'.
Proof.
  intros Hwf (Hle & p & cl & slot & _ & Hp & Hs & ->)%client_delete_inv.
  split; cbn [lists tree_num tree_num_max]; [| | |apply Hwf].
  - destruct slot as [t|]; [|apply Hwf].
    intros q cl'. rewrite list_lookup_insert. case_decide; [|apply Hwf].
    intros [= <-]. pose proof (wf_lists _ Hwf _ _ Hp) as Hcl. split.
    + cbn [set_trees trees]. rewrite length_insert. apply Hcl.
    + intros i t'. cbn [set_trees trees min_prefix].
      rewrite list_lookup_insert. case_decide as Hi.
      * destruct Hi as [<- _]. intros _. by eapply wf_watermark.
      * apply Hcl.
    + intros i t' e. cbn [set_trees trees].
      rewrite list_lookup_insert. case_decide as Hi.
      * destruct Hi as [<- _]. intros [= <-] He%rbtree_deletebydata_elem.
        by eapply wf_prefix.
      * apply Hcl.
    + intros i t'. cbn [set_trees trees].
      rewrite list_lookup_insert. case_decide as Hi.
      * destruct Hi as [<- _]. intros [= <-]. apply distinct_by_delete.
        by eapply wf_distinct.
      * apply Hcl.
  - intros t e. destruct (tree_num st) as [num|] eqn:Hnum; [|done].
    intros [= <-] He%rbtree_deletebydata_elem. by eapply wf_num.
  - intros t. destruct (tree_num st) as [num|] eqn:Hnum; [|done].
    intros [= <-]. apply distinct_by_delete. by eapply wf_num_distinct.
Qed.

Lemma initial_state_wf srv : state_wf (initial_state srv).
Proof. split; simpl; done. Qed.

Lemma step_wf st o st' : state_wf st → step st o = Some st' → state_wf st'.
Proof.
  intros Hwf. destruct o as [cs|h c|h c]; cbn [step].
  - intros [= <-]. by apply client_list_init_wf.
  - destruct (client_add st h (Some c)) as [[b st1]|] eqn:E; [|done].
    intros [= <-]. by eapply client_add_wf.
  - by apply client_delete_wf.
Qed.

Lemma run_wf ops : ∀ st st',
  state_wf st → run st ops = Some st' → state_wf st'.
Proof.
  induction ops as [|o ops IH]; simpl; intros st st' Hwf.
  - by intros [= <-].
  - destruct (step st o) as [st1|] eqn:E; [|done]. simpl.
    apply IH. by eapply step_wf.
Qed.

(** ** A worked configuration *)

Lemma example_st3_wf : state_wf Example.st3.
Proof.
  apply (run_wf Example.ops3 (initial_state Example.srv));
    [apply initial_state_wf | vm_compute; reflexivity].
Qed.

Lemma example_root3_wf : list_wf Example.root3.
Proof. apply (wf_lists _ example_st3_wf 0). vm_compute; reflexivity. Qed.

(** The stored entries are the entries of the trees. *)
Lemma stored_entries cl e : stored cl e ↔ e ∈ entries cl.
Proof.
  unfold stored, entries. rewrite list_elem_of_join. split.
  - intros (i & t & Hi & He). exists t. split; [done|].
    apply list_elem_of_omap. exists (Some t).
    split; [by eapply list_elem_of_lookup_2 | done].
  - intros (t & He & (o & Ho & Hid)%list_elem_of_omap).
    simpl in Hid. subst o. apply list_elem_of_lookup_1 in Ho as [i Hi]. eauto.
Qed.

Lemma matches_key_matches q pr e : matches q pr e ↔ key_matches q pr e.
Proof. unfold matches, key_matches, compatible. by rewrite client_ipaddr_cmp_eq. Qed.

Lemma covers_key_matches q pr e :
  canonical (ipaddr e) → covers q pr e ↔ key_matches q pr e.
Proof. unfold canonical, covers, key_matches. by intros ->. Qed.

Lemma client_find_max_prefix_width q :
  af q = AF_INET ∨ af q = AF_INET6 →
  client_find_max_prefix q = Some (prefix q `min` family_width (af q)).
Proof.
  unfold client_find_max_prefix, family_width.
  intros [-> | ->]; simpl; f_equal; case_match;
    rewrite ?Nat.ltb_lt, ?Nat.ltb_ge in *; lia.
Qed.

(** C1 — Longest-prefix match. For a query address [q] of a supported
    family with transport [pr], the scan of [client_find] starts at the
    bit width of the family (32 for IPv4, 128 for IPv6), clamped to the
    query's own prefix length when that is shorter, and goes down to the
    watermark. On a well-formed client list (the invariant of every list
    the registry builds), if some stored entry of prefix length within
    the scan matches the query (the query address masked to the entry's
    prefix length is the entry's address as stored, and the transports
    are compatible), [client_find] returns a stored entry that matches,
    whose prefix length is within the scan and at least that of every
    matching entry within the scan. When no stored address has a bit set
    beyond its prefix length, the same holds with the entry's masked
    address in place of the stored one. For a query that carries a full
    prefix length, a matching entry of full width outranks a matching /0
    entry: the result has full width and is not the /0 entry. *)
Theorem client_find_longest_prefix_match st h cl q pr :
  list_of st h = Some cl → list_wf cl →
  af q = AF_INET ∨ af q = AF_INET6 →
  let m := prefix q `min` family_width (af q) in
  client_find_max_prefix q = Some m ∧
  (∀ e, stored cl e → key_matches q pr e → prefix (ipaddr e) ≤ m →
     ∃ r, client_find st h (Some q) pr = Some r ∧
          stored cl r ∧ key_matches q pr r ∧
          min_prefix cl ≤ prefix (ipaddr r) ≤ m ∧
          ∀ e', stored cl e' → key_matches q pr e' →
                prefix (ipaddr e') ≤ m →
                prefix (ipaddr e') ≤ prefix (ipaddr r)) ∧
  ((∀ e, stored cl e → canonical (ipaddr e)) →
   ∀ e, stored cl e → covers q pr e → prefix (ipaddr e) ≤ m →
     ∃ r, client_find st h (Some q) pr = Some r ∧
          stored cl r ∧ covers q pr r ∧
          min_prefix cl ≤ prefix (ipaddr r) ≤ m ∧
          ∀ e', stored cl e' → covers q pr e' →
                prefix (ipaddr e') ≤ m →
                prefix (ipaddr e') ≤ prefix (ipaddr r)) ∧
  (∀ e0 e, family_width (af q) ≤ prefix q →
     stored cl e0 → key_matches q pr e0 → prefix (ipaddr e0) = 0 →
     stored cl e → key_matches q pr e →
     prefix (ipaddr e) = family_width (af q) →
     ∃ r, client_find st h (Some q) pr = Some r ∧
          prefix (ipaddr r) = family_width (af q) ∧ r ≠ e0).
Proof.
  intros Hl Hwf Haf m.
  pose proof (client_find_max_prefix_width q Haf) as Hm. fold m in Hm.
  assert (∀ e, stored cl e → key_matches q pr e → prefix (ipaddr e) ≤ m →
     ∃ r, client_find st h (Some q) pr = Some r ∧
          stored cl r ∧ key_matches q pr r ∧
          min_prefix cl ≤ prefix (ipaddr r) ≤ m ∧
          ∀ e', stored cl e' → key_matches q pr e' →
                prefix (ipaddr e') ≤ m →
                prefix (ipaddr e') ≤ prefix (ipaddr r)) as Hlpm.
  { intros e He Hk%matches_key_matches Hle.
    destruct (client_find_lpm st h cl q pr m e Hl Hwf Hm He Hk Hle)
      as (r & Hr & Hs & Hmr%matches_key_matches & Hrange & Hmax).
    exists r. do 4 (split; [done|]).
    intros e' He' Hk'%matches_key_matches. by apply Hmax. }
  split; [done|]. split; [done|]. split.
  - intros Hcan e He Hc%(covers_key_matches _ _ _ (Hcan e He)) Hle.
    destruct (Hlpm e He Hc Hle) as (r & Hr & Hs & Hk & Hrange & Hmax).
    exists r. split; [done|]. split; [done|].
    split; [by apply (covers_key_matches _ _ _ (Hcan r Hs))|].
    split; [done|].
    intros e' He' Hc'%(covers_key_matches _ _ _ (Hcan e' He')).
    by apply Hmax.
  - intros e0 e Hfull He0 Hk0 Hp0 He Hk Hp.
    assert (m = family_width (af q)) as Hmw by (unfold m; lia).
    destruct (Hlpm e He Hk ltac:(lia)) as (r & Hr & _ & _ & Hrange & Hmax).
    pose proof (Hmax e He Hk ltac:(lia)) as Hge.
    exists r. split; [done|].
    assert (prefix (ipaddr r) = family_width (af q)) as Hw by lia.
    split; [done|]. intros ->.
    rewrite Hp0 in Hw. unfold family_width in Hw. by case_match.
Qed.

Lemma client_find_longest_prefix_match_witness :
  client_find_max_prefix (Example.ip4 10 1 2 3 32) = Some 32 ∧
  (∃ r, client_find Example.st3 None (Some (Example.ip4 10 1 2 3 32))
          IPPROTO_UDP = Some r ∧
        stored Example.root3 r ∧
        key_matches (Example.ip4 10 1 2 3 32) IPPROTO_UDP r ∧
        min_prefix Example.root3 ≤ prefix (ipaddr r) ≤ 32 ∧
        ∀ e', stored Example.root3 e' →
              key_matches (Example.ip4 10 1 2 3 32) IPPROTO_UDP e' →
              prefix (ipaddr e') ≤ 32 →
              prefix (ipaddr e') ≤ prefix (ipaddr r)) ∧
  (∃ r, client_find Example.st3 None (Some (Example.ip4 10 1 2 3 32))
          IPPROTO_UDP = Some r ∧
        stored Example.root3 r ∧
        covers (Example.ip4 10 1 2 3 32) IPPROTO_UDP r ∧
        min_prefix Example.root3 ≤ prefix (ipaddr r) ≤ 32 ∧
        ∀ e', stored Example.root3 e' →
              covers (Example.ip4 10 1 2 3 32) IPPROTO_UDP e' →
              prefix (ipaddr e') ≤ 32 →
              prefix (ipaddr e') ≤ prefix (ipaddr r)).
Proof.
  destruct (client_find_longest_prefix_match Example.st3 None Example.root3
              (Example.ip4 10 1 2 3 32) IPPROTO_UDP)
    as (Hm & Hlpm & Hcov & _).
  - vm_compute; reflexivity.
  - exact example_root3_wf.
  - left. reflexivity.
  - split; [exact Hm|]. split.
    + apply (Hlpm Example.net8').
      * exists 8, [Example.net8']. split; [vm_compute; reflexivity | left].
      * split; [vm_compute; reflexivity | right; right; reflexivity].
      * vm_compute. lia.
    + assert (∀ e, stored Example.root3 e → canonical (ipaddr e)) as Hcan.
      { intros e He%stored_entries. vm_compute in He.
        repeat (apply elem_of_cons in He as [->|He];
                [vm_compute; reflexivity|]).
        by apply not_elem_of_nil in He. }
      apply (Hcov Hcan Example.net8').
      * exists 8, [Example.net8']. split; [vm_compute; reflexivity | left].
      * split; [vm_compute; reflexivity | right; right; reflexivity].
      * vm_compute. lia.
Defined.

(** C4 — Transport wildcard equality. For two clients whose address keys
    (family, masked address, prefix length) are equal, [client_ipaddr_cmp]
    yields 0 exactly when one of the transports is the wildcard
    [IPPROTO_IP] or the two transports are the same. Consequently, on a
    well-formed list, a stored wildcard-transport client whose key is the
    query address at the prefix length the scan starts with is what
    [client_find] returns under every transport; and a client returned for
    a concrete transport never has a different concrete transport. *)
Theorem client_ipaddr_cmp_transport_wildcard :
  (∀ a b, fr_ipaddr_cmp (ipaddr a) (ipaddr b) = 0%Z →
     (client_ipaddr_cmp a b = 0%Z ↔
      proto a = IPPROTO_IP ∨ proto b = IPPROTO_IP ∨ proto a = proto b)) ∧
  (∀ st h cl q w pr,
     list_of st h = Some cl → list_wf cl →
     client_find_max_prefix q = Some (prefix (ipaddr w)) →
     stored cl w → fr_ipaddr_mask q (prefix (ipaddr w)) = ipaddr w →
     proto w = IPPROTO_IP →
     client_find st h (Some q) pr = Some w) ∧
  (∀ st h q pr r,
     client_find st h (Some q) pr = Some r →
     pr ≠ IPPROTO_IP → proto r ≠ IPPROTO_IP → proto r = pr).
Proof.
  split; [|split].
  - intros a b Hk%fr_ipaddr_cmp_eq. rewrite client_ipaddr_cmp_eq. tauto.
  - intros st h cl q w pr Hl Hwf Hm Hw Hmask Hproto.
    assert (matches q pr w) as Hmatch.
    { apply client_ipaddr_cmp_eq. simpl. auto. }
    destruct (client_find_lpm st h cl q pr _ w Hl Hwf Hm Hw Hmatch)
      as (r & Hr & (i & t & Hi & Hrt) & Hmr & Hrange & Hmax); [done|].
    specialize (Hmax w Hw Hmatch (le_n _)).
    assert (prefix (ipaddr r) = prefix (ipaddr w)) as Hpr by lia.
    destruct Hw as (j & t' & Hj & Hwt).
    pose proof (wf_prefix _ Hwf _ _ _ Hi Hrt) as Hri.
    pose proof (wf_prefix _ Hwf _ _ _ Hj Hwt) as Hwj.
    assert (j = i) as -> by lia. rewrite Hi in Hj. injection Hj as <-.
    rewrite Hr. f_equal.
    apply (proj2 (wf_distinct _ Hwf _ _ Hi)); [done..|].
    apply client_ipaddr_cmp_eq. split; [|by right; left].
    apply client_ipaddr_cmp_eq in Hmr as [Hmr _]. simpl in Hmr.
    by rewrite <- Hmr, Hpr.
  - intros st h q pr r Hfind Hpr Hr. unfold client_find in Hfind.
    destruct (match h with Some p => Some p | None => root_clients st end)
      as [p|]; [|done].
    destruct (lists st !! p) as [cl|]; [|done]. simpl in Hfind.
    destruct (client_find_max_prefix q) as [m|]; [|done]. simpl in Hfind.
    apply client_find_loop_Some in Hfind as (i & _ & Hp & _).
    apply client_find_probe_Some in Hp as (t & _ & _ & Hc).
    apply client_ipaddr_cmp_eq in Hc as [_ [?|[?|?]]]; done.
Qed.

Lemma client_ipaddr_cmp_transport_wildcard_witness :
  (client_ipaddr_cmp Example.dual' Example.dual' = 0%Z ↔
   proto Example.dual' = IPPROTO_IP ∨ proto Example.dual' = IPPROTO_IP ∨
   proto Example.dual' = proto Example.dual') ∧
  client_find Example.st3 None (Some (Example.ip4 203 0 113 5 32))
    IPPROTO_TCP = Some Example.dual' ∧
  proto Example.host' = IPPROTO_UDP.
Proof.
  destruct client_ipaddr_cmp_transport_wildcard as (Hcmp & Hwild & Hconc).
  split; [|split].
  - apply Hcmp. vm_compute; reflexivity.
  - apply (Hwild Example.st3 None Example.root3).
    + vm_compute; reflexivity.
    + exact example_root3_wf.
    + vm_compute; reflexivity.
    + exists 32, [Example.host'; Example.dual'].
      split; [vm_compute; reflexivity | right; left].
    + vm_compute; reflexivity.
    + vm_compute; reflexivity.
  - apply (Hconc Example.st3 None (Example.ip4 10 1 2 3 32)).
    + vm_compute; reflexivity.
    + discriminate.
    + discriminate.
Defined.
Lemma fr_ipaddr_mask_supported a p :
  af a = AF_INET ∨ af a = AF_INET6 →
  af (fr_ipaddr_mask a p) = af a ∧ prefix (fr_ipaddr_mask a p) = p.
Proof.
  unfold fr_ipaddr_mask. intros [H|H]; rewrite H; simpl; done.
Qed.

(** C9 — Provisioning boundary. A client built from a live request, of a
    supported address family, is refused with the matching error when its
    family differs from that of the network that accepted the request,
    when its prefix length is smaller than the network's, or when its
    address masked to the network's prefix length is not the network's
    address; it is returned exactly when the three checks pass, and then
    it is the client that was built. A failure of the builder itself is
    passed on. *)
Theorem client_afrom_request_boundary network c :
  af (ipaddr c) = AF_INET ∨ af (ipaddr c) = AF_INET6 →
  (af network ≠ af (ipaddr c) →
     client_afrom_request network (Some c) = inl IPVersionMismatch) ∧
  (af network = af (ipaddr c) → prefix (ipaddr c) < prefix network →
     client_afrom_request network (Some c) = inl NotWithinPrefix) ∧
  (af network = af (ipaddr c) → prefix network ≤ prefix (ipaddr c) →
   addr (fr_ipaddr_mask (ipaddr c) (prefix network)) ≠ addr network →
     client_afrom_request network (Some c) = inl NotWithinNetwork) ∧
  (∀ r, client_afrom_request network (Some c) = inr r ↔
     r = c ∧ af network = af (ipaddr c) ∧
     prefix network ≤ prefix (ipaddr c) ∧
     addr (fr_ipaddr_mask (ipaddr c) (prefix network)) = addr network) ∧
  client_afrom_request network None = inl BuilderFailed.
Proof.
  intros Haf.
  destruct (fr_ipaddr_mask_supported (ipaddr c) (prefix network) Haf)
    as [Hmaf Hmp].
  assert (af network = af (ipaddr c) →
          (fr_ipaddr_cmp (fr_ipaddr_mask (ipaddr c) (prefix network)) network
           = 0%Z ↔
           addr (fr_ipaddr_mask (ipaddr c) (prefix network)) = addr network))
    as Hcmp.
  { intros Hn. rewrite fr_ipaddr_cmp_eq. split; [by intros ->|].
    destruct (fr_ipaddr_mask (ipaddr c) (prefix network)), network.
    simpl in *. congruence. }
  unfold client_afrom_request.
  destruct (Z.eqb_spec (af network) (af (ipaddr c))) as [Hn|Hn]; simpl.
  2:{ split; [done|]. split; [done|]. split; [done|]. split; [|done].
      intros r. split; [done | tauto]. }
  destruct (Nat.ltb_spec (prefix (ipaddr c)) (prefix network)) as [Hp|Hp].
  { split; [done|]. split; [done|]. split; [lia|]. split; [|done].
    intros r. split; [done | lia]. }
  specialize (Hcmp Hn).
  destruct (Z.eqb_spec
              (fr_ipaddr_cmp (fr_ipaddr_mask (ipaddr c) (prefix network))
                 network) 0) as [Hc|Hc]; simpl.
  - apply Hcmp in Hc. split; [done|]. split; [lia|]. split; [done|].
    split; [|done]. intros r. split; [by intros [= <-] | by intros [-> _]].
  - split; [done|]. split; [lia|]. split; [done|]. split; [|done].
    intros r. split; [done|]. intros (_ & _ & _ & Ha). by apply Hcmp in Ha.
Qed.

Lemma client_afrom_request_boundary_witness :
  client_afrom_request (Example.ip4 10 1 0 0 16) (Some Example.net8)
  = inl NotWithinPrefix ∧
  client_afrom_request (Example.ip4 10 0 0 0 8) (Some Example.host)
  = inr Example.host.
Proof.
  split.
  - apply (client_afrom_request_boundary (Example.ip4 10 1 0 0 16)
             Example.net8).
    + left. vm_compute; reflexivity.
    + vm_compute; reflexivity.
    + simpl. lia.
  - apply (client_afrom_request_boundary (Example.ip4 10 0 0 0 8)
             Example.host).
    + left. vm_compute; reflexivity.
    + split; [vm_compute; reflexivity|]. split; [vm_compute; reflexivity|].
      split; [simpl; lia | vm_compute; reflexivity].
Defined.

(** ** Duplicates and conflicts *)

Lemma namecmp_refl a : namecmp a a = true.
Proof. destruct a; simpl; [by apply bool_decide_eq_true | done]. Qed.

Lemma namecmp_eq a b : namecmp a b = true ↔ a = b.
Proof.
  destruct a, b; simpl; try (split; done).
  rewrite bool_decide_eq_true. split; [by intros -> | by intros [= ->]].
Qed.

Lemma complete_duplicate_eq old c :
  complete_duplicate old c = true ↔
  ipaddr old = ipaddr c ∧ longname old = longname c ∧
  secret old = secret c ∧ shortname old = shortname c ∧
  nas_type old = nas_type c ∧ server old = server c ∧
  message_authenticator old = message_authenticator c.
Proof.
  unfold complete_duplicate.
  rewrite !andb_true_iff, !namecmp_eq, bool_decide_eq_true, Z.eqb_eq,
    fr_ipaddr_cmp_eq, Nat.eqb_eq.
  split; [tauto|]. intros (-> & ?). tauto.
Qed.

Lemma complete_duplicate_set_number c n :
  complete_duplicate (set_number c n) c = true.
Proof. by apply complete_duplicate_eq. Qed.

(** On a tree without equal keys, a probe with a concrete transport, or
    for an entry of wildcard transport, finds the one entry of its key. *)
Lemma rbtree_finddata_distinct t c old :
  distinct_keys t → old ∈ t → client_ipaddr_cmp c old = 0%Z →
  proto c ≠ IPPROTO_IP ∨ proto old = IPPROTO_IP →
  rbtree_finddata client_ipaddr_cmp t c = Some old.
Proof.
  intros [_ Hd] Hold Hc Hp.
  destruct (rbtree_finddata_is_Some _ _ _ _ Hold Hc) as [y Hy].
  rewrite Hy. f_equal. apply rbtree_finddata_Some in Hy as [Hyt Hyc].
  apply Hd; try done.
  apply client_ipaddr_cmp_eq in Hc as [Hi Hpc], Hyc as [Hj Hpy].
  apply client_ipaddr_cmp_eq. split; [congruence|].
  unfold IPPROTO_IP in *. lia.
Qed.

Lemma filter_unique {A} (P : A → Prop) `{∀ x, Decision (P x)} (l : list A) x :
  NoDup l → x ∈ l → P x → (∀ y, y ∈ l → P y → y = x) → filter P l = [x].
Proof.
  induction 1 as [|y l Hy Hl IH]; [by intros ?%not_elem_of_nil|].
  intros Hx HP Hu. rewrite filter_cons.
  destruct (decide (P y)) as [HPy|HPy].
  - assert (y = x) as -> by (apply Hu; [left | done]). f_equal.
    destruct (filter P l) as [|z l'] eqn:E; [done|]. exfalso.
    assert (z ∈ filter P l) as [HPz Hz]%list_elem_of_filter
      by (rewrite E; left).
    assert (z = x) as -> by (apply Hu; [by right | done]). done.
  - apply IH; try done.
    + apply elem_of_cons in Hx as [->|?]; done.
    + intros z Hz. apply Hu. by right.
Qed.

Lemma entries_for_distinct t old :
  distinct_keys t → old ∈ t → entries_for t old = [old].
Proof.
  intros [Hnd Hd] Hold. apply filter_unique; try done.
  - apply client_ipaddr_cmp_refl.
  - intros y Hy Hc. symmetry. by apply Hd.
Qed.

(** After a successful [client_add] the list chosen for the client holds,
    in the tree of the client's prefix length, an entry that the probe
    finds and that is a complete duplicate of the client. *)
Lemma client_add_true_stored st h c st1 :
  client_add st h (Some c) = Some (true, st1) →
  ∃ c1 p cl t old,
    wildcard_fixup c = Some c1 ∧
    client_add_clients st1 h c1 = Some (p, st1) ∧
    lists st1 !! p = Some cl ∧
    trees cl !! prefix (ipaddr c1) = Some (Some t) ∧
    rbtree_finddata client_ipaddr_cmp t c1 = Some old ∧
    complete_duplicate old c1 = true.
Proof.
  intros (c1 & Hfix & [(_ & ? & _)|(p & st0 & cl & slot & Hc & Hp & Hs & H)])
    %client_add_inv; [done|].
  exists c1, p.
  destruct H as [(t & old & -> & -> & Hfind & Hdup & ->)
                |(Hfind & _ & Hmax & ->)].
  - exists cl, t, old. done.
  - set (c' := set_number c1 (tree_num_max st0)).
    exists (inserted cl (default [] slot) c'), (default [] slot ++ [c']), c'.
    split; [done|]. split; [by eapply client_add_clients_again|].
    split; [cbn [added_state lists];
            by apply list_lookup_insert_eq, (lookup_lt_Some _ _ _ Hp)|].
    split; [cbn [inserted trees];
            by apply list_lookup_insert_eq, (lookup_lt_Some _ _ _ Hs)|].
    split; [|apply complete_duplicate_set_number].
    rewrite (rbtree_finddata_snoc _ _ _ _ Hfind). unfold c'.
    by rewrite client_ipaddr_cmp_set_number, client_ipaddr_cmp_refl.
Qed.

(** ** Equal keys, equal fields *)

Lemma same_key_cmp a b : client_ipaddr_cmp a b = 0%Z ↔ same_key a b.
Proof. unfold same_key, compatible. apply client_ipaddr_cmp_eq. Qed.

Lemma complete_duplicate_fields old c :
  complete_duplicate old c = true ↔ ipaddr old = ipaddr c ∧ same_fields old c.
Proof. unfold same_fields. apply complete_duplicate_eq. Qed.

(** A stored entry is in the tree of its own prefix length. *)
Lemma stored_in_tree cl e :
  list_wf cl → stored cl e →
  ∃ t, trees cl !! prefix (ipaddr e) = Some (Some t) ∧ e ∈ t.
Proof.
  intros Hwf (i & t & Hi & He).
  rewrite (wf_prefix _ Hwf _ _ _ Hi He). eauto.
Qed.

(** The search of [client_add] finds a stored entry of equal key when
    there is one. *)
Lemma stored_same_key_found cl c1 e :
  list_wf cl → stored cl e → same_key c1 e →
  ∃ t old, trees cl !! prefix (ipaddr c1) = Some (Some t) ∧
           rbtree_finddata client_ipaddr_cmp t c1 = Some old ∧
           stored cl old ∧ same_key c1 old.
Proof.
  intros Hwf He Hk. destruct (stored_in_tree _ _ Hwf He) as (t & Ht & Hin).
  destruct Hk as [Hip Hpr]. rewrite <- Hip in Ht.
  destruct (rbtree_finddata_is_Some client_ipaddr_cmp t c1 e Hin) as [old Ho].
  { by apply same_key_cmp. }
  exists t, old. split; [done|]. split; [done|].
  apply rbtree_finddata_Some in Ho as [Hold Hcmp].
  split; [by exists (prefix (ipaddr c1)), t | by apply same_key_cmp].
Qed.

(** A record of a concrete transport, or a stored wildcard entry: at
    most one stored entry has the key. *)
Lemma same_key_unique cl c1 e e' :
  list_wf cl → stored cl e → stored cl e' →
  same_key c1 e → same_key c1 e' →
  proto c1 ≠ IPPROTO_IP ∨ proto e = IPPROTO_IP → e' = e.
Proof.
  intros Hwf He He' [Hip Hpr] [Hip' Hpr'] Hone.
  destruct (stored_in_tree _ _ Hwf He) as (t & Ht & Hin).
  destruct (stored_in_tree _ _ Hwf He') as (t' & Ht' & Hin').
  rewrite <- Hip in Ht. rewrite <- Hip' in Ht'. rewrite Ht in Ht'.
  injection Ht' as <-.
  destruct (wf_distinct _ Hwf _ _ Ht) as [_ Hd].
  apply (Hd e' e Hin' Hin). apply same_key_cmp. split; [congruence|].
  unfold compatible in *. destruct Hone as [Hc|Hw]; [|by auto].
  destruct Hpr as [?|[?|?]], Hpr' as [?|[?|?]]; try done; auto.
  right. right. congruence.
Qed.

(** C2 — Conflict detection with atomicity, as the code has it.
    [client_add] searches the bucket of the new record's prefix length
    for a stored record of equal key (same address and prefix length,
    compatible transports) and judges the new record against the record
    the search returns: when that record differs from the new one in
    long name, secret, short name, NAS type, virtual server or
    message-authenticator flag, the insertion is refused and the state
    is unchanged. So, on a well-formed state, a record is refused
    whenever some stored record has its key and every stored record
    with its key differs from it in a field; and whenever a stored
    record with its key differs from it and the new record's transport
    is concrete, or that stored record's is the wildcard, since then no
    other stored record has the key. Every refused insertion leaves the
    whole state as it was, so each list holds what it held and every
    lookup, by address or by number, answers as before. *)
Theorem client_add_conflict_unchanged :
  (∀ st h c c1 p st1 cl t old,
     wildcard_fixup c = Some c1 →
     client_add_clients st h c1 = Some (p, st1) →
     lists st1 !! p = Some cl →
     trees cl !! prefix (ipaddr c1) = Some (Some t) →
     rbtree_finddata client_ipaddr_cmp t c1 = Some old →
     ¬ same_fields old c1 →
     stored cl old ∧ same_key c1 old ∧
     client_add st h (Some c) = Some (false, st)) ∧
  (∀ st h c c1 p st1 cl e,
     state_wf st → wildcard_fixup c = Some c1 →
     client_add_clients st h c1 = Some (p, st1) →
     lists st1 !! p = Some cl →
     stored cl e → same_key c1 e →
     (∀ e', stored cl e' → same_key c1 e' → ¬ same_fields e' c1) →
     client_add st h (Some c) = Some (false, st)) ∧
  (∀ st h c c1 p st1 cl e,
     state_wf st → wildcard_fixup c = Some c1 →
     client_add_clients st h c1 = Some (p, st1) →
     lists st1 !! p = Some cl →
     stored cl e → same_key c1 e → ¬ same_fields e c1 →
     proto c1 ≠ IPPROTO_IP ∨ proto e = IPPROTO_IP →
     client_add st h (Some c) = Some (false, st)) ∧
  (∀ st h c st',
     client_add st h c = Some (false, st') →
     st' = st ∧
     (∀ h' q pr, client_find st' h' q pr = client_find st h' q pr) ∧
     (∀ h' n, client_findbynumber st' h' n = client_findbynumber st h' n)).
Proof.
  assert (∀ st h c c1 p st1 cl t old,
     wildcard_fixup c = Some c1 →
     client_add_clients st h c1 = Some (p, st1) →
     lists st1 !! p = Some cl →
     trees cl !! prefix (ipaddr c1) = Some (Some t) →
     rbtree_finddata client_ipaddr_cmp t c1 = Some old →
     ¬ same_fields old c1 →
     client_add st h (Some c) = Some (false, st)) as Hsearch.
  { intros st h c c1 p st1 cl t old Hfix Hc Hp Hs Hfind Hdiff.
    rewrite (client_add_found _ _ _ _ _ _ _ _ _ Hfix Hc Hp Hs Hfind).
    destruct (complete_duplicate old c1) eqn:E; [|done].
    apply complete_duplicate_fields in E as [_ E]. done. }
  assert (∀ st h c c1 p st1 cl e,
     state_wf st → wildcard_fixup c = Some c1 →
     client_add_clients st h c1 = Some (p, st1) →
     lists st1 !! p = Some cl →
     stored cl e → same_key c1 e →
     (∀ e', stored cl e' → same_key c1 e' → ¬ same_fields e' c1) →
     client_add st h (Some c) = Some (false, st)) as Hall.
  { intros st h c c1 p st1 cl e Hwf Hfix Hc Hp He Hk Hdiff.
    pose proof (wf_lists _ (client_add_clients_wf _ _ _ _ _ Hwf Hc) _ _ Hp)
      as Hcl.
    destruct (stored_same_key_found _ _ _ Hcl He Hk)
      as (t & old & Ht & Hfind & Hold & Hko).
    eapply Hsearch; eauto. }
  split; [|split; [done|split]].
  - intros st h c c1 p st1 cl t old Hfix Hc Hp Hs Hfind Hdiff.
    apply rbtree_finddata_Some in Hfind as Hold. destruct Hold as [Hold Hcmp].
    split; [by exists (prefix (ipaddr c1)), t|].
    split; [by apply same_key_cmp|]. by eapply Hsearch.
  - intros st h c c1 p st1 cl e Hwf Hfix Hc Hp He Hk Hdiff Hone.
    pose proof (wf_lists _ (client_add_clients_wf _ _ _ _ _ Hwf Hc) _ _ Hp)
      as Hcl.
    eapply Hall; eauto.
    intros e' He' Hk'.
    by rewrite (same_key_unique _ _ _ _ Hcl He He' Hk Hk' Hone).
  - intros st h c st' Hadd. assert (st' = st) as ->; [|done].
    destruct c as [c|]; [|by injection Hadd as <-].
    apply client_add_inv in Hadd
      as (c1 & _ & [(_ & _ & ->)|(p & st1 & cl & slot & _ & _ & _ & H)]);
      [done|].
    by destruct H as [(t & old & _ & _ & _ & _ & ->)|(_ & ? & _)].
Qed.

Lemma client_add_conflict_unchanged_witness :
  let c := Example.client (Example.ip4 10 1 2 3 32) "host" "other"
             IPPROTO_UDP None in
  client_add Example.st3 None (Some c) = Some (false, Example.st3) ∧
  (∀ h' q pr,
     client_find Example.st3 h' q pr = client_find Example.st3 h' q pr).
Proof.
  intros c.
  destruct client_add_conflict_unchanged as (_ & _ & Hone & Hsame).
  assert (client_add Example.st3 None (Some c) = Some (false, Example.st3))
    as Hadd.
  { apply (Hone Example.st3 None c c 0 Example.st3 Example.root3
             Example.host' example_st3_wf).
    - vm_compute; reflexivity.
    - vm_compute; reflexivity.
    - vm_compute; reflexivity.
    - exists 32, [Example.host'; Example.dual'].
      split; [vm_compute; reflexivity | left].
    - split; [vm_compute; reflexivity | right; right; reflexivity].
    - intros (_ & Hsec & _). discriminate.
    - left. discriminate. }
  split; [exact Hadd|].
  apply (Hsame Example.st3 None (Some c) Example.st3 Hadd).
Defined.

(** C2, as stated, fails: the stored UDP record has the key of the new
    wildcard-transport record and another secret, yet the insertion is
    accepted, because the search returns the stored TCP record first,
    with which the new record agrees. With the two stored records
    inserted in the other order the same record is refused. *)
Lemma client_add_conflict_counterexample :
  state_wf ExampleC.st_pair ∧
  stored ExampleC.root_pair (set_number ExampleC.udp_su 1) ∧
  same_key ExampleC.wild_st (set_number ExampleC.udp_su 1) ∧
  secret (set_number ExampleC.udp_su 1) ≠ secret ExampleC.wild_st ∧
  client_add ExampleC.st_pair None (Some ExampleC.wild_st)
  = Some (true, ExampleC.st_pair) ∧
  client_add ExampleC.st_riap None (Some ExampleC.wild_st)
  = Some (false, ExampleC.st_riap).
Proof.
  split; [|split; [|split; [|split; [|split]]]].
  - apply (run_wf [OpAdd None ExampleC.tcp_st; OpAdd None ExampleC.udp_su]
             (initial_state Example.srv)).
    + apply initial_state_wf.
    + vm_compute; reflexivity.
  - exists 32, [set_number ExampleC.tcp_st 0; set_number ExampleC.udp_su 1].
    split; [vm_compute; reflexivity | right; left].
  - split; [vm_compute; reflexivity | left; reflexivity].
  - discriminate.
  - vm_compute; reflexivity.
  - vm_compute; reflexivity.
Qed.




(** ** The wildcard client *)

Lemma wildcard_fixup_full c :
  inaddr_any_full (ipaddr c) →
  wildcard_fixup c = Some (set_ipaddr_prefix c 0).
Proof.
  intros [Ha [[Hf Hp]|[Hf Hp]]]; unfold wildcard_fixup,
    fr_ipaddr_is_inaddr_any; rewrite Ha, Hf, Hp; done.
Qed.

Lemma wildcard_fixup_zero c :
  inaddr_any_full (ipaddr c) →
  wildcard_fixup (set_ipaddr_prefix c 0) = Some (set_ipaddr_prefix c 0).
Proof.
  intros [Ha [[Hf Hp]|[Hf Hp]]]; unfold wildcard_fixup,
    fr_ipaddr_is_inaddr_any; simpl; rewrite Ha, Hf; done.
Qed.

Lemma fr_ipaddr_mask_zero q a :
  inaddr_any_full a → af q = af a → fr_ipaddr_mask q 0 = set_prefix a 0.
Proof.
  intros [Ha [[Hf Hp]|[Hf Hp]]] Hq; unfold fr_ipaddr_mask, set_prefix;
    rewrite Hq, Hf, Ha; done.
Qed.

(** C5 — Wildcard normalization. A client whose address bytes are all
    zero and whose prefix length is the full width of its family (32 for
    IPv4, 128 for IPv6) is fixed up to prefix length 0, and adding it is
    the same, result and state, as adding the /0 client. When the record
    is stored (the counter of numbers moves), it is held with prefix
    length 0, the watermark of its list is 0, and every query address of
    that family that no stored entry of a longer prefix matches resolves
    to it, for the client's own transport, or for any transport when the
    client's transport is the wildcard. *)
Theorem client_add_wildcard_normalization :
  (∀ st h c,
     inaddr_any_full (ipaddr c) →
     wildcard_fixup c = Some (set_ipaddr_prefix c 0) ∧
     client_add st h (Some c)
     = client_add st h (Some (set_ipaddr_prefix c 0))) ∧
  (∀ st h c st' p st1 cl' q pr m,
     state_wf st → inaddr_any_full (ipaddr c) →
     client_add st h (Some c) = Some (true, st') →
     tree_num_max st' ≠ tree_num_max st →
     client_add_clients st h (set_ipaddr_prefix c 0) = Some (p, st1) →
     lists st' !! p = Some cl' →
     af q = af (ipaddr c) → client_find_max_prefix q = Some m →
     pr = proto c ∨ proto c = IPPROTO_IP →
     (∀ e, stored cl' e → 0 < prefix (ipaddr e) → ¬ matches q pr e) →
     let c' := set_number (set_ipaddr_prefix c 0) (tree_num_max st) in
     stored cl' c' ∧ prefix (ipaddr c') = 0 ∧ min_prefix cl' = 0 ∧
     client_find st' (Some p) (Some q) pr = Some c').
Proof.
  split.
  - intros st h c Hany. split; [by apply wildcard_fixup_full|].
    unfold client_add.
    by rewrite (wildcard_fixup_full _ Hany), (wildcard_fixup_zero _ Hany).
  - intros st h c st' p st1 cl' q pr m Hwf Hany Hadd Hfresh Hc Hp Hq Hm Hpr
      Hnone c'.
    pose proof (client_add_wf _ _ _ _ _ Hwf Hadd) as Hwf'.
    pose proof (wf_lists _ Hwf' _ _ Hp) as Hcl'.
    apply client_add_inv in Hadd
      as (c1 & Hfix & [(_ & ? & _)|(p0 & st0 & cl & slot & Hc0 & Hp0 & Hs & H)]);
      [done|].
    rewrite (wildcard_fixup_full _ Hany) in Hfix. injection Hfix as <-.
    rewrite Hc in Hc0. injection Hc0 as <- <-.
    destruct H as [(t & old & _ & _ & _ & _ & ->)|(Hfind & _ & Hmax & ->)];
      [done|].
    destruct (client_add_clients_inv _ _ _ _ _ Hc) as (_ & Hnum & _).
    rewrite Hnum in Hp, Hwf' |- *. fold c' in Hp, Hwf' |- *.
    cbn [added_state lists] in Hp.
    rewrite list_lookup_insert_eq in Hp by apply (lookup_lt_Some _ _ _ Hp0).
    injection Hp as <-.
    assert (trees (inserted cl (default [] slot) c') !! 0
            = Some (Some (default [] slot ++ [c']))) as Ht.
    { cbn [inserted trees].
      apply list_lookup_insert_eq, (lookup_lt_Some _ _ _ Hs). }
    assert (min_prefix (inserted cl (default [] slot) c') = 0) as Hmin.
    { rewrite inserted_min_prefix. simpl. lia. }
    split; [|split; [done|split; [done|]]].
    { eexists 0, _. split; [exact Ht|]. apply elem_of_app. right. left. }
    rewrite (client_find_unfold _ _ _ _ (inserted cl (default [] slot) c') m);
      [|by cbn [list_of]; simpl; apply list_lookup_insert_eq,
           (lookup_lt_Some _ _ _ Hp0) | done].
    rewrite Hmin, Nat.sub_0_r, client_find_loop_last.
    rewrite (proj2 (client_find_loop_None _ _ _ _ _)).
    2:{ intros i Hi.
        destruct (client_find_probe (inserted cl (default [] slot) c') q pr i)
          as [r|] eqn:E; [|done]. exfalso.
        apply client_find_probe_Some in E as (t & Hti & Hr & Hcmp).
        pose proof (wf_prefix _ Hcl' _ _ _ Hti Hr) as Hpi.
        apply (Hnone r); [by exists i, t | lia |].
        unfold matches. by rewrite Hpi. }
    unfold client_find_probe. rewrite Ht.
    assert (ipaddr (myclient (fr_ipaddr_mask q 0) pr 0) = ipaddr c') as Hip.
    { simpl. by apply fr_ipaddr_mask_zero. }
    rewrite rbtree_finddata_snoc.
    + rewrite (proj2 (Z.eqb_eq _ _)); [done|].
      apply client_ipaddr_cmp_eq. split; [done|]. simpl.
      destruct Hpr as [-> | ->]; auto.
    + apply rbtree_finddata_None. intros x Hx Hcmp.
      apply (proj1 (rbtree_finddata_None _ _ _) Hfind x Hx).
      apply client_ipaddr_cmp_eq in Hcmp as [Hi Hpx].
      apply client_ipaddr_cmp_eq. split; [by rewrite <- Hi, Hip|].
      simpl in *. destruct Hpr as [-> | ->]; auto.
Qed.

Lemma client_add_wildcard_normalization_witness :
  (wildcard_fixup Example.any32 = Some (set_ipaddr_prefix Example.any32 0) ∧
   client_add Example.st3 None (Some Example.any32)
   = client_add Example.st3 None
       (Some (set_ipaddr_prefix Example.any32 0))) ∧
  (stored Example2.root4 Example.any' ∧
   prefix (ipaddr Example.any') = 0 ∧ min_prefix Example2.root4 = 0 ∧
   client_find Example2.st4 (Some 0) (Some (Example.ip4 198 51 100 7 32))
     IPPROTO_UDP = Some Example.any').
Proof.
  destruct client_add_wildcard_normalization as (Hnorm & Hfind).
  assert (inaddr_any_full (ipaddr Example.any32)) as Hany.
  { split; [vm_compute; reflexivity | left; split; vm_compute; reflexivity]. }
  split.
  - apply (Hnorm Example.st3 None Example.any32 Hany).
  - apply (Hfind Example.st3 None Example.any32 Example2.st4 0 Example.st3
             Example2.root4 (Example.ip4 198 51 100 7 32) IPPROTO_UDP 32).
    + exact example_st3_wf.
    + exact Hany.
    + vm_compute; reflexivity.
    + discriminate.
    + vm_compute; reflexivity.
    + vm_compute; reflexivity.
    + vm_compute; reflexivity.
    + vm_compute; reflexivity.
    + left. vm_compute; reflexivity.
    + intros e He%stored_entries Hpos. vm_compute in He.
      repeat (apply elem_of_cons in He as [->|He]);
        [by apply Nat.lt_irrefl in Hpos | discriminate..
        | by apply not_elem_of_nil in He].
Defined.

(** ** The number index *)

Lemma client_findbynumber_unfold st h k :
  handle_exists st h →
  client_findbynumber st h k
  = if (tree_num_max st <=? k)%Z then None
    else t ← tree_num st;
         rbtree_finddata client_num_cmp t
           (myclient {| af := 0; addr := 0; prefix := 0 |} 0 k).
Proof.
  unfold handle_exists, client_findbynumber. intros [p ->].
  by destruct (tree_num st).
Qed.


Lemma numbered_findbynumber st h k c :
  state_wf st → handle_exists st h → numbered st k c →
  client_findbynumber st h k = Some c.
Proof.
  intros Hwf Hh (t & Ht & Hc & Hk).
  rewrite (client_findbynumber_unfold _ _ _ Hh), Ht. simpl.
  pose proof (wf_num _ Hwf _ _ Ht Hc).
  destruct (Z.leb_spec (tree_num_max st) k); [lia|].
  destruct (rbtree_finddata_is_Some client_num_cmp t
              (myclient {| af := 0; addr := 0; prefix := 0 |} 0 k) c Hc)
    as [y Hy]; [by apply client_num_cmp_eq|].
  rewrite Hy. f_equal. apply rbtree_finddata_Some in Hy as [Hyt Hyc].
  apply client_num_cmp_eq in Hyc. simpl in Hyc.
  apply (proj2 (wf_num_distinct _ Hwf _ Ht)); try done.
  apply client_num_cmp_eq. lia.
Qed.

(** The index after an insertion holds the new record under the old
    value of the counter. *)
Lemma numbered_added st p cl t c :
  state_wf st → number c = tree_num_max st →
  numbered (added_state st p cl t c) (tree_num_max st) c.
Proof.
  intros Hwf Hn. exists (num_inserted (tree_num st) c).
  split; [done|]. split; [|done].
  unfold num_inserted, rbtree_insert.
  destruct (rbtree_finddata client_num_cmp
              (match tree_num st with Some t => t | None => rbtree_create end)
              c) as [y|] eqn:E.
  - exfalso. apply rbtree_finddata_Some in E as [Hy Hc].
    apply client_num_cmp_eq in Hc.
    destruct (tree_num st) as [num|] eqn:Ht;
      [|by apply not_elem_of_nil in Hy].
    pose proof (wf_num _ Hwf _ _ Ht Hy). lia.
  - apply elem_of_app. right. left.
Qed.



(** An insertion leaves counter and index alone, or stores the record
    under the current value of the counter and moves the counter up. *)
Lemma client_add_numbering st h c b st' :
  state_wf st → client_add st h (Some c) = Some (b, st') →
  (tree_num_max st' = tree_num_max st ∧ tree_num st' = tree_num st) ∨
  (b = true ∧ tree_num_max st' = (tree_num_max st + 1)%Z ∧
   ∃ c1, wildcard_fixup c = Some c1 ∧
     ∀ h', handle_exists st' h' →
       client_findbynumber st' h' (tree_num_max st)
       = Some (set_number c1 (tree_num_max st))).
Proof.
  intros Hwf Hadd.
  pose proof (client_add_wf _ _ _ _ _ Hwf Hadd) as Hwf'.
  apply client_add_inv in Hadd
    as (c1 & Hfix & [(_ & _ & ->)|(p & st0 & cl & slot & Hc & Hp & Hs & H)]);
    [by left|].
  destruct H as [(t & old & _ & _ & _ & _ & ->)|(Hfind & -> & Hmax & ->)];
    [by left|].
  destruct (client_add_clients_inv _ _ _ _ _ Hc) as (Hn & Hm & _).
  right. split; [done|]. cbn [added_state tree_num_max].
  split; [by rewrite Hm|]. exists c1. split; [done|]. intros h' Hh'.
  rewrite <- Hm. apply numbered_findbynumber; try done.
  apply numbered_added; [|done].
  exact (client_add_clients_wf _ _ _ _ _ Hwf Hc).
Qed.



(** ** One number index for all lists *)

Lemma client_add_clients_root st h c p st1 r :
  client_add_clients st h c = Some (p, st1) →
  root_clients st = Some r → root_clients st1 = Some r.
Proof.
  assert (∀ p st1, global_clients st = (p, st1) →
    root_clients st = Some r → root_clients st1 = Some r) as Hglobal.
  { intros p' st1'. unfold global_clients.
    destruct (root_clients st) eqn:E;
      [intros [= <- <-] <-; done | by intros _ ?]. }
  unfold client_add_clients. destruct h as [p'|].
  { by intros [= <- <-]. }
  destruct (server c) as [sname|]; [|intros [= H]; by eapply Hglobal].
  destruct (servers st !! sname) as [cs|]; [|done].
  destruct (listen cs); simpl; [|intros [= H]; by eapply Hglobal].
  by destruct (cs_clients cs); intros [= <- <-].
Qed.

(** The lists other than the one chosen are as they were. *)
Lemma client_add_other_list st h c st' c1 p st1 r :
  client_add st h (Some c) = Some (true, st') →
  wildcard_fixup c = Some c1 →
  client_add_clients st h c1 = Some (p, st1) →
  r ≠ p → lists st' !! r = lists st !! r.
Proof.
  intros Hadd Hfix Hc Hne.
  apply client_add_inv in Hadd
    as (c1' & Hfix' & [(_ & ? & _)|(p' & st0 & cl & slot & Hc' & Hp & Hs & H)]);
    [done|].
  rewrite Hfix in Hfix'. injection Hfix' as <-.
  rewrite Hc in Hc'. injection Hc' as <- <-.
  destruct H as [(t & old & _ & _ & _ & _ & ->)|(Hfind & _ & Hmax & ->)];
    [done|].
  cbn [added_state lists]. rewrite list_lookup_insert_ne by done.
  destruct (client_add_clients_inv _ _ _ _ _ Hc)
    as (_ & _ & [->|(cs & -> & Hl)]); [done|].
  rewrite Hl. destruct (decide (r < length (lists st))).
  - by rewrite lookup_app_l.
  - rewrite !lookup_ge_None_2; [done | lia |].
    rewrite length_app. simpl. lia.
Qed.

(** C10 — Numbering is global to the process. [client_findbynumber]
    uses its list argument only to see that some list is there: through
    any two usable handles (a non-NULL handle, or NULL when the global
    list exists) it returns the same record for every number. So a
    client stored in a list other than the global one (the list of a
    virtual server) is returned by number through the global handle,
    although address lookups through the global handle are exactly what
    they were before that client was added. *)
Theorem client_findbynumber_global :
  (∀ st a b n,
     handle_exists st a → handle_exists st b →
     client_findbynumber st a n = client_findbynumber st b n) ∧
  (∀ st h c st' c1 p st1 r,
     state_wf st → root_clients st = Some r →
     client_add st h (Some c) = Some (true, st') →
     tree_num_max st' ≠ tree_num_max st →
     wildcard_fixup c = Some c1 →
     client_add_clients st h c1 = Some (p, st1) → p ≠ r →
     let c' := set_number c1 (tree_num_max st) in
     (∃ cl', lists st' !! p = Some cl' ∧ stored cl' c') ∧
     client_findbynumber st' None (tree_num_max st) = Some c' ∧
     (∀ q pr, client_find st' None q pr = client_find st None q pr)).
Proof.
  split.
  - intros st a b n Ha Hb.
    by rewrite !client_findbynumber_unfold.
  - intros st h c st' c1 p st1 r Hwf Hroot Hadd Hfresh Hfix Hc Hne c'.
    pose proof (client_add_other_list _ _ _ _ _ _ _ r Hadd Hfix Hc
                  (not_eq_sym Hne)) as Hother.
    pose proof (client_add_clients_root _ _ _ _ _ _ Hc Hroot) as Hroot1.
    destruct (client_add_numbering _ _ _ _ _ Hwf Hadd)
      as [[Hsame _]|(_ & _ & c1' & Hfix' & Hnum)]; [done|].
    rewrite Hfix in Hfix'. injection Hfix' as <-.
    apply client_add_inv in Hadd
      as (c1' & Hfix' & [(_ & ? & _)|(p' & st0 & cl & slot & Hc' & Hp & Hs & H)]);
      [done|].
    rewrite Hfix in Hfix'. injection Hfix' as <-.
    rewrite Hc in Hc'. injection Hc' as <- <-.
    destruct H as [(t & old & _ & _ & _ & _ & ->)|(Hfind & _ & Hmax & ->)];
      [done|].
    destruct (client_add_clients_inv _ _ _ _ _ Hc) as (_ & Hm & _).
    assert (root_clients
              (added_state st1 p cl (default [] slot)
                 (set_number c1 (tree_num_max st1))) = Some r) as Hroot'
      by done.
    split; [|split].
    + exists (inserted cl (default [] slot) c'). split.
      * cbn [added_state lists]. rewrite Hm.
        by apply list_lookup_insert_eq, (lookup_lt_Some _ _ _ Hp).
      * exists (prefix (ipaddr c1)), (default [] slot ++ [c']). split.
        -- cbn [inserted trees].
           by apply list_lookup_insert_eq, (lookup_lt_Some _ _ _ Hs).
        -- apply elem_of_app. right. left.
    + apply Hnum. unfold handle_exists. rewrite Hroot'. by eexists.
    + intros q pr. unfold client_find. rewrite Hroot', Hroot.
      by rewrite Hother.
Qed.

Lemma client_findbynumber_global_witness :
  client_findbynumber Example.st3 None 1
  = client_findbynumber Example.st3 (Some 7) 1 ∧
  (∃ cl', lists Example4.st6 !! 1 = Some cl' ∧ stored cl' Example.inner') ∧
  client_findbynumber Example4.st6 None 3 = Some Example.inner' ∧
  (∀ q pr, client_find Example4.st6 None q pr
           = client_find Example.st3 None q pr).
Proof.
  destruct client_findbynumber_global as (Hsame & Hvs).
  split.
  - apply Hsame; [by exists 0 | by exists 7].
  - apply (Hvs Example.st3 None Example.inner Example4.st6 Example.inner
             1 Example4.st3_inner 0 example_st3_wf).
    + vm_compute; reflexivity.
    + vm_compute; reflexivity.
    + discriminate.
    + vm_compute; reflexivity.
    + vm_compute; reflexivity.
    + discriminate.
Defined.

(** ** The watermark *)

Lemma client_add_clients_lists st h c p st1 q cl :
  client_add_clients st h c = Some (p, st1) →
  lists st !! q = Some cl → lists st1 !! q = Some cl.
Proof.
  intros (_ & _ & [->|(cs & _ & ->)])%client_add_clients_inv Hq; [done|].
  by apply lookup_app_l_Some.
Qed.

(** No step raises the watermark of a list. *)
Lemma step_watermark st o st' p cl :
  step st o = Some st' → lists st !! p = Some cl →
  ∃ cl', lists st' !! p = Some cl' ∧ min_prefix cl' ≤ min_prefix cl.
Proof.
  destruct o as [cs|h c|h c]; cbn [step].
  - intros [= <-] Hp. exists cl. split; [|done].
    simpl. by apply lookup_app_l_Some.
  - destruct (client_add st h (Some c)) as [[b st1]|] eqn:Hadd; [|done].
    intros [= <-] Hp.
    apply client_add_inv in Hadd
      as (c1 & _ & [(_ & _ & ->)|(p0 & st0 & cl0 & slot & Hc & Hp0 & Hs & H)]).
    { by exists cl. }
    destruct H as [(t & old & _ & _ & _ & _ & ->)|(Hfind & _ & Hmax & ->)].
    { by exists cl. }
    pose proof (client_add_clients_lists _ _ _ _ _ _ _ Hc Hp) as Hp1.
    cbn [added_state lists]. destruct (decide (p0 = p)) as [->|Hne].
    + rewrite Hp1 in Hp0. injection Hp0 as <-. eexists. split.
      * by apply list_lookup_insert_eq, (lookup_lt_Some _ _ _ Hp1).
      * rewrite inserted_min_prefix. lia.
    + exists cl. by rewrite list_lookup_insert_ne.
  - intros (_ & p0 & cl0 & slot & _ & Hp0 & _ & ->)%client_delete_inv Hp.
    cbn [lists]. destruct slot as [t|]; [|by exists cl].
    destruct (decide (p0 = p)) as [->|Hne].
    + rewrite Hp in Hp0. injection Hp0 as <-. eexists. split.
      * by apply list_lookup_insert_eq, (lookup_lt_Some _ _ _ Hp).
      * done.
    + exists cl. by rewrite list_lookup_insert_ne.
Qed.

(** C7 — Watermark invariant. A new list has watermark 128. After a
    [client_add] that succeeds, the watermark of the list the record was
    meant for is the minimum of what it was and the prefix length of the
    record as stored; a failed [client_add] leaves the list as it was.
    [client_delete] leaves every watermark as it was, and over any
    sequence of operations the watermark of a list never goes up. After
    a deletion the state is still well formed and lookups are still
    longest-prefix matches: the scan still covers every tree. *)
Theorem client_watermark_invariant :
  (∀ st cs,
     lists (snd (client_list_init st cs)) !! fst (client_list_init st cs)
     = Some (empty_list cs) ∧ min_prefix (empty_list cs) = 128) ∧
  (∀ st h c b st' c1 p st1 cl,
     state_wf st → client_add st h (Some c) = Some (b, st') →
     wildcard_fixup c = Some c1 →
     client_add_clients st h c1 = Some (p, st1) →
     lists st1 !! p = Some cl →
     ∃ cl', lists st' !! p = Some cl' ∧
       if b then min_prefix cl' = min_prefix cl `min` prefix (ipaddr c1)
       else cl' = cl) ∧
  (∀ st h c st' p cl,
     client_delete st h (Some c) = Some st' → lists st !! p = Some cl →
     ∃ cl', lists st' !! p = Some cl' ∧ min_prefix cl' = min_prefix cl) ∧
  (∀ ops st st' p cl,
     run st ops = Some st' → lists st !! p = Some cl →
     ∃ cl', lists st' !! p = Some cl' ∧ min_prefix cl' ≤ min_prefix cl) ∧
  (∀ st h c st' h' cl q pr m e,
     state_wf st → client_delete st h (Some c) = Some st' →
     list_of st' h' = Some cl → client_find_max_prefix q = Some m →
     stored cl e → matches q pr e → prefix (ipaddr e) ≤ m →
     state_wf st' ∧
     ∃ r, client_find st' h' (Some q) pr = Some r ∧
          stored cl r ∧ matches q pr r ∧
          prefix (ipaddr e) ≤ prefix (ipaddr r) ≤ m).
Proof.
  split; [|split; [|split; [|split]]].
  - intros st cs. split; [|done]. rewrite client_list_init_spec.
    cbn [fst snd set_lists lists]. by apply list_lookup_middle.
  - intros st h c b st' c1 p st1 cl Hwf Hadd Hfix Hc Hp.
    pose proof (client_add_clients_wf _ _ _ _ _ Hwf Hc) as Hwf1.
    apply client_add_inv in Hadd
      as (c1' & Hfix' & [(Hc' & _)|(p' & st0 & cl0 & slot & Hc' & Hp0 & Hs & H)]).
    { rewrite Hfix in Hfix'. injection Hfix' as <-. by rewrite Hc in Hc'. }
    rewrite Hfix in Hfix'. injection Hfix' as <-.
    rewrite Hc in Hc'. injection Hc' as <- <-.
    rewrite Hp in Hp0. injection Hp0 as <-.
    destruct H as [(t & old & -> & -> & _ & -> & ->)|(Hfind & -> & Hmax & ->)].
    + exists cl. split; [done|].
      destruct (complete_duplicate old c1); [|done].
      pose proof (wf_watermark _ (wf_lists _ Hwf _ _ Hp) _ _ Hs). lia.
    + eexists. split.
      * cbn [added_state lists].
        by apply list_lookup_insert_eq, (lookup_lt_Some _ _ _ Hp).
      * by rewrite inserted_min_prefix.
  - intros st h c st' p cl
      (_ & p0 & cl0 & slot & _ & Hp0 & _ & ->)%client_delete_inv Hp.
    cbn [lists]. destruct slot as [t|]; [|by exists cl].
    destruct (decide (p0 = p)) as [->|Hne].
    + rewrite Hp in Hp0. injection Hp0 as <-. eexists. split.
      * by apply list_lookup_insert_eq, (lookup_lt_Some _ _ _ Hp).
      * done.
    + exists cl. by rewrite list_lookup_insert_ne.
  - induction ops as [|o ops IH]; simpl; intros st st' p cl.
    + intros [= <-] Hp. by exists cl.
    + destruct (step st o) as [st1|] eqn:E; [|done]. simpl. intros Hrun Hp.
      destruct (step_watermark _ _ _ _ _ E Hp) as (cl1 & Hp1 & Hle1).
      destruct (IH _ _ _ _ Hrun Hp1) as (cl' & Hp' & Hle).
      exists cl'. split; [done | lia].
  - intros st h c st' h' cl q pr m e Hwf Hdel Hl Hm He Hmatch Hle.
    pose proof (client_delete_wf _ _ _ _ Hwf Hdel) as Hwf'.
    split; [done|].
    assert (list_wf cl) as Hcl.
    { unfold list_of in Hl.
      destruct (match h' with Some p => Some p | None => root_clients st' end)
        as [p|]; [|done].
      by eapply wf_lists. }
    destruct (client_find_lpm st' h' cl q pr m e Hl Hcl Hm He Hmatch Hle)
      as (r & Hr & Hs & Hmr & Hrange & Hmax).
    exists r. do 3 (split; [done|]).
    specialize (Hmax e He Hmatch Hle). lia.
Qed.

Lemma client_watermark_invariant_witness :
  (∃ cl', lists Example2.st4 !! 0 = Some cl' ∧
     min_prefix cl' = min_prefix Example.root3 `min` 0) ∧
  (∃ cl', lists Example5.st7 !! 0 = Some cl' ∧
     min_prefix cl' = min_prefix Example.root3) ∧
  (∃ cl', lists Example3.st5 !! 0 = Some cl' ∧
     min_prefix cl' ≤ min_prefix Example.root3) ∧
  (state_wf Example5.st7 ∧
   ∃ r, client_find Example5.st7 None (Some (Example.ip4 10 1 2 3 32))
          IPPROTO_UDP = Some r ∧
        stored Example5.root7 r ∧
        matches (Example.ip4 10 1 2 3 32) IPPROTO_UDP r ∧
        prefix (ipaddr Example.host') ≤ prefix (ipaddr r) ≤ 32).
Proof.
  destruct client_watermark_invariant as (_ & Hadd & Hdel & Hrun & Hlpm).
  split; [|split; [|split]].
  - apply (Hadd Example.st3 None Example.any32 true Example2.st4
             (set_ipaddr_prefix Example.any32 0) 0 Example.st3 Example.root3
             example_st3_wf); vm_compute; reflexivity.
  - apply (Hdel Example.st3 None Example.net8' Example5.st7 0 Example.root3);
      vm_compute; reflexivity.
  - apply (Hrun Example3.ops5 Example.st3 Example3.st5 0 Example.root3);
      vm_compute; reflexivity.
  - apply (Hlpm Example.st3 None Example.net8' Example5.st7 None
             Example5.root7 (Example.ip4 10 1 2 3 32) IPPROTO_UDP 32
             Example.host' example_st3_wf).
    + vm_compute; reflexivity.
    + vm_compute; reflexivity.
    + vm_compute; reflexivity.
    + exists 32, [Example.host'; Example.dual'].
      split; [vm_compute; reflexivity | left].
    + vm_compute; reflexivity.
    + simpl. lia.
Defined.

(** ** Deleting *)

(** C8, as amended — [client_delete] works on keys. For a usable handle
    and a record of prefix length at most 128: when the tree of that
    prefix length in the list holds no entry whose address key compares
    equal to the record's (or the tree was never created), the deletion
    succeeds and every list is as it was, as are [root_clients], the
    counter and the virtual servers. When the record is held by a
    well-formed list, the deletion succeeds, the record is no longer held
    by the list nor by the number index, and every other entry of the
    list is still held. *)
Theorem client_delete_by_key :
  (∀ st h c p cl,
     match h with Some p => Some p | None => root_clients st end = Some p →
     lists st !! p = Some cl → length (trees cl) = 129 →
     prefix (ipaddr c) ≤ 128 →
     (∀ t, trees cl !! prefix (ipaddr c) = Some (Some t) →
           rbtree_finddata client_ipaddr_cmp t c = None) →
     ∃ st', client_delete st h (Some c) = Some st' ∧
            lists st' = lists st ∧ root_clients st' = root_clients st ∧
            tree_num_max st' = tree_num_max st ∧
            servers st' = servers st) ∧
  (∀ st h c p cl,
     state_wf st →
     match h with Some p => Some p | None => root_clients st end = Some p →
     lists st !! p = Some cl → stored cl c →
     ∃ st' cl', client_delete st h (Some c) = Some st' ∧
                lists st' !! p = Some cl' ∧
                ¬ stored cl' c ∧
                (∀ e, stored cl e → e ≠ c → stored cl' e) ∧
                (∀ e, stored cl' e → stored cl e) ∧
                (∀ k, ¬ numbered st' k c)).
Proof.
  split.
  - intros st h c p cl Hh Hp Hlen Hle Habs.
    unfold client_delete. rewrite Hh.
    destruct (Nat.ltb_spec 128 (prefix (ipaddr c))) as [|_]; [lia|].
    simpl. rewrite Hp. simpl.
    destruct (lookup_lt_is_Some_2 (trees cl) (prefix (ipaddr c)))
      as [slot Hs]; [lia|].
    rewrite Hs. simpl. destruct slot as [t|]; [|by eexists].
    eexists. split; [done|]. split; [|done].
    rewrite (rbtree_deletebydata_absent _ _ _ (Habs _ Hs)).
    unfold set_tree. simpl. rewrite (list_alter_lookup _ _ _ _ Hp).
    apply list_insert_id. rewrite Hp. f_equal.
    unfold set_trees. rewrite (list_insert_id _ _ _ Hs). by destruct cl.
  - intros st h c p cl Hwf Hh Hp (i & t & Hi & Hc).
    pose proof (wf_lists _ Hwf _ _ Hp) as Hcl.
    pose proof (wf_prefix _ Hcl _ _ _ Hi Hc) as <-.
    pose proof (wf_distinct _ Hcl _ _ Hi) as Hd.
    pose proof (lookup_lt_Some _ _ _ Hi) as Hlt.
    rewrite (wf_length _ Hcl) in Hlt.
    destruct (rbtree_deletebydata_self client_ipaddr_cmp t c Hd Hc
                (client_ipaddr_cmp_refl c)) as [Hgone Hkeep].
    assert (client_delete st h (Some c)
            = Some (set_tree
                      (set_tree_num st
                         ((λ t, rbtree_deletebydata client_num_cmp t c)
                            <$> tree_num st)) p (prefix (ipaddr c))
                      (rbtree_deletebydata client_ipaddr_cmp t c))) as Hdel.
    { unfold client_delete. rewrite Hh.
      destruct (Nat.ltb_spec 128 (prefix (ipaddr c))) as [|_]; [lia|].
      simpl. rewrite Hp. simpl. by rewrite Hi. }
    eexists _, _. split; [exact Hdel|].
    split; [|split; [|split; [|split]]].
    + unfold set_tree. simpl. rewrite (list_alter_lookup _ _ _ _ Hp).
      by apply list_lookup_insert_eq, (lookup_lt_Some _ _ _ Hp).
    + intros (j & t' & Hj & Hc'). cbn [set_trees trees] in Hj.
      rewrite list_lookup_insert in Hj. case_decide as Hij.
      * injection Hj as <-. done.
      * pose proof (wf_prefix _ Hcl _ _ _ Hj Hc').
        pose proof (wf_length _ Hcl). apply Hij. split; lia.
    + intros e (j & t' & Hj & He) Hne. cbn [set_trees trees].
      destruct (decide (j = prefix (ipaddr c))) as [->|Hj'].
      * rewrite Hi in Hj. injection Hj as <-.
        exists (prefix (ipaddr c)), (rbtree_deletebydata client_ipaddr_cmp t c).
        split; [by apply list_lookup_insert_eq, (lookup_lt_Some _ _ _ Hi)|].
        by apply Hkeep.
      * exists j, t'. cbn [set_trees trees].
        by rewrite list_lookup_insert_ne.
    + intros e (j & t' & Hj & He). cbn [set_trees trees] in Hj.
      rewrite list_lookup_insert in Hj. case_decide as Hij.
      * injection Hj as <-. exists (prefix (ipaddr c)), t.
        split; [done|]. by eapply rbtree_deletebydata_elem.
      * by exists j, t'.
    + intros k (t' & Ht' & Hc' & Hk). simpl in Ht'.
      destruct (tree_num st) as [num|] eqn:Hnum; [|done].
      injection Ht' as <-.
      pose proof (wf_num_distinct _ Hwf _ Hnum) as Hdn.
      pose proof (rbtree_deletebydata_elem _ _ _ _ Hc') as Hcn.
      destruct (rbtree_deletebydata_self client_num_cmp num c Hdn Hcn)
        as [Hgone' _]; [by apply client_num_cmp_eq | done].
Qed.

Lemma client_delete_by_key_witness :
  (∃ st', client_delete Example.st3 None (Some Example6.stranger) = Some st' ∧
          lists st' = lists Example.st3 ∧
          root_clients st' = root_clients Example.st3 ∧
          tree_num_max st' = tree_num_max Example.st3 ∧
          servers st' = servers Example.st3) ∧
  (∃ st' cl', client_delete Example.st3 None (Some Example.host') = Some st' ∧
              lists st' !! 0 = Some cl' ∧
              ¬ stored cl' Example.host' ∧
              (∀ e, stored Example.root3 e → e ≠ Example.host' →
                    stored cl' e) ∧
              (∀ e, stored cl' e → stored Example.root3 e) ∧
              (∀ k, ¬ numbered st' k Example.host')).
Proof.
  destruct client_delete_by_key as (Habsent & Hpresent).
  split.
  - apply (Habsent Example.st3 None Example6.stranger 0 Example.root3).
    + vm_compute; reflexivity.
    + vm_compute; reflexivity.
    + vm_compute; reflexivity.
    + simpl. lia.
    + intros t Ht. vm_compute in Ht. injection Ht as <-. vm_compute; reflexivity.
  - apply (Hpresent Example.st3 None Example.host' 0 Example.root3
             example_st3_wf).
    + vm_compute; reflexivity.
    + vm_compute; reflexivity.
    + exists 32, [Example.host'; Example.dual'].
      split; [vm_compute; reflexivity | left].
Defined.

(** C8, as stated, fails: a record that the list does not hold, but
    whose address key a stored entry has, takes that entry out of the
    list when it is deleted. *)
Lemma client_delete_absent_counterexample :
  ¬ stored Example.root3 Example6.rotated ∧
  client_delete Example.st3 None (Some Example6.rotated)
  = Some Example6.st8 ∧
  lists Example6.st8 ≠ lists Example.st3 ∧
  client_find Example.st3 None (Some (Example.ip4 10 1 2 3 32)) IPPROTO_UDP
  = Some Example.host' ∧
  client_find Example6.st8 None (Some (Example.ip4 10 1 2 3 32)) IPPROTO_UDP
  = Some Example.net8'.
Proof.
  split; [|split; [|split; [|split]]].
  - intros He%stored_entries. vm_compute in He.
    repeat (apply elem_of_cons in He as [He|He]; [discriminate|]).
    by apply not_elem_of_nil in He.
  - vm_compute; reflexivity.
  - intros H. apply (f_equal (λ l, entries <$> l !! 0)) in H.
    vm_compute in H. discriminate.
  - vm_compute; reflexivity.
  - vm_compute; reflexivity.
Qed.

(** ** Lookups: soundness and round trips *)

Lemma fr_ipaddr_mask_af q i : af (fr_ipaddr_mask q i) = af q.
Proof. unfold fr_ipaddr_mask. by repeat case_match. Qed.

(** The comparison of the trees reads the address key and the transport
    of the probe only. *)
Lemma rbtree_finddata_key t a b :
  ipaddr a = ipaddr b → proto a = proto b →
  rbtree_finddata client_ipaddr_cmp t a
  = rbtree_finddata client_ipaddr_cmp t b.
Proof.
  intros Hi Hp. induction t as [|y t IH]; simpl; [done|].
  unfold client_ipaddr_cmp at 1 3. by rewrite Hi, Hp, IH.
Qed.

(** X1 — What [client_find] returns is a stored entry that really
    matches: its address key is the query address masked to its own
    prefix length, of the query's family, its transport is the wildcard
    or the queried one (or the query is for the wildcard), and its prefix
    length lies between the watermark and the length the scan starts at.
    When it returns nothing, no stored entry within the scanned lengths
    matches. *)
Theorem client_find_sound st h q pr cl :
  list_of st h = Some cl → list_wf cl →
  (∀ r, client_find st h (Some q) pr = Some r →
     stored cl r ∧
     ipaddr r = fr_ipaddr_mask q (prefix (ipaddr r)) ∧
     af (ipaddr r) = af q ∧
     (pr = IPPROTO_IP ∨ proto r = IPPROTO_IP ∨ pr = proto r) ∧
     ∃ m, client_find_max_prefix q = Some m ∧
          min_prefix cl ≤ prefix (ipaddr r) ≤ m) ∧
  (client_find st h (Some q) pr = None →
   ∀ m e, client_find_max_prefix q = Some m → stored cl e →
          prefix (ipaddr e) ≤ m → ¬ matches q pr e).
Proof.
  intros Hl Hwf. split.
  - intros r Hfind.
    destruct (client_find_max_prefix q) as [m|] eqn:Hm.
    2:{ unfold client_find, list_of in *.
        destruct (match h with Some p => Some p | None => root_clients st end);
          [|done].
        simpl in Hl. rewrite Hl in Hfind. simpl in Hfind.
        by rewrite Hm in Hfind. }
    rewrite (client_find_unfold _ _ _ _ _ _ Hl Hm) in Hfind.
    apply client_find_loop_Some in Hfind as (i & Hi & Hp & _).
    apply client_find_probe_Some in Hp as (t & Ht & Hr & Hc).
    pose proof (wf_prefix _ Hwf _ _ _ Ht Hr) as Hpi.
    pose proof (wf_watermark _ Hwf _ _ Ht) as Hlo.
    apply client_ipaddr_cmp_eq in Hc as [Hip Hproto]. simpl in Hip, Hproto.
    split; [by exists i, t|]. split; [by rewrite Hpi|].
    split; [by rewrite <- Hip, fr_ipaddr_mask_af|]. split; [done|].
    exists m. split; [done | lia].
  - intros Hnone m e Hm He Hle Hmatch.
    destruct (client_find_lpm st h cl q pr m e Hl Hwf Hm He Hmatch Hle)
      as (r & Hr & _). by rewrite Hr in Hnone.
Qed.

Lemma client_find_sound_witness :
  (∀ r, client_find Example.st3 None (Some (Example.ip4 10 7 7 7 32))
          IPPROTO_UDP = Some r →
     stored Example.root3 r ∧
     ipaddr r = fr_ipaddr_mask (Example.ip4 10 7 7 7 32) (prefix (ipaddr r)) ∧
     af (ipaddr r) = af (Example.ip4 10 7 7 7 32) ∧
     (IPPROTO_UDP = IPPROTO_IP ∨ proto r = IPPROTO_IP ∨
      IPPROTO_UDP = proto r) ∧
     ∃ m, client_find_max_prefix (Example.ip4 10 7 7 7 32) = Some m ∧
          min_prefix Example.root3 ≤ prefix (ipaddr r) ≤ m) ∧
  (client_find Example.st3 None (Some (Example.ip4 10 7 7 7 32))
     IPPROTO_UDP = None →
   ∀ m e, client_find_max_prefix (Example.ip4 10 7 7 7 32) = Some m →
          stored Example.root3 e → prefix (ipaddr e) ≤ m →
          ¬ matches (Example.ip4 10 7 7 7 32) IPPROTO_UDP e).
Proof.
  apply (client_find_sound Example.st3 None (Example.ip4 10 7 7 7 32)
           IPPROTO_UDP Example.root3).
  - vm_compute; reflexivity.
  - exact example_root3_wf.
Defined.

(** X2 — Insert, then look up. After a [client_add] that succeeds on a
    well-formed state, for a client of a supported family whose prefix
    length is within the family's width and whose address is already
    masked to it, a lookup of the client's own address key and transport
    in the list the client went to returns an entry that is a complete
    duplicate of the client: the record just stored, or the identical
    one that was there. *)
Theorem client_add_find_roundtrip st h c st' c1 :
  state_wf st →
  client_add st h (Some c) = Some (true, st') →
  wildcard_fixup c = Some c1 →
  client_find_max_prefix (ipaddr c1) = Some (prefix (ipaddr c1)) →
  fr_ipaddr_mask (ipaddr c1) (prefix (ipaddr c1)) = ipaddr c1 →
  ∃ p r, client_add_clients st' h c1 = Some (p, st') ∧
         client_find st' (Some p) (Some (ipaddr c1)) (proto c1) = Some r ∧
         complete_duplicate r c1 = true.
Proof.
  intros Hwf Hadd Hfix Hm Hmask.
  pose proof (client_add_wf _ _ _ _ _ Hwf Hadd) as Hwf'.
  apply client_add_true_stored in Hadd
    as (c1' & p & cl & t & old & Hfix' & Hc & Hp & Hs & Hfind & Hdup).
  rewrite Hfix in Hfix'. injection Hfix' as <-.
  exists p, old. split; [done|]. split; [|done].
  pose proof (wf_watermark _ (wf_lists _ Hwf' _ _ Hp) _ _ Hs) as Hlo.
  rewrite (client_find_unfold _ _ _ _ cl (prefix (ipaddr c1)));
    [|by unfold list_of; simpl | done].
  replace (S (prefix (ipaddr c1)) - min_prefix cl)
    with (S (prefix (ipaddr c1) - min_prefix cl)) by lia.
  simpl. replace (min_prefix cl + (prefix (ipaddr c1) - min_prefix cl))
    with (prefix (ipaddr c1)) by lia.
  unfold client_find_probe. rewrite Hs, Hmask.
  by rewrite (rbtree_finddata_key t _ c1), Hfind.
Qed.

Lemma client_add_find_roundtrip_witness :
  ∃ p r, client_add_clients Example2.st4 None
           (set_ipaddr_prefix Example.any32 0) = Some (p, Example2.st4) ∧
         client_find Example2.st4 (Some p)
           (Some (ipaddr (set_ipaddr_prefix Example.any32 0)))
           (proto (set_ipaddr_prefix Example.any32 0)) = Some r ∧
         complete_duplicate r (set_ipaddr_prefix Example.any32 0) = true.
Proof.
  apply (client_add_find_roundtrip Example.st3 None Example.any32
           Example2.st4 (set_ipaddr_prefix Example.any32 0)
           example_st3_wf); vm_compute; reflexivity.
Defined.

(** ** Insertion followed by deletion *)

Lemma rbtree_deletebydata_snoc compare t c d :
  rbtree_finddata compare t d = None → compare d c = 0%Z →
  rbtree_deletebydata compare (t ++ [c]) d = t.
Proof.
  intros Hnone Hc. induction t as [|y t IH]; simpl in *.
  - by rewrite (proj2 (Z.eqb_eq _ _) Hc).
  - destruct (compare d y =? 0)%Z; [done|]. by rewrite IH.
Qed.

Lemma client_find_loop_ext cl1 cl2 q pr lo n :
  (∀ i, client_find_probe cl1 q pr i = client_find_probe cl2 q pr i) →
  client_find_loop cl1 q pr lo n = client_find_loop cl2 q pr lo n.
Proof. intros H. induction n as [|n IH]; simpl; [done|]. by rewrite H, IH. Qed.

(** Starting the scan lower changes nothing when no tree lies below. *)
Lemma client_find_loop_lower cl q pr lo lo' m :
  lo' ≤ lo → (∀ i, lo' ≤ i < lo → client_find_probe cl q pr i = None) →
  client_find_loop cl q pr lo' (S m - lo')
  = client_find_loop cl q pr lo (S m - lo).
Proof.
  intros Hle Hnone. destruct (decide (lo ≤ S m)) as [Hm|Hm].
  - replace (S m - lo') with ((S m - lo) + (lo - lo')) by lia.
    generalize (S m - lo). intros n.
    remember (lo - lo') as k eqn:Hk. revert lo' Hle Hnone Hk.
    induction k as [|k IH]; intros lo' Hle Hnone Hk.
    + assert (lo' = lo) as -> by lia. by rewrite Nat.add_0_r.
    + replace (n + S k) with (S (n + k)) by lia.
      rewrite client_find_loop_last, (IH (S lo')); [|lia| |lia].
      * destruct (client_find_loop cl q pr lo n); [done|].
        apply Hnone. lia.
      * intros i Hi. apply Hnone. lia.
  - replace (S m - lo) with 0 by lia. simpl.
    apply client_find_loop_None. intros i Hi. apply Hnone. lia.
Qed.

Lemma client_find_probe_below cl q pr i :
  list_wf cl → i < min_prefix cl → client_find_probe cl q pr i = None.
Proof.
  intros Hwf Hi. unfold client_find_probe.
  destruct (trees cl !! i) as [[t|]|] eqn:E; try done.
  pose proof (wf_watermark _ Hwf _ _ E). lia.
Qed.

(** X3 — Insert, then delete. When a record has been stored by
    [client_add] in a well-formed state and the stored record is deleted
    from the same list, every address lookup, through every handle, is
    again what it was before the insertion; the number the record
    received is not given back: the counter stays one up and a lookup of
    that number finds nothing. *)
Theorem client_add_delete_lookups st p c st1 c1 :
  state_wf st →
  client_add st (Some p) (Some c) = Some (true, st1) →
  tree_num_max st1 ≠ tree_num_max st →
  wildcard_fixup c = Some c1 →
  ∃ st2,
    client_delete st1 (Some p)
      (Some (set_number c1 (tree_num_max st))) = Some st2 ∧
    (∀ h q pr, client_find st2 h q pr = client_find st h q pr) ∧
    (∀ h, client_findbynumber st2 h (tree_num_max st) = None) ∧
    tree_num_max st2 = (tree_num_max st + 1)%Z.
Proof.
  intros Hwf Hadd Hfresh Hfix.
  apply client_add_inv in Hadd
    as (c1' & Hfix' & [(_ & ? & _)|(p' & st0 & cl & slot & Hc & Hp & Hs & H)]);
    [done|].
  rewrite Hfix in Hfix'. injection Hfix' as <-.
  injection Hc as <- <-.
  destruct H as [(t & old & _ & _ & _ & _ & ->)|(Hfind & _ & Hmax & ->)];
    [done|].
  set (c' := set_number c1 (tree_num_max st)).
  set (t0 := default [] slot) in *.
  pose proof (wf_lists _ Hwf _ _ Hp) as Hcl.
  pose proof (lookup_lt_Some _ _ _ Hs) as Hlt.
  pose proof (lookup_lt_Some _ _ _ Hp) as Hplt.
  rewrite (wf_length _ Hcl) in Hlt.
  assert (rbtree_deletebydata client_ipaddr_cmp (t0 ++ [c']) c' = t0) as Hdel.
  { apply rbtree_deletebydata_snoc; [|apply client_ipaddr_cmp_refl].
    unfold c'. by rewrite rbtree_finddata_set_number. }
  assert (∀ x, x ∈ default rbtree_create (tree_num st) →
               client_num_cmp c' x ≠ 0%Z) as Hnum.
  { intros x Hx. rewrite client_num_cmp_eq. simpl.
    destruct (tree_num st) as [num|] eqn:Ht;
      [|by apply not_elem_of_nil in Hx].
    pose proof (wf_num _ Hwf _ _ Ht Hx). lia. }
  assert (num_inserted (tree_num st) c'
          = default rbtree_create (tree_num st) ++ [c']) as Hins.
  { unfold num_inserted, rbtree_insert.
    replace (match tree_num st with Some t => t | None => rbtree_create end)
      with (default rbtree_create (tree_num st)) by by destruct (tree_num st).
    by rewrite (proj2 (rbtree_finddata_None _ _ _) Hnum). }
  eexists. split; [|split; [|split]].
  - unfold client_delete.
    destruct (Nat.ltb_spec 128 (prefix (ipaddr c'))) as [Hbad|_];
      [simpl in Hbad; lia|].
    cbn [mbind option_bind added_state lists set_tree_num].
    rewrite list_lookup_insert_eq by done.
    cbn [mbind option_bind inserted trees].
    rewrite list_lookup_insert_eq by apply (lookup_lt_Some _ _ _ Hs).
    cbn [mbind option_bind]. reflexivity.
  - intros h q pr. unfold client_find.
    cbn [set_tree set_lists set_tree_num added_state root_clients lists].
    destruct (match h with Some p0 => Some p0 | None => root_clients st end)
      as [p0|]; [|done].
    destruct q as [q|]; [|done].
    erewrite list_alter_lookup by (by apply list_lookup_insert_eq).
    rewrite list_insert_insert_eq.
    destruct (decide (p0 = p)) as [->|Hne].
    2:{ by rewrite list_lookup_insert_ne. }
    rewrite list_lookup_insert_eq, Hp by done. simpl.
    destruct (client_find_max_prefix q) as [m|]; [|done]. simpl.
    rewrite list_insert_insert_eq. fold c'. rewrite Hdel.
    set (cl2 := set_trees _ _).
    assert (∀ i, client_find_probe cl2 q pr i = client_find_probe cl q pr i)
      as Hprobe.
    { intros i. unfold client_find_probe, cl2. cbn [set_trees trees].
      rewrite list_lookup_insert. case_decide as Hi; [|done].
      destruct Hi as [<- _]. rewrite Hs. unfold t0. by destruct slot. }
    rewrite (client_find_loop_ext cl2 cl) by done.
    apply client_find_loop_lower.
    + unfold cl2. cbn [set_trees min_prefix].
      destruct (Nat.ltb_spec (prefix (ipaddr c1)) (min_prefix cl)); lia.
    + intros i Hi. apply client_find_probe_below; [done | lia].
  - intros h. unfold client_findbynumber.
    destruct (match h with Some p0 => Some p0 | None => _ end); [|done].
    cbn [set_tree set_lists set_tree_num added_state tree_num tree_num_max
         fmap option_fmap option_map].
    destruct (Z.leb_spec (tree_num_max st + 1) (tree_num_max st)); [done|].
    fold c'. rewrite Hins, rbtree_deletebydata_snoc.
    + apply rbtree_finddata_None. intros x Hx Hcmp.
      apply (Hnum x Hx). by rewrite client_num_cmp_eq in *.
    + by apply rbtree_finddata_None.
    + by apply client_num_cmp_eq.
  - done.
Qed.

Lemma client_add_delete_lookups_witness :
  ∃ st2,
    client_delete Example2.st4 (Some 0)
      (Some (set_number (set_ipaddr_prefix Example.any32 0)
               (tree_num_max Example.st3))) = Some st2 ∧
    (∀ h q pr, client_find st2 h q pr = client_find Example.st3 h q pr) ∧
    (∀ h, client_findbynumber st2 h (tree_num_max Example.st3) = None) ∧
    tree_num_max st2 = (tree_num_max Example.st3 + 1)%Z.
Proof.
  apply (client_add_delete_lookups Example.st3 0 Example.any32 Example2.st4
           (set_ipaddr_prefix Example.any32 0) example_st3_wf).
  - vm_compute; reflexivity.
  - discriminate.
  - vm_compute; reflexivity.
Defined.

(** ** Which list a client goes to *)

Lemma wildcard_fixup_fields c c1 :
  wildcard_fixup c = Some c1 →
  c1 = c ∨ (c1 = set_ipaddr_prefix c 0 ∧ inaddr_any_full (ipaddr c)).
Proof.
  unfold wildcard_fixup, fr_ipaddr_is_inaddr_any, inaddr_any_full.
  destruct (Z.eqb_spec (af (ipaddr c)) AF_INET) as [Hf|Hf]; simpl.
  - destruct (Z.eqb_spec (addr (ipaddr c)) 0); simpl; [|intros [= <-]; by left].
    destruct (Nat.eqb_spec (prefix (ipaddr c)) 32); intros [= <-];
      [right; split; [done|]; split; [done|]; by left | by left].
  - destruct (Z.eqb_spec (af (ipaddr c)) AF_INET6) as [Hg|Hg]; simpl;
      [|intros [= <-]; by left].
    destruct (Z.eqb_spec (addr (ipaddr c)) 0); simpl; [|intros [= <-]; by left].
    destruct (Nat.eqb_spec (prefix (ipaddr c)) 128); intros [= <-];
      [right; split; [done|]; split; [done|]; by right | by left].
Qed.

Lemma wildcard_fixup_server c c1 :
  wildcard_fixup c = Some c1 → server c1 = server c.
Proof. by intros [->|[-> _]]%wildcard_fixup_fields. Qed.

(** The [rad_assert(0)] of the fixup cannot be reached. *)
Lemma wildcard_fixup_total c : is_Some (wildcard_fixup c).
Proof.
  unfold wildcard_fixup, fr_ipaddr_is_inaddr_any.
  destruct (Z.eqb_spec (af (ipaddr c)) AF_INET); simpl.
  - destruct (addr (ipaddr c) =? 0)%Z; simpl; by eexists.
  - destruct (Z.eqb_spec (af (ipaddr c)) AF_INET6); simpl; [|by eexists].
    destruct (addr (ipaddr c) =? 0)%Z; simpl; by eexists.
Qed.

Lemma client_add_false_unchanged st h c st' :
  client_add st h (Some c) = Some (false, st') → st' = st.
Proof.
  intros (c1 & _ & [(_ & _ & ->)|(p & st1 & cl & slot & _ & _ & _ & H)])
    %client_add_inv; [done|].
  by destruct H as [(t & old & _ & _ & _ & _ & ->)|(_ & ? & _)].
Qed.

(** After [client_add] the lists other than the one chosen are as they
    were, and the one chosen, when the call succeeded, holds a complete
    duplicate of the client. *)
Lemma client_add_chosen_list st h c b st' c1 p st1 :
  client_add st h (Some c) = Some (b, st') →
  wildcard_fixup c = Some c1 →
  client_add_clients st h c1 = Some (p, st1) →
  root_clients st' = root_clients st1 ∧ servers st' = servers st1 ∧
  (b = false → st' = st) ∧
  (∀ r, r ≠ p → lists st' !! r = lists st !! r) ∧
  (b = true → ∃ cl e, lists st' !! p = Some cl ∧ stored cl e ∧
                      complete_duplicate e c1 = true).
Proof.
  intros Hadd Hfix Hc.
  assert (b = false → st' = st) as Hfalse.
  { intros ->. by eapply client_add_false_unchanged. }
  assert (b = true → ∃ cl e, lists st' !! p = Some cl ∧ stored cl e ∧
                             complete_duplicate e c1 = true) as Htrue.
  { intros ->. pose proof Hadd as Hadd'.
    apply client_add_true_stored in Hadd
      as (c1' & p' & cl & t & old & Hfix' & Hc' & Hp & Hs & Hfind & Hdup).
    rewrite Hfix in Hfix'. injection Hfix' as <-.
    assert (p' = p) as ->.
    { apply client_add_inv in Hadd'
        as (c1' & Hfix' & [(_ & ? & _)|(p0 & st0 & cl0 & slot & Hc0 & _ & _ & H)]);
        [done|].
      rewrite Hfix in Hfix'. injection Hfix' as <-.
      rewrite Hc in Hc0. injection Hc0 as <- <-.
      destruct H as [(? & ? & _ & -> & _ & _ & ->)|(_ & _ & _ & ->)].
      - rewrite Hc in Hc'. by injection Hc' as <-.
      - pose proof (client_add_clients_again _ _ _ _ _
                      (added_state st1 p cl0 (default [] slot)
                         (set_number c1 (tree_num_max st1)))
                      Hc eq_refl eq_refl) as Hagain.
        rewrite Hagain in Hc'. by injection Hc' as <-. }
    exists cl, old. split; [done|]. split; [|done].
    exists (prefix (ipaddr c1)), t. split; [done|].
    by apply rbtree_finddata_Some in Hfind as [? _]. }
  destruct b.
  - split; [|split; [|split; [done|split; [|done]]]].
    + apply client_add_inv in Hadd
        as (c1' & Hfix' & [(_ & ? & _)|(p0 & st0 & cl0 & slot & Hc0 & _ & _ & H)]);
        [done|].
      rewrite Hfix in Hfix'. injection Hfix' as <-.
      rewrite Hc in Hc0. injection Hc0 as <- <-.
      by destruct H as [(? & ? & _ & -> & _ & _ & ->)|(_ & _ & _ & ->)].
    + apply client_add_inv in Hadd
        as (c1' & Hfix' & [(_ & ? & _)|(p0 & st0 & cl0 & slot & Hc0 & _ & _ & H)]);
        [done|].
      rewrite Hfix in Hfix'. injection Hfix' as <-.
      rewrite Hc in Hc0. injection Hc0 as <- <-.
      by destruct H as [(? & ? & _ & -> & _ & _ & ->)|(_ & _ & _ & ->)].
    + intros r Hr. by eapply client_add_other_list.
  - rewrite (Hfalse eq_refl) in *.
    apply client_add_inv in Hadd
      as (c1' & Hfix' & [(Hnone & _)|(p0 & st0 & cl0 & slot & Hc0 & _ & _ & H)]).
    { rewrite Hfix in Hfix'. injection Hfix' as <-. by rewrite Hc in Hnone. }
    rewrite Hfix in Hfix'. injection Hfix' as <-.
    rewrite Hc in Hc0. injection Hc0 as <- <-.
    by destruct H as [(? & ? & _ & -> & _ & _ & _)|(_ & ? & _)].
Qed.

(** X4 — Clients of a virtual server, added through the NULL list. A
    client naming a virtual server that does not exist is refused and
    nothing changes. A client naming a virtual server that has a "listen"
    section goes to the list attached to that server's section: the one
    already attached, or a new one that is then attached; the global list
    pointer and every other list are untouched, and after a success the
    attached list holds a complete duplicate of the client. *)
Theorem client_add_virtual_server_scope :
  (∀ st c c1 s,
     wildcard_fixup c = Some c1 → server c = Some s →
     servers st !! s = None →
     client_add st None (Some c) = Some (false, st)) ∧
  (∀ st c c1 s cs b st',
     wildcard_fixup c = Some c1 → server c = Some s →
     servers st !! s = Some cs → listen cs = true →
     client_add st None (Some c) = Some (b, st') →
     ∃ p cs',
       servers st' !! s = Some cs' ∧ cs_clients cs' = Some p ∧
       listen cs' = true ∧
       (∀ p0, cs_clients cs = Some p0 → p = p0) ∧
       root_clients st' = root_clients st ∧
       (∀ r, r ≠ p → lists st' !! r = lists st !! r) ∧
       (b = true → ∃ cl e, lists st' !! p = Some cl ∧ stored cl e ∧
                           complete_duplicate e c1 = true)).
Proof.
  split.
  - intros st c c1 s Hfix Hs Hnone. unfold client_add. rewrite Hfix. simpl.
    unfold client_add_clients.
    by rewrite (wildcard_fixup_server _ _ Hfix), Hs, Hnone.
  - intros st c c1 s cs b st' Hfix Hs Hcs Hlisten Hadd.
    destruct (client_add_clients st None c1) as [[p st1]|] eqn:Hc.
    2:{ revert Hc. unfold client_add_clients.
        rewrite (wildcard_fixup_server _ _ Hfix), Hs, Hcs, Hlisten. simpl.
        by destruct (cs_clients cs). }
    destruct (client_add_chosen_list _ _ _ _ _ _ _ _ Hadd Hfix Hc)
      as (Hroot & Hsrv & _ & Hother & Hstored).
    revert Hc. unfold client_add_clients.
    rewrite (wildcard_fixup_server _ _ Hfix), Hs, Hcs, Hlisten. simpl.
    destruct (cs_clients cs) as [p0|] eqn:Hp0.
    + intros [= <- <-]. exists p0, cs. rewrite Hsrv, Hroot.
      repeat split; try done. by intros ? [= <-].
    + intros [= <- <-]. eexists _, _. rewrite Hsrv, Hroot. simpl.
      split; [by apply lookup_insert_eq|]. repeat split; done.
Qed.

Lemma client_add_virtual_server_scope_witness :
  client_add Example.st3 None (Some ExampleX.lost)
  = Some (false, Example.st3) ∧
  ∃ p cs',
    servers Example4.st6 !! "inner" = Some cs' ∧ cs_clients cs' = Some p ∧
    listen cs' = true ∧
    (∀ p0, cs_clients {| name1 := "server"; listen := true;
                         cs_clients := None |} = Some p0 → p = p0) ∧
    root_clients Example4.st6 = root_clients Example.st3 ∧
    (∀ r, r ≠ p → lists Example4.st6 !! r = lists Example.st3 !! r) ∧
    (true = true → ∃ cl e, lists Example4.st6 !! p = Some cl ∧ stored cl e ∧
                           complete_duplicate e Example.inner = true).
Proof.
  destruct client_add_virtual_server_scope as (Hunknown & Hlisten).
  split.
  - apply (Hunknown Example.st3 ExampleX.lost ExampleX.lost "outer");
      vm_compute; reflexivity.
  - apply (Hlisten Example.st3 Example.inner Example.inner "inner"
             {| name1 := "server"; listen := true; cs_clients := None |}
             true Example4.st6); vm_compute; reflexivity.
Defined.

(** X5 — The global list. A client that names no virtual server, or a
    virtual server without a "listen" section, and is added through the
    NULL list goes to the global list, which is created on first use and
    then kept: [root_clients] is set afterwards, to what it was if it was
    set; the virtual servers are untouched, and after a success the
    global list holds a complete duplicate of the client. *)
Theorem client_add_global_scope st c c1 b st' :
  wildcard_fixup c = Some c1 →
  server c = None ∨
  (∃ s cs, server c = Some s ∧ servers st !! s = Some cs ∧
           listen cs = false) →
  client_add st None (Some c) = Some (b, st') →
  ∃ p, root_clients st' = Some p ∧
       (∀ r, root_clients st = Some r → p = r) ∧
       (root_clients st = None → p = length (lists st)) ∧
       servers st' = servers st ∧
       (∀ r, r ≠ p → lists st' !! r = lists st !! r) ∧
       (b = true → ∃ cl e, lists st' !! p = Some cl ∧ stored cl e ∧
                           complete_duplicate e c1 = true).
Proof.
  intros Hfix Hsrv Hadd.
  assert (client_add_clients st None c1 = Some (global_clients st)) as Hc.
  { unfold client_add_clients. rewrite (wildcard_fixup_server _ _ Hfix).
    destruct Hsrv as [->|(s & cs & -> & -> & ->)]; done. }
  destruct (global_clients st) as [p st1] eqn:Hg.
  destruct (client_add_chosen_list _ _ _ _ _ _ _ _ Hadd Hfix Hc)
    as (Hroot & Hservers & _ & Hother & Hstored).
  exists p. rewrite Hroot, Hservers. revert Hg. unfold global_clients.
  destruct (root_clients st) as [r|] eqn:Hr.
  - intros [= <- <-]. repeat split; try done. by intros ? [= <-].
  - intros [= <- <-]. repeat split; done.
Qed.

Lemma client_add_global_scope_witness :
  ∃ p, root_clients ExampleX.st1 = Some p ∧
       (∀ r, root_clients (initial_state Example.srv) = Some r → p = r) ∧
       (root_clients (initial_state Example.srv) = None →
        p = length (lists (initial_state Example.srv))) ∧
       servers ExampleX.st1 = servers (initial_state Example.srv) ∧
       (∀ r, r ≠ p →
             lists ExampleX.st1 !! r
             = lists (initial_state Example.srv) !! r) ∧
       (true = true → ∃ cl e, lists ExampleX.st1 !! p = Some cl ∧
                              stored cl e ∧
                              complete_duplicate e Example.net8 = true).
Proof.
  apply (client_add_global_scope (initial_state Example.srv) Example.net8
           Example.net8 true ExampleX.st1).
  - vm_compute; reflexivity.
  - left. vm_compute; reflexivity.
  - vm_compute; reflexivity.
Defined.

(** ** What the lists never hold *)

Lemma wildcard_fixup_not_full c c1 :
  wildcard_fixup c = Some c1 → ¬ inaddr_any_full (ipaddr c1).
Proof.
  intros Hfix Hfull.
  destruct (wildcard_fixup_fields _ _ Hfix) as [->|[-> _]].
  - rewrite (wildcard_fixup_full c Hfull) in Hfix. injection Hfix as Heq.
    apply (f_equal (λ x, prefix (ipaddr x))) in Heq. simpl in Heq.
    destruct Hfull as [_ [[_ Hp]|[_ Hp]]]; lia.
  - destruct Hfull as [_ [[_ Hp]|[_ Hp]]]; simpl in Hp; lia.
Qed.

Lemma stored_inserted cl slot c e :
  trees cl !! prefix (ipaddr c) = Some slot →
  stored (inserted cl (default [] slot) c) e → e = c ∨ stored cl e.
Proof.
  intros Hs (i & t & Hi & He). cbn [inserted trees] in Hi.
  rewrite list_lookup_insert in Hi. case_decide as Hc.
  - injection Hi as <-. destruct Hc as [<- _].
    apply elem_of_app in He as [He| ->%list_elem_of_singleton]; [|by left].
    right. destruct slot as [t|]; [|by apply not_elem_of_nil in He].
    by exists (prefix (ipaddr c)), t.
  - right. by exists i, t.
Qed.

(** A property that the fixed-up client has on every insertion, and that
    does not depend on the number, holds of every entry ever stored. *)
Lemma step_all_stored (P : RADCLIENT → Prop) st o st' :
  (∀ c n, P c → P (set_number c n)) →
  (∀ h c c1, o = OpAdd h c → wildcard_fixup c = Some c1 → P c1) →
  all_stored P st → step st o = Some st' → all_stored P st'.
Proof.
  intros Hnum Hnew Hall. destruct o as [cs|h c|h c]; cbn [step].
  - intros [= <-] p cl e. simpl.
    intros [?|[_ Hq]]%lookup_app_Some; [by eapply Hall|].
    destruct (p - length (lists st)); [|done]. injection Hq as <-.
    intros (i & t & Hi & _). by apply empty_list_trees in Hi.
  - destruct (client_add st h (Some c)) as [[b st1]|] eqn:Hadd; [|done].
    intros [= <-].
    apply client_add_inv in Hadd
      as (c1 & Hfix & [(_ & _ & ->)|(p0 & st0 & cl0 & slot & Hc & Hp & Hs & H)]);
      [done|].
    destruct H as [(t & old & _ & _ & _ & _ & ->)|(Hfind & _ & Hmax & ->)];
      [done|].
    assert (all_stored P st0) as Hall0.
    { destruct (client_add_clients_inv _ _ _ _ _ Hc)
        as (_ & _ & [->|(cs & _ & Hl)]); [done|].
      intros p cl e. rewrite Hl.
      intros [?|[_ Hq]]%lookup_app_Some; [by eapply Hall|].
      destruct (p - length (lists st)); [|done]. injection Hq as <-.
      intros (i & t & Hi & _). by apply empty_list_trees in Hi. }
    intros p cl e. cbn [added_state lists].
    rewrite list_lookup_insert. case_decide as Hq; [|by apply Hall0].
    intros [= <-] [->|He]%stored_inserted; [|by eapply Hall0|done].
    apply Hnum. by eapply Hnew.
  - intros (_ & p0 & cl0 & slot & _ & Hp0 & Hs & ->)%client_delete_inv.
    intros p cl e. cbn [lists]. destruct slot as [t|]; [|by apply Hall].
    rewrite list_lookup_insert. case_decide as Hq; [|by apply Hall].
    destruct Hq as [<- _]. intros [= <-] (i & t' & Hi & He).
    cbn [set_trees trees] in Hi. rewrite list_lookup_insert in Hi.
    apply (Hall p0 cl0 e Hp0). case_decide as Hc.
    + injection Hi as <-. destruct Hc as [<- _].
      exists (prefix (ipaddr c)), t. split; [done|].
      by eapply rbtree_deletebydata_elem.
    + by exists i, t'.
Qed.

(** X6 — No list ever holds an all-zero address with a full-width prefix
    length. Whatever sequence of [client_list_init], [client_add] and
    [client_delete] a process runs from its start, no entry of any list
    has an all-zero IPv4 address with prefix length 32, or an all-zero
    IPv6 address with prefix length 128: [client_add] stores such a
    client as a /0. *)
Theorem client_lists_never_hold_full_any srv ops st p cl e :
  run (initial_state srv) ops = Some st →
  lists st !! p = Some cl → stored cl e →
  ¬ inaddr_any_full (ipaddr e).
Proof.
  intros Hrun. revert p cl e.
  change (all_stored (λ e, ¬ inaddr_any_full (ipaddr e)) st).
  assert (all_stored (λ e, ¬ inaddr_any_full (ipaddr e)) (initial_state srv))
    as Hinit by (intros p cl e; done).
  revert Hrun Hinit. generalize (initial_state srv). clear srv.
  induction ops as [|o ops IH]; simpl; intros st0.
  - by intros [= <-].
  - destruct (step st0 o) as [st1|] eqn:E; [|done]. simpl.
    intros Hrun Hall. apply (IH _ Hrun).
    eapply step_all_stored; [| |exact Hall|exact E].
    + done.
    + intros h c c1 _ Hfix. by eapply wildcard_fixup_not_full.
Qed.

Lemma client_lists_never_hold_full_any_witness :
  ¬ inaddr_any_full (ipaddr Example.any').
Proof.
  apply (client_lists_never_hold_full_any Example.srv
           (Example.ops3 ++ [OpAdd None Example.any32]) Example2.st4 0
           Example2.root4 Example.any').
  - vm_compute; reflexivity.
  - vm_compute; reflexivity.
  - exists 0, [Example.any']. split; [vm_compute; reflexivity | left].
Defined.

(** ** Deleting through a list that does not hold the record *)

(** X7 — [client_delete] takes the record's number out of the number
    index before it looks at the list. When the list it is given holds
    no entry with the record's key, the lists are all unchanged and
    every address lookup answers as before, yet a record that the index
    held under its number is no longer found by number, through any
    handle. *)
Theorem client_delete_wrong_list st h c p cl :
  state_wf st →
  match h with Some p => Some p | None => root_clients st end = Some p →
  lists st !! p = Some cl → prefix (ipaddr c) ≤ 128 →
  (∀ t, trees cl !! prefix (ipaddr c) = Some (Some t) →
        rbtree_finddata client_ipaddr_cmp t c = None) →
  numbered st (number c) c →
  ∃ st', client_delete st h (Some c) = Some st' ∧
         lists st' = lists st ∧
         (∀ h' q pr, client_find st' h' q pr = client_find st h' q pr) ∧
         (∀ h', handle_exists st h' →
                client_findbynumber st h' (number c) = Some c) ∧
         (∀ h', client_findbynumber st' h' (number c) = None).
Proof.
  intros Hwf Hh Hp Hle Habs Hnum.
  pose proof (wf_lists _ Hwf _ _ Hp) as Hcl.
  destruct (lookup_lt_is_Some_2 (trees cl) (prefix (ipaddr c)))
    as [slot Hs]; [rewrite (wf_length _ Hcl); lia|].
  assert (client_delete st h (Some c)
          = Some (set_tree_num st
                    ((λ t, rbtree_deletebydata client_num_cmp t c)
                       <$> tree_num st))) as Hdel.
  { unfold client_delete. rewrite Hh.
    destruct (Nat.ltb_spec 128 (prefix (ipaddr c))) as [|_]; [lia|].
    simpl. rewrite Hp. simpl. rewrite Hs. simpl.
    destruct slot as [t|]; [|done]. f_equal.
    rewrite (rbtree_deletebydata_absent _ _ _ (Habs _ Hs)).
    unfold set_tree, set_lists. simpl.
    rewrite (list_alter_lookup _ _ _ _ Hp).
    rewrite (list_insert_id (lists st) p); [done|]. rewrite Hp. f_equal.
    unfold set_trees. rewrite (list_insert_id _ _ _ Hs). by destruct cl. }
  eexists. split; [exact Hdel|]. split; [done|]. split; [done|].
  split; [intros h' Hh'; by apply numbered_findbynumber|].
  intros h'. unfold client_findbynumber. simpl.
  destruct (match h' with Some p0 => Some p0 | None => root_clients st end);
    [|done].
  destruct (Z.leb_spec (tree_num_max st) (number c)); [done|].
  destruct Hnum as (t & Ht & Hc & _). rewrite Ht. simpl.
  pose proof (wf_num_distinct _ Hwf _ Ht) as Hd.
  destruct (rbtree_deletebydata_self client_num_cmp t c Hd Hc)
    as [Hgone _]; [by apply client_num_cmp_eq|].
  apply rbtree_finddata_None. intros x Hx Hcmp.
  apply client_num_cmp_eq in Hcmp. simpl in Hcmp.
  pose proof (rbtree_deletebydata_elem _ _ _ _ Hx) as Hxt.
  assert (c = x) as ->; [|done].
  apply (proj2 Hd); try done. apply client_num_cmp_eq. lia.
Qed.

Lemma client_delete_wrong_list_witness :
  ∃ st', client_delete Example4.st6 None (Some Example.inner') = Some st' ∧
         lists st' = lists Example4.st6 ∧
         (∀ h' q pr,
            client_find st' h' q pr = client_find Example4.st6 h' q pr) ∧
         (∀ h', handle_exists Example4.st6 h' →
                client_findbynumber Example4.st6 h' (number Example.inner')
                = Some Example.inner') ∧
         (∀ h', client_findbynumber st' h' (number Example.inner') = None).
Proof.
  apply (client_delete_wrong_list Example4.st6 None Example.inner' 0
           Example.root3).
  - apply (client_add_wf Example.st3 None Example.inner true);
      [exact example_st3_wf | vm_compute; reflexivity].
  - vm_compute; reflexivity.
  - vm_compute; reflexivity.
  - simpl. lia.
  - intros t Ht. vm_compute in Ht. injection Ht as <-.
    vm_compute; reflexivity.
  - exists [Example.net8'; Example.host'; Example.dual'; Example.inner'].
    split; [vm_compute; reflexivity|]. split; [|reflexivity].
    do 3 right. left.
Defined.

(** ** A new list *)

Lemma client_find_empty st p cs q pr :
  lists st !! p = Some (empty_list cs) → client_find st (Some p) q pr = None.
Proof.
  intros Hp. unfold client_find. destruct q as [q|]; [|done].
  rewrite Hp. simpl. destruct (client_find_max_prefix q) as [m|]; [|done].
  simpl. apply client_find_loop_None. intros i _.
  unfold client_find_probe.
  destruct (trees (empty_list cs) !! i) as [[t|]|] eqn:E; try done.
  by apply empty_list_trees in E.
Qed.

(** X8 — [client_list_init] returns a handle that was not in use, to a
    list that holds no client: every lookup in it finds nothing. The
    lists that existed are as they were, lookups through their handles
    answer as before, and the global list pointer, the number index and
    the counter are untouched. *)
Theorem client_list_init_fresh st cs :
  let p := fst (client_list_init st cs) in
  let st' := snd (client_list_init st cs) in
  lists st !! p = None ∧
  (∃ cl, lists st' !! p = Some cl ∧ min_prefix cl = 128 ∧
         ∀ e, ¬ stored cl e) ∧
  (∀ q pr, client_find st' (Some p) q pr = None) ∧
  (∀ r cl, lists st !! r = Some cl → lists st' !! r = Some cl) ∧
  (∀ r q pr, r < length (lists st) →
     client_find st' (Some r) q pr = client_find st (Some r) q pr) ∧
  root_clients st' = root_clients st ∧ tree_num st' = tree_num st ∧
  tree_num_max st' = tree_num_max st.
Proof.
  rewrite client_list_init_spec. cbn [fst snd].
  assert (lists (set_lists st (lists st ++ [empty_list cs]))
            !! length (lists st) = Some (empty_list cs)) as Hnew.
  { cbn [set_lists lists]. by apply list_lookup_middle. }
  split; [by apply lookup_ge_None_2|]. split.
  { exists (empty_list cs). split; [done|]. split; [done|].
    intros e (i & t & Hi & _). by apply empty_list_trees in Hi. }
  split; [intros q pr; by eapply client_find_empty|].
  split; [intros r cl Hr; cbn [set_lists lists]; by apply lookup_app_l_Some|].
  split; [|done].
  intros r q pr Hr. unfold client_find. cbn [set_lists lists].
  by rewrite lookup_app_l.
Qed.

Lemma client_list_init_fresh_witness :
  client_find (snd (client_list_init Example.st3 None)) (Some 0)
    (Some (Example.ip4 10 1 2 3 32)) IPPROTO_UDP
  = client_find Example.st3 (Some 0)
      (Some (Example.ip4 10 1 2 3 32)) IPPROTO_UDP.
Proof.
  destruct (client_list_init_fresh Example.st3 None)
    as (_ & _ & _ & _ & Hsame & _).
  apply Hsame. vm_compute. lia.
Defined.

(** ** When [client_add] is defined *)

(** X9 — [client_add] indexes [trees] by the prefix length without a
    check. Given a well-formed state and a usable list, it runs to a
    result whenever the client's prefix length is at most 128 and the
    counter of numbers is below [INT_MAX]; with a prefix length above
    128 it reads outside the 129 slots. *)
Theorem client_add_defined st h c c1 p st1 :
  state_wf st → wildcard_fixup c = Some c1 →
  client_add_clients st h c1 = Some (p, st1) → is_Some (lists st1 !! p) →
  (prefix (ipaddr c) ≤ 128 → tree_num_max st ≠ INT_MAX →
   is_Some (client_add st h (Some c))) ∧
  (128 < prefix (ipaddr c) → client_add st h (Some c) = None).
Proof.
  intros Hwf Hfix Hc [cl Hp].
  pose proof (client_add_clients_wf _ _ _ _ _ Hwf Hc) as Hwf1.
  pose proof (wf_length _ (wf_lists _ Hwf1 _ _ Hp)) as Hlen.
  destruct (client_add_clients_inv _ _ _ _ _ Hc) as (_ & Hm & _).
  split.
  - intros Hle Hmax.
    assert (prefix (ipaddr c1) ≤ 128) as Hle1.
    { destruct (wildcard_fixup_fields _ _ Hfix) as [->|[-> _]];
        [done | simpl; lia]. }
    destruct (lookup_lt_is_Some_2 (trees cl) (prefix (ipaddr c1)))
      as [slot Hs]; [lia|].
    destruct (rbtree_finddata client_ipaddr_cmp (default [] slot) c1)
      as [old|] eqn:Hfind.
    + destruct slot as [t|]; [|done].
      rewrite (client_add_found _ _ _ _ _ _ _ _ _ Hfix Hc Hp Hs Hfind).
      by eexists.
    + rewrite (client_add_fresh _ _ _ _ _ _ _ _ Hfix Hc Hp Hs Hfind);
        [by eexists | by rewrite Hm].
  - intros Hbig.
    assert (c1 = c) as ->.
    { destruct (wildcard_fixup_fields _ _ Hfix)
        as [->|[-> [_ [[_ ?]|[_ ?]]]]]; [done | lia..]. }
    unfold client_add. rewrite Hfix. simpl. rewrite Hc, Hp. simpl.
    by rewrite lookup_ge_None_2 by lia.
Qed.

Lemma client_add_defined_witness :
  (prefix (ipaddr Example.any32) ≤ 128 →
   tree_num_max Example.st3 ≠ INT_MAX →
   is_Some (client_add Example.st3 None (Some Example.any32))) ∧
  (128 < prefix (ipaddr Example.any32) →
   client_add Example.st3 None (Some Example.any32) = None).
Proof.
  apply (client_add_defined Example.st3 None Example.any32
           (set_ipaddr_prefix Example.any32 0) 0 Example.st3
           example_st3_wf).
  - vm_compute; reflexivity.
  - vm_compute; reflexivity.
  - eexists. vm_compute; reflexivity.
Defined.

(** ** The builder [client_afrom_cs] *)

(** The steps a successful [client_afrom_cs] went through. *)
Lemma client_afrom_cs_Built env srv s cs server_cs c s' :
  client_afrom_cs env srv s cs server_cs = (Built c, s') →
  ∃ name2 rcode c0 sp c1 c2 c3 s3 c4,
    cf_section_name2 cs = Some name2 ∧
    cf_section_parse cs
      (set_cl_ipaddr s {| af := 0; addr := 0; prefix := 0 |})
    = (rcode, c0, sp) ∧
    afrom_cs_server srv server_cs c0 = Some c1 ∧
    afrom_cs_ipaddr env cs name2 sp c1 = Some c2 ∧
    afrom_cs_proto sp c2 = Some (c3, s3) ∧
    afrom_cs_src_ipaddr env s3 c3 = Built (c4, s') ∧
    afrom_cs_secret cs (afrom_cs_response_window env c4) = Some c.
Proof.
  unfold client_afrom_cs.
  destruct (cf_section_name2 cs) as [name2|]; [|done].
  destruct (cf_section_rules_push cs <? 0)%Z; [done|].
  destruct (cf_section_parse cs _) as [[rcode c0] sp] eqn:Hparse.
  destruct (rcode <? 0)%Z; [done|].
  destruct (afrom_cs_server srv server_cs c0) as [c1|] eqn:H1; [|done].
  destruct (afrom_cs_ipaddr env cs name2 sp c1) as [c2|] eqn:H2; [|done].
  destruct (afrom_cs_proto sp c2) as [[c3 s3]|] eqn:H3; [|done].
  destruct (afrom_cs_src_ipaddr env s3 c3) as [[c4 s4]| |] eqn:H4; try done.
  destruct (afrom_cs_secret cs (afrom_cs_response_window env c4))
    as [c5|] eqn:H5; [|done].
  intros [= <- <-]. by exists name2, rcode, c0, sp, c1, c2, c3, s3, c4.
Qed.

(** Which fields each step leaves alone. *)
Lemma afrom_cs_server_fields srv server_cs c c1 :
  afrom_cs_server srv server_cs c = Some c1 →
  tls_required c1 = tls_required c ∧ limit c1 = limit c ∧
  secret (rc_client c1) = secret (rc_client c) ∧
  shortname (rc_client c1) = shortname (rc_client c).
Proof.
  unfold afrom_cs_server. repeat case_match; try done; by intros [= <-].
Qed.

Lemma afrom_cs_ipaddr_fields env cs name2 s c c1 :
  afrom_cs_ipaddr env cs name2 s c = Some c1 →
  tls_required c1 = tls_required c ∧ limit c1 = limit c ∧
  secret (rc_client c1) = secret (rc_client c) ∧
  server (rc_client c1) = server (rc_client c) ∧
  server_cs c1 = server_cs c ∧
  ipaddr (rc_client c1) = cl_ipaddr s ∧
  longname (rc_client c1) = Some (fr_inet_ntoh env (cl_ipaddr s)) ∧
  shortname (rc_client c1)
  = match shortname (rc_client c) with
    | Some n => Some n
    | None => Some name2
    end.
Proof.
  unfold afrom_cs_ipaddr. destruct (cf_pair_find_ipaddr cs); [|done].
  intros [= <-]. cbv zeta. simpl.
  destruct (shortname (rc_client c)) eqn:E; simpl; repeat split; done.
Qed.

Lemma afrom_cs_proto_fields s c c1 s1 :
  afrom_cs_proto s c = Some (c1, s1) →
  limit c1 = limit c ∧
  secret (rc_client c1) = secret (rc_client c) ∧
  server (rc_client c1) = server (rc_client c) ∧
  server_cs c1 = server_cs c ∧
  ipaddr (rc_client c1) = ipaddr (rc_client c) ∧
  longname (rc_client c1) = longname (rc_client c) ∧
  shortname (rc_client c1) = shortname (rc_client c) ∧
  hs_proto s1 = None ∧ cl_srcipaddr s1 = cl_srcipaddr s.
Proof.
  unfold afrom_cs_proto. destruct (hs_proto s) eqn:E.
  - repeat case_match; try done; by intros [= <- <-].
  - by intros [= <- <-].
Qed.

Lemma afrom_cs_src_ipaddr_fields env s c c1 s1 :
  afrom_cs_src_ipaddr env s c = Built (c1, s1) →
  rc_client c1 = rc_client c ∧ tls_required c1 = tls_required c ∧
  limit c1 = limit c ∧ server_cs c1 = server_cs c ∧
  hs_proto s1 = hs_proto s ∧ cl_srcipaddr s1 = None.
Proof.
  unfold afrom_cs_src_ipaddr. destruct (cl_srcipaddr s) eqn:E.
  - repeat case_match; try done; by intros [= <- <-].
  - by intros [= <- <-].
Qed.

Lemma afrom_cs_response_window_fields env c :
  rc_client (afrom_cs_response_window env c) = rc_client c ∧
  tls_required (afrom_cs_response_window env c) = tls_required c ∧
  limit (afrom_cs_response_window env c) = limit c ∧
  server_cs (afrom_cs_response_window env c) = server_cs c.
Proof. unfold afrom_cs_response_window. by case_match. Qed.

Lemma afrom_cs_limit_fields c :
  rc_client (afrom_cs_limit c) = rc_client c ∧
  tls_required (afrom_cs_limit c) = tls_required c ∧
  server_cs (afrom_cs_limit c) = server_cs c.
Proof. unfold afrom_cs_limit. by case_match. Qed.

Lemma afrom_cs_secret_fields cs c c1 :
  afrom_cs_secret cs c = Some c1 →
  tls_required c1 = tls_required c ∧ server_cs c1 = server_cs c ∧
  ipaddr (rc_client c1) = ipaddr (rc_client c) ∧
  proto (rc_client c1) = proto (rc_client c) ∧
  server (rc_client c1) = server (rc_client c) ∧
  longname (rc_client c1) = longname (rc_client c) ∧
  shortname (rc_client c1) = shortname (rc_client c).
Proof.
  unfold afrom_cs_secret.
  repeat case_match; try done; intros [= <-];
    rewrite ?(proj1 (afrom_cs_limit_fields _)),
      ?(proj1 (proj2 (afrom_cs_limit_fields _))),
      ?(proj2 (proj2 (afrom_cs_limit_fields _))); done.
Qed.

Lemma afrom_cs_proto_transport s c c1 s1 :
  afrom_cs_proto s c = Some (c1, s1) →
  transport_of (hs_proto s) (tls_required c) (proto (rc_client c1))
    (tls_required c1).
Proof.
  unfold afrom_cs_proto, transport_of. destruct (hs_proto s) as [str|].
  - repeat case_bool_decide; try done; intros [= <- <-]; simpl; subst;
      tauto.
  - by intros [= <- <-].
Qed.

Lemma afrom_cs_proto_unknown s c str :
  hs_proto s = Some str →
  str ≠ "udp" → str ≠ "tcp" → str ≠ "tls" → str ≠ "radsec" → str ≠ "*" →
  afrom_cs_proto s c = None.
Proof.
  intros Hs ? ? ? ? ?. unfold afrom_cs_proto. rewrite Hs.
  by rewrite !bool_decide_eq_false_2.
Qed.

(** X10 — The transport of a client built from a section. With [hp] the
    value of the "proto" item as the parser left it: the client is UDP
    when [hp] is NULL or "udp", TCP when it is "tcp", TCP with TLS
    required when it is "tls" or "radsec", and of the wildcard transport
    when it is "*"; in the cases without TLS the TLS flag is as parsed.
    Any other string, "any" included, makes the builder return NULL. *)
Theorem client_afrom_cs_transport :
  (∀ env srv s cs server_cs c s',
     client_afrom_cs env srv s cs server_cs = (Built c, s') →
     let parsed :=
       cf_section_parse cs
         (set_cl_ipaddr s {| af := 0; addr := 0; prefix := 0 |}) in
     transport_of (hs_proto parsed.2) (tls_required parsed.1.2)
       (proto (rc_client c)) (tls_required c)) ∧
  (∀ env srv s cs server_cs str,
     hs_proto
       (cf_section_parse cs
          (set_cl_ipaddr s {| af := 0; addr := 0; prefix := 0 |})).2
     = Some str →
     str ≠ "udp" → str ≠ "tcp" → str ≠ "tls" → str ≠ "radsec" →
     str ≠ "*" →
     (client_afrom_cs env srv s cs server_cs).1 = Failed).
Proof.
  split.
  - intros env srv s cs server_cs c s'
      (name2 & rcode & c0 & sp & c1 & c2 & c3 & s3 & c4 &
       Hn & Hparse & H1 & H2 & H3 & H4 & H5)%client_afrom_cs_Built.
    rewrite Hparse. simpl.
    pose proof (afrom_cs_proto_transport _ _ _ _ H3) as Ht.
    destruct (afrom_cs_server_fields _ _ _ _ H1) as (Ht1 & _).
    destruct (afrom_cs_ipaddr_fields _ _ _ _ _ _ H2) as (Ht2 & _).
    destruct (afrom_cs_src_ipaddr_fields _ _ _ _ _ H4) as (Hc4 & Ht4 & _).
    destruct (afrom_cs_response_window_fields env c4) as (Hc5 & Ht5 & _).
    destruct (afrom_cs_secret_fields _ _ _ H5) as (Ht6 & _ & _ & Hp6 & _).
    by rewrite Ht6, Ht5, Ht4, Hp6, Hc5, Hc4, <- Ht1, <- Ht2.
  - intros env srv s cs server_cs str Hs ? ? ? ? ?. unfold client_afrom_cs.
    destruct (cf_section_name2 cs) as [name2|]; [|done].
    destruct (cf_section_rules_push cs <? 0)%Z; [done|].
    destruct (cf_section_parse cs _) as [[rcode c0] sp] eqn:Hparse.
    simpl in Hs.
    destruct (rcode <? 0)%Z; [done|].
    destruct (afrom_cs_server srv server_cs c0) as [c1|]; [|done].
    destruct (afrom_cs_ipaddr env cs name2 sp c1) as [c2|]; [|done].
    by rewrite (afrom_cs_proto_unknown sp c2 str).
Qed.

Lemma client_afrom_cs_transport_witness :
  transport_of (Some "tcp") false
    (proto (rc_client ExampleB.nas_tcp_built))
    (tls_required ExampleB.nas_tcp_built) ∧
  (client_afrom_cs ExampleB.env Example.srv ExampleB.no_statics
     (ExampleB.nas (Example.ip4 192 0 2 1 32) (Some "any")
        (Some "testing123")) None).1 = Failed.
Proof.
  destruct client_afrom_cs_transport as (Hbuilt & Hunknown).
  split.
  - apply (Hbuilt ExampleB.env Example.srv ExampleB.no_statics
             ExampleB.nas_tcp None ExampleB.nas_tcp_built
             ExampleB.nas_tcp_after).
    vm_compute; reflexivity.
  - apply (Hunknown ExampleB.env Example.srv ExampleB.no_statics
             (ExampleB.nas (Example.ip4 192 0 2 1 32) (Some "any")
                (Some "testing123")) None "any");
      [vm_compute; reflexivity | discriminate..].
Defined.

Lemma no_secret_test c :
  match secret c with None => true | Some str => bool_decide (str = "") end
  = true ↔ no_secret c.
Proof.
  unfold no_secret. destruct (secret c) as [str|]; [|by split; auto].
  rewrite bool_decide_eq_true. split; [intros ->; by right|].
  by intros [?|[= ->]].
Qed.

Lemma afrom_cs_secret_cases cs c c1 :
  afrom_cs_secret cs c = Some c1 →
  (¬ no_secret (rc_client c) ∧ c1 = afrom_cs_limit c) ∨
  (no_secret (rc_client c) ∧ cf_pair_dhcp cs = Some "yes" ∧ c1 = c) ∨
  (no_secret (rc_client c) ∧ cf_pair_dhcp cs ≠ Some "yes" ∧
   tls_required c = true ∧
   c1 = afrom_cs_limit
          (set_rc_client c (set_secret (rc_client c) (Some "radsec")))).
Proof.
  unfold afrom_cs_secret.
  destruct (match secret (rc_client c) with
            | None => true | Some str => bool_decide (str = "") end) eqn:E.
  - apply no_secret_test in E.
    destruct (cf_pair_dhcp cs) as [v|] eqn:Hd.
    + case_bool_decide as Hv.
      * intros [= <-]. right; left. by subst.
      * destruct (tls_required c); [|done]. intros [= <-]. right; right.
        repeat split; try done. by intros [= ->].
    + destruct (tls_required c); [|done]. intros [= <-]. right; right. done.
  - intros [= <-]. left. split; [|done]. intros H%no_secret_test. congruence.
Qed.

(** X11 — The secret of a client built from a section. The client has a
    secret of at least one character unless the section says
    "dhcp = yes": a secret that is there is kept as parsed, and a missing
    or empty one is replaced by "radsec", which happens only for a client
    that requires TLS. A section without a secret that neither says
    "dhcp = yes" nor asks for TLS makes the builder return NULL. *)
Theorem client_afrom_cs_secret :
  (∀ env srv s cs server_cs c s',
     client_afrom_cs env srv s cs server_cs = (Built c, s') →
     let parsed :=
       rc_client
         (cf_section_parse cs
            (set_cl_ipaddr s {| af := 0; addr := 0; prefix := 0 |})).1.2 in
     (¬ no_secret parsed ∧ secret (rc_client c) = secret parsed) ∨
     (no_secret parsed ∧ cf_pair_dhcp cs = Some "yes" ∧
      secret (rc_client c) = secret parsed) ∨
     (no_secret parsed ∧ secret (rc_client c) = Some "radsec" ∧
      tls_required c = true)) ∧
  (∀ env srv s cs server_cs c s',
     client_afrom_cs env srv s cs server_cs = (Built c, s') →
     cf_pair_dhcp cs ≠ Some "yes" → ¬ no_secret (rc_client c)).
Proof.
  assert (∀ env srv s cs server_cs c s',
    client_afrom_cs env srv s cs server_cs = (Built c, s') →
    ∃ c4, secret (rc_client c4)
          = secret (rc_client
                      (cf_section_parse cs
                         (set_cl_ipaddr s
                            {| af := 0; addr := 0; prefix := 0 |})).1.2) ∧
          afrom_cs_secret cs c4 = Some c) as Hstep.
  { intros env srv s cs server_cs c s'
      (name2 & rcode & c0 & sp & c1 & c2 & c3 & s3 & c4 &
       Hn & Hparse & H1 & H2 & H3 & H4 & H5)%client_afrom_cs_Built.
    exists (afrom_cs_response_window env c4). split; [|done].
    rewrite Hparse. simpl.
    destruct (afrom_cs_server_fields _ _ _ _ H1) as (_ & _ & Hs1 & _).
    destruct (afrom_cs_ipaddr_fields _ _ _ _ _ _ H2) as (_ & _ & Hs2 & _).
    destruct (afrom_cs_proto_fields _ _ _ _ H3) as (_ & Hs3 & _).
    destruct (afrom_cs_src_ipaddr_fields _ _ _ _ _ H4) as (Hc4 & _).
    destruct (afrom_cs_response_window_fields env c4) as (Hc5 & _).
    by rewrite Hc5, Hc4, Hs3, Hs2, Hs1. }
  split.
  - intros env srv s cs server_cs c s' (c4 & Hsec & H5)%Hstep. simpl.
    unfold no_secret. rewrite <- Hsec.
    destruct (afrom_cs_secret_cases _ _ _ H5)
      as [(Hno & ->)|[(Hno & Hd & ->)|(Hno & Hd & Htls & ->)]].
    + left. by rewrite (proj1 (afrom_cs_limit_fields c4)).
    + right; left. done.
    + right; right. split; [done|].
      rewrite (proj1 (afrom_cs_limit_fields _)),
        (proj1 (proj2 (afrom_cs_limit_fields _))). done.
  - intros env srv s cs server_cs c s' (c4 & Hsec & H5)%Hstep Hd.
    destruct (afrom_cs_secret_cases _ _ _ H5)
      as [(Hno & ->)|[(Hno & Hd' & ->)|(Hno & _ & Htls & ->)]].
    + by rewrite (proj1 (afrom_cs_limit_fields c4)).
    + done.
    + rewrite (proj1 (afrom_cs_limit_fields _)). simpl.
      by intros [?|?].
Qed.

Lemma client_afrom_cs_secret_witness :
  ¬ no_secret (rc_client ExampleB.nas_tcp_built).
Proof.
  destruct client_afrom_cs_secret as (_ & Hsecret).
  apply (Hsecret ExampleB.env Example.srv ExampleB.no_statics
           ExampleB.nas_tcp None ExampleB.nas_tcp_built
           ExampleB.nas_tcp_after).
  - vm_compute; reflexivity.
  - discriminate.
Defined.

Lemma afrom_cs_limit_ok c :
  (proto (rc_client c) = IPPROTO_TCP ∨ proto (rc_client c) = IPPROTO_IP →
   limit_ok (limit (afrom_cs_limit c)) ∧
   max_connections (limit (afrom_cs_limit c)) = max_connections (limit c)) ∧
  (proto (rc_client c) ≠ IPPROTO_TCP → proto (rc_client c) ≠ IPPROTO_IP →
   afrom_cs_limit c = c) ∧
  (limit_ok (limit c) → afrom_cs_limit c = c).
Proof.
  unfold afrom_cs_limit, limit_ok, IPPROTO_TCP, IPPROTO_IP.
  destruct c as [r tls [mc life idle] w src scs]; simpl.
  destruct (Z.eqb_spec (proto r) 6) as [Hp|Hp];
    destruct (Z.eqb_spec (proto r) 0) as [Hq|Hq]; simpl;
    (split; [|split]); try (intros; lia); try done;
    try (intros _;
         destruct (Z.ltb_spec 0 idle), (Z.ltb_spec idle 5); simpl;
         destruct (Z.ltb_spec 0 life), (Z.ltb_spec life 5); simpl;
         repeat match goal with
                | |- context [Z.ltb ?a ?b] => destruct (Z.ltb_spec a b)
                end; simpl; (split; [|done]); lia);
    try (intros (Hi & Hl & Hil);
         destruct (Z.ltb_spec 0 idle), (Z.ltb_spec idle 5); simpl;
         try lia;
         destruct (Z.ltb_spec 0 life), (Z.ltb_spec life 5); simpl;
         try lia;
         repeat match goal with
                | |- context [Z.ltb ?a ?b] => destruct (Z.ltb_spec a b)
                end; simpl; try done; lia).
Qed.

Lemma afrom_cs_limit_floor c :
  proto (rc_client c) = IPPROTO_TCP ∨ proto (rc_client c) = IPPROTO_IP →
  lifetime (limit (afrom_cs_limit c)) = floor5 (lifetime (limit c)) ∧
  ((0 < floor5 (lifetime (limit c)) < floor5 (idle_timeout (limit c)))%Z →
   idle_timeout (limit (afrom_cs_limit c)) = 0%Z) ∧
  (¬ (0 < floor5 (lifetime (limit c)) < floor5 (idle_timeout (limit c)))%Z →
   idle_timeout (limit (afrom_cs_limit c))
   = floor5 (idle_timeout (limit c))).
Proof.
  unfold afrom_cs_limit, floor5, IPPROTO_TCP, IPPROTO_IP.
  destruct c as [r tls [mc life idle] w src scs]; simpl.
  intros Hp.
  assert (((proto r =? 6) || (proto r =? 0))%Z = true) as ->.
  { apply orb_true_iff. rewrite !Z.eqb_eq. done. }
  destruct (Z.ltb_spec 0 idle), (Z.ltb_spec idle 5); simpl;
    destruct (Z.ltb_spec 0 life), (Z.ltb_spec life 5); simpl;
    repeat match goal with
           | |- context [Z.ltb ?a ?b] => destruct (Z.ltb_spec a b)
           end; simpl; (split; [done|]); split; intros; try done; lia.
Qed.

(** X12 — The connection limits of a client built from a section. For
    a client with a secret (every client but one excused by
    "dhcp = yes") that is TCP or of the wildcard transport: the lifetime
    is the parsed one, raised to 5 when it was strictly between 0 and 5;
    the idle timeout is the parsed one, raised to 5 in the same way, and
    then cleared to 0 when the lifetime is not zero and the idle timeout
    is above it; the connection count is as parsed. The limits that
    result are within their floors. For a UDP client, and for limits
    already within these floors, the limits are exactly as parsed. *)
Theorem client_afrom_cs_limit env srv s cs server_cs c s' :
  client_afrom_cs env srv s cs server_cs = (Built c, s') →
  ¬ no_secret (rc_client c) →
  let parsed :=
    limit (cf_section_parse cs
             (set_cl_ipaddr s {| af := 0; addr := 0; prefix := 0 |})).1.2 in
  (proto (rc_client c) = IPPROTO_TCP ∨ proto (rc_client c) = IPPROTO_IP →
   max_connections (limit c) = max_connections parsed ∧
   lifetime (limit c) = floor5 (lifetime parsed) ∧
   ((0 < floor5 (lifetime parsed) < floor5 (idle_timeout parsed))%Z →
    idle_timeout (limit c) = 0%Z) ∧
   (¬ (0 < floor5 (lifetime parsed) < floor5 (idle_timeout parsed))%Z →
    idle_timeout (limit c) = floor5 (idle_timeout parsed)) ∧
   limit_ok (limit c)) ∧
  (proto (rc_client c) = IPPROTO_UDP → limit c = parsed) ∧
  (limit_ok parsed → limit c = parsed) ∧
  (∀ x, (0 < x < 5)%Z → floor5 x = 5%Z) ∧
  (∀ x, ¬ (0 < x < 5)%Z → floor5 x = x).
Proof.
  intros (name2 & rcode & c0 & sp & c1 & c2 & c3 & s3 & c4 &
          Hn & Hparse & H1 & H2 & H3 & H4 & H5)%client_afrom_cs_Built Hsec.
  rewrite Hparse. simpl.
  destruct (afrom_cs_server_fields _ _ _ _ H1) as (_ & Hl1 & _).
  destruct (afrom_cs_ipaddr_fields _ _ _ _ _ _ H2) as (_ & Hl2 & _).
  destruct (afrom_cs_proto_fields _ _ _ _ H3) as (Hl3 & _).
  destruct (afrom_cs_src_ipaddr_fields _ _ _ _ _ H4) as (Hc4 & _ & Hl4 & _).
  destruct (afrom_cs_response_window_fields env c4) as (Hc5 & _ & Hl5 & _).
  assert (limit (afrom_cs_response_window env c4) = limit c0) as Hl
    by by rewrite Hl5, Hl4, Hl3, Hl2, Hl1.
  set (c5 := afrom_cs_response_window env c4) in *.
  assert (∃ c6, c = afrom_cs_limit c6 ∧ limit c6 = limit c0 ∧
                proto (rc_client c6) = proto (rc_client c)) as
    (c6 & -> & Hl6 & Hp6).
  { destruct (afrom_cs_secret_cases _ _ _ H5)
      as [(Hno & ->)|[(Hno & Hd & ->)|(Hno & Hd & Htls & ->)]].
    - exists c5. by rewrite (proj1 (afrom_cs_limit_fields c5)).
    - done.
    - eexists. split; [done|]. split; [done|].
      by rewrite (proj1 (afrom_cs_limit_fields _)). }
  destruct (afrom_cs_limit_ok c6) as (Htcp & Hudp & Hok).
  rewrite <- Hl6. split; [|split; [|split; [|split]]].
  - intros Hp. rewrite <- Hp6 in Hp.
    destruct (Htcp Hp) as [Hlim Hmc].
    destruct (afrom_cs_limit_floor c6 Hp) as (Hlife & Hclear & Hkeep).
    done.
  - intros Hp. rewrite Hudp; [done | rewrite Hp6, Hp; done..].
  - intros Hlim. by rewrite Hok.
  - intros x Hx. unfold floor5.
    destruct (Z.ltb_spec 0 x), (Z.ltb_spec x 5); simpl; lia.
  - intros x Hx. unfold floor5.
    destruct (Z.ltb_spec 0 x), (Z.ltb_spec x 5); simpl; lia.
Qed.

Lemma client_afrom_cs_limit_witness :
  max_connections (limit ExampleB.nas_tcp_built) = 16%Z ∧
  lifetime (limit ExampleB.nas_tcp_built) = 5%Z ∧
  idle_timeout (limit ExampleB.nas_tcp_built) = 0%Z.
Proof.
  destruct (client_afrom_cs_limit ExampleB.env Example.srv
              ExampleB.no_statics ExampleB.nas_tcp None
              ExampleB.nas_tcp_built ExampleB.nas_tcp_after)
    as (Htcp & _).
  - vm_compute; reflexivity.
  - intros [H|H]; discriminate.
  - destruct Htcp as (Hmc & Hlife & Hclear & _); [by left|].
    split; [exact Hmc|]. split; [exact Hlife|].
    apply Hclear. vm_compute. done.
Defined.

(** X13 — The virtual server and the names of a client built from a
    section. A section that names a virtual server, inside a server
    section, makes the builder return NULL, as does the name of a virtual
    server that does not exist. A client that is built inside a server
    section belongs to that server, under the server's second name; a
    client built elsewhere keeps the server it names, which exists. The
    section has one of "ipaddr", "ipv4addr" and "ipv6addr": the client's
    address is what the parser left in [cl_ipaddr], its long name is the
    printed address, and its short name is the parsed one or, failing
    that, the second name of the section. *)
Theorem client_afrom_cs_names :
  (∀ env srv s cs outer c s',
     client_afrom_cs env srv s cs outer = (Built c, s') →
     let parsed :=
       cf_section_parse cs
         (set_cl_ipaddr s {| af := 0; addr := 0; prefix := 0 |}) in
     match outer with
     | Some (name2, scs) =>
         server (rc_client parsed.1.2) = None ∧
         server (rc_client c) = name2 ∧ server_cs c = Some scs
     | None =>
         server (rc_client c) = server (rc_client parsed.1.2) ∧
         match server (rc_client c) with
         | Some name => is_Some (srv !! name) ∧ server_cs c = srv !! name
         | None => server_cs c = server_cs parsed.1.2
         end
     end ∧
     cf_pair_find_ipaddr cs = true ∧
     ipaddr (rc_client c) = cl_ipaddr parsed.2 ∧
     longname (rc_client c) = Some (fr_inet_ntoh env (cl_ipaddr parsed.2)) ∧
     shortname (rc_client c)
     = match shortname (rc_client parsed.1.2) with
       | Some n => Some n
       | None => cf_section_name2 cs
       end) ∧
  (∀ env srv s cs outer name,
     server
       (rc_client
          (cf_section_parse cs
             (set_cl_ipaddr s {| af := 0; addr := 0; prefix := 0 |})).1.2)
     = Some name →
     is_Some outer ∨ srv !! name = None →
     (client_afrom_cs env srv s cs outer).1 = Failed).
Proof.
  split.
  - intros env srv s cs outer c s'
      (name2 & rcode & c0 & sp & c1 & c2 & c3 & s3 & c4 &
       Hn & Hparse & H1 & H2 & H3 & H4 & H5)%client_afrom_cs_Built.
    rewrite Hparse. simpl.
    destruct (afrom_cs_server_fields _ _ _ _ H1) as (_ & _ & _ & Hsh1).
    destruct (afrom_cs_ipaddr_fields _ _ _ _ _ _ H2)
      as (_ & _ & _ & Hsv2 & Hcs2 & Hip2 & Hln2 & Hsh2).
    destruct (afrom_cs_proto_fields _ _ _ _ H3)
      as (_ & _ & Hsv3 & Hcs3 & Hip3 & Hln3 & Hsh3 & _).
    destruct (afrom_cs_src_ipaddr_fields _ _ _ _ _ H4)
      as (Hc4 & _ & _ & Hcs4 & _).
    destruct (afrom_cs_response_window_fields env c4)
      as (Hc5 & _ & _ & Hcs5).
    destruct (afrom_cs_secret_fields _ _ _ H5)
      as (_ & Hcs6 & Hip6 & _ & Hsv6 & Hln6 & Hsh6).
    rewrite Hsv6, Hcs6, Hip6, Hln6, Hsh6, Hc5, Hcs5, Hc4, Hcs4, Hsv3, Hcs3,
      Hip3, Hln3, Hsh3, Hsv2, Hcs2, Hip2, Hln2, Hsh2, Hsh1, Hn.
    split; [|split; [|done]].
    + revert H1. unfold afrom_cs_server.
      destruct (server (rc_client c0)) as [name|] eqn:Hsrv.
      * destruct outer as [[n2 scs]|]; [done|].
        destruct (srv !! name) as [vs|] eqn:Hvs; [|done].
        intros [= <-]. simpl. rewrite Hsrv. by rewrite Hvs.
      * destruct outer as [[n2 scs]|]; intros [= <-]; simpl; [done|].
        by rewrite Hsrv.
    + revert H2. unfold afrom_cs_ipaddr. by destruct (cf_pair_find_ipaddr cs).
  - intros env srv s cs outer name Hsrv Hbad. unfold client_afrom_cs.
    destruct (cf_section_name2 cs) as [name2|]; [|done].
    destruct (cf_section_rules_push cs <? 0)%Z; [done|].
    destruct (cf_section_parse cs _) as [[rcode c0] sp] eqn:Hparse.
    simpl in Hsrv. destruct (rcode <? 0)%Z; [done|].
    unfold afrom_cs_server. rewrite Hsrv.
    destruct Hbad as [[x ->]|Hnone]; [done|].
    destruct outer; [done|]. by rewrite Hnone.
Qed.

Lemma client_afrom_cs_names_witness :
  (server (rc_client ExampleB.nas_tcp_built) = None ∧
   match server (rc_client ExampleB.nas_tcp_built) with
   | Some name =>
       is_Some (Example.srv !! name) ∧
       server_cs ExampleB.nas_tcp_built = Example.srv !! name
   | None => server_cs ExampleB.nas_tcp_built = None
   end) ∧
  true = true ∧
  ipaddr (rc_client ExampleB.nas_tcp_built) = Example.ip4 192 0 2 1 32 ∧
  longname (rc_client ExampleB.nas_tcp_built) = Some "192.0.2.1" ∧
  shortname (rc_client ExampleB.nas_tcp_built) = Some "nas1".
Proof.
  destruct client_afrom_cs_names as (Hnames & _).
  apply (Hnames ExampleB.env Example.srv ExampleB.no_statics
           ExampleB.nas_tcp None ExampleB.nas_tcp_built
           ExampleB.nas_tcp_after).
  vm_compute; reflexivity.
Defined.

(** X14 — The file-scope variables after [client_afrom_cs]. Once the
    section has a name and its rules were pushed, the builder leaves
    [hs_proto] and [cl_srcipaddr] NULL whether it returns a client or
    NULL, so that neither value is seen by the next section; before that
    point it returns NULL and leaves both as they were. *)
Theorem client_afrom_cs_statics env srv s cs server_cs :
  (client_afrom_cs env srv s cs server_cs).1 ≠ Asserted →
  (is_Some (cf_section_name2 cs) → (0 ≤ cf_section_rules_push cs)%Z →
   hs_proto (client_afrom_cs env srv s cs server_cs).2 = None ∧
   cl_srcipaddr (client_afrom_cs env srv s cs server_cs).2 = None) ∧
  (cf_section_name2 cs = None ∨ (cf_section_rules_push cs < 0)%Z →
   (client_afrom_cs env srv s cs server_cs).1 = Failed ∧
   hs_proto (client_afrom_cs env srv s cs server_cs).2 = hs_proto s ∧
   cl_srcipaddr (client_afrom_cs env srv s cs server_cs).2 = cl_srcipaddr s).
Proof.
  unfold client_afrom_cs.
  destruct (cf_section_name2 cs) as [name2|].
  2:{ intros _. split; [by intros [? ?]|done]. }
  destruct (Z.ltb_spec (cf_section_rules_push cs) 0).
  { intros _. split; [lia|done]. }
  intros Hna. split; [|intros [?|?]; [done|lia]]. intros _ _. revert Hna.
  destruct (cf_section_parse cs _) as [[rcode c0] sp].
  destruct (rcode <? 0)%Z; [done|].
  destruct (afrom_cs_server srv server_cs c0) as [c1|]; [|done].
  destruct (afrom_cs_ipaddr env cs name2 sp c1) as [c2|]; [|done].
  destruct (afrom_cs_proto sp c2) as [[c3 s3]|] eqn:H3; [|done].
  destruct (afrom_cs_proto_fields _ _ _ _ H3) as (_ & _ & _ & _ & _ & _ & _ & Hp & _).
  destruct (afrom_cs_src_ipaddr env s3 c3) as [[c4 s4]| |] eqn:H4; try done.
  destruct (afrom_cs_src_ipaddr_fields _ _ _ _ _ H4)
    as (_ & _ & _ & _ & Hp4 & Hs4).
  destruct (afrom_cs_secret cs (afrom_cs_response_window env c4)); [|done].
  intros _. simpl. by rewrite Hp4, Hp.
Qed.

Lemma client_afrom_cs_statics_witness :
  (is_Some (cf_section_name2 ExampleB.nas_tcp) →
   (0 ≤ cf_section_rules_push ExampleB.nas_tcp)%Z →
   hs_proto
     (client_afrom_cs ExampleB.env Example.srv ExampleB.no_statics
        ExampleB.nas_tcp None).2 = None ∧
   cl_srcipaddr
     (client_afrom_cs ExampleB.env Example.srv ExampleB.no_statics
        ExampleB.nas_tcp None).2 = None) ∧
  (cf_section_name2 ExampleB.nas_tcp = None ∨
   (cf_section_rules_push ExampleB.nas_tcp < 0)%Z →
   (client_afrom_cs ExampleB.env Example.srv ExampleB.no_statics
      ExampleB.nas_tcp None).1 = Failed ∧
   hs_proto
     (client_afrom_cs ExampleB.env Example.srv ExampleB.no_statics
        ExampleB.nas_tcp None).2 = hs_proto ExampleB.no_statics ∧
   cl_srcipaddr
     (client_afrom_cs ExampleB.env Example.srv ExampleB.no_statics
        ExampleB.nas_tcp None).2 = cl_srcipaddr ExampleB.no_statics).
Proof.
  apply (client_afrom_cs_statics ExampleB.env Example.srv
           ExampleB.no_statics ExampleB.nas_tcp None).
  vm_compute. discriminate.
Defined.

(** ** Clients of the wildcard transport *)

(** A record that [client_add] has just stored is what a lookup of its
    own address key returns, for its own transport, and for every
    transport when its transport is the wildcard. *)
Lemma client_add_find_stored st h c st' c1 p st1 pr :
  client_add st h (Some c) = Some (true, st') →
  tree_num_max st' ≠ tree_num_max st →
  wildcard_fixup c = Some c1 →
  client_add_clients st h c1 = Some (p, st1) →
  client_find_max_prefix (ipaddr c1) = Some (prefix (ipaddr c1)) →
  fr_ipaddr_mask (ipaddr c1) (prefix (ipaddr c1)) = ipaddr c1 →
  pr = proto c1 ∨ proto c1 = IPPROTO_IP →
  client_find st' (Some p) (Some (ipaddr c1)) pr
  = Some (set_number c1 (tree_num_max st)).
Proof.
  intros Hadd Hfresh Hfix Hc Hm Hmask Hpr.
  apply client_add_inv in Hadd
    as (c1' & Hfix' & [(_ & ? & _)|(p' & st0 & cl & slot & Hc' & Hp & Hs & H)]);
    [done|].
  rewrite Hfix in Hfix'. injection Hfix' as <-.
  rewrite Hc in Hc'. injection Hc' as <- <-.
  destruct H as [(t & old & _ & _ & _ & _ & ->)|(Hfind & _ & Hmax & ->)];
    [done|].
  destruct (client_add_clients_inv _ _ _ _ _ Hc) as (_ & Hnum & _).
  rewrite Hnum. set (c' := set_number c1 (tree_num_max st)).
  rewrite (client_find_unfold _ _ _ _ (inserted cl (default [] slot) c')
             (prefix (ipaddr c1)));
    [|by unfold list_of; simpl; apply list_lookup_insert_eq,
         (lookup_lt_Some _ _ _ Hp) | done].
  pose proof (inserted_min_prefix cl (default [] slot) c') as Hmin.
  assert (prefix (ipaddr c') = prefix (ipaddr c1)) as Hpc by done.
  rewrite Hpc in Hmin.
  set (cl' := inserted cl (default [] slot) c') in *.
  assert (trees cl' = <[prefix (ipaddr c1) := Some (default [] slot ++ [c'])]>
                        (trees cl)) as Htrees by done.
  clearbody cl'.
  replace (S (prefix (ipaddr c1)) - min_prefix cl')
    with (S (prefix (ipaddr c1) - min_prefix cl')) by lia.
  cbn [client_find_loop].
  replace (min_prefix cl' + (prefix (ipaddr c1) - min_prefix cl'))
    with (prefix (ipaddr c1)) by lia.
  unfold client_find_probe. rewrite Htrees.
  rewrite list_lookup_insert_eq by apply (lookup_lt_Some _ _ _ Hs).
  rewrite Hmask, rbtree_finddata_snoc.
  - rewrite (proj2 (Z.eqb_eq _ _)); [done|].
    apply client_ipaddr_cmp_eq. split; [done|]. simpl.
    destruct Hpr as [-> | ->]; auto.
  - apply rbtree_finddata_None. intros x Hx Hcmp.
    apply (proj1 (rbtree_finddata_None _ _ _) Hfind x Hx).
    apply client_ipaddr_cmp_eq in Hcmp as [Hi Hpx].
    apply client_ipaddr_cmp_eq. split; [done|].
    simpl in Hpx. destruct Hpr as [-> | ->]; auto.
Qed.

(** X15 — A client built by [client_afrom_query]. The builder returns
    NULL exactly when the identifier does not parse. Otherwise the
    client carries the parsed address, the printed address as long name,
    and the secret, short name, NAS type, virtual server and
    message-authenticator flag it was given; its transport is never
    assigned and so is the wildcard [IPPROTO_IP], TLS is not required,
    and its number is 0. Hence, once [client_add] has stored it, a
    lookup of its address finds it under every transport. *)
Theorem client_afrom_query_wildcard :
  (∀ env identifier sec sn ty sv ma,
     client_afrom_query env identifier sec sn ty sv ma = None ↔
     fr_inet_pton env identifier = None) ∧
  (∀ env identifier sec sn ty sv ma c,
     client_afrom_query env identifier sec sn ty sv ma = Some c →
     fr_inet_pton env identifier = Some (ipaddr (rc_client c)) ∧
     longname (rc_client c)
     = Some (fr_inet_ntoh env (ipaddr (rc_client c))) ∧
     secret (rc_client c) = sec ∧ shortname (rc_client c) = sn ∧
     nas_type (rc_client c) = ty ∧ server (rc_client c) = sv ∧
     message_authenticator (rc_client c) = ma ∧
     proto (rc_client c) = IPPROTO_IP ∧ tls_required c = false ∧
     number (rc_client c) = 0%Z) ∧
  (∀ env identifier sec sn ty sv ma c st h st' c1 p st1 pr,
     client_afrom_query env identifier sec sn ty sv ma = Some c →
     client_add st h (Some (rc_client c)) = Some (true, st') →
     tree_num_max st' ≠ tree_num_max st →
     wildcard_fixup (rc_client c) = Some c1 →
     client_add_clients st h c1 = Some (p, st1) →
     client_find_max_prefix (ipaddr c1) = Some (prefix (ipaddr c1)) →
     fr_ipaddr_mask (ipaddr c1) (prefix (ipaddr c1)) = ipaddr c1 →
     client_find st' (Some p) (Some (ipaddr c1)) pr
     = Some (set_number c1 (tree_num_max st))).
Proof.
  assert (∀ env identifier sec sn ty sv ma c,
    client_afrom_query env identifier sec sn ty sv ma = Some c →
    fr_inet_pton env identifier = Some (ipaddr (rc_client c)) ∧
    longname (rc_client c)
    = Some (fr_inet_ntoh env (ipaddr (rc_client c))) ∧
    secret (rc_client c) = sec ∧ shortname (rc_client c) = sn ∧
    nas_type (rc_client c) = ty ∧ server (rc_client c) = sv ∧
    message_authenticator (rc_client c) = ma ∧
    proto (rc_client c) = IPPROTO_IP ∧ tls_required c = false ∧
    number (rc_client c) = 0%Z) as Hfields.
  { intros env identifier sec sn ty sv ma c. unfold client_afrom_query.
    destruct (fr_inet_pton env identifier) as [a|]; [|done].
    intros [= <-]. destruct sn, ty, sv; simpl; repeat split; done. }
  split; [|split; [done|]].
  - intros env identifier sec sn ty sv ma. unfold client_afrom_query.
    by destruct (fr_inet_pton env identifier).
  - intros env identifier sec sn ty sv ma c st h st' c1 p st1 pr Hq Hadd
      Hfresh Hfix Hc Hm Hmask.
    destruct (Hfields _ _ _ _ _ _ _ _ Hq)
      as (_ & _ & _ & _ & _ & _ & _ & Hproto & _).
    eapply client_add_find_stored; try done. right.
    destruct (wildcard_fixup_fields _ _ Hfix) as [->|[-> _]]; done.
Qed.

Lemma client_afrom_query_wildcard_witness :
  (client_afrom_query ExampleB.env "192.0.2.1" (Some "sql") None None None
     false = None ↔
   fr_inet_pton ExampleB.env "192.0.2.1" = None) ∧
  proto (rc_client ExampleB.sql_client) = IPPROTO_IP ∧
  client_find ExampleB.st_sql (Some 0) (Some (Example.ip4 192 0 2 1 32))
    IPPROTO_TCP
  = Some (set_number (rc_client ExampleB.sql_client) 3).
Proof.
  destruct client_afrom_query_wildcard as (Hnull & Hfields & Hfind).
  split; [apply Hnull|]. split.
  - apply (Hfields ExampleB.env "192.0.2.1" (Some "sql") None None None
             false ExampleB.sql_client).
    vm_compute; reflexivity.
  - apply (Hfind ExampleB.env "192.0.2.1" (Some "sql") None None None false
             ExampleB.sql_client Example.st3 None ExampleB.st_sql
             (rc_client ExampleB.sql_client) 0 Example.st3 IPPROTO_TCP);
      try (vm_compute; reflexivity).
    discriminate.
Defined.

(** ** Parsing the clients of a section *)

Lemma stored_inserted_mono cl t c e :
  length (trees cl) = 129 ∨ prefix (ipaddr c) < length (trees cl) →
  (∀ t0, trees cl !! prefix (ipaddr c) = Some (Some t0) → t = t0) →
  stored cl e → stored (inserted cl t c) e.
Proof.
  intros _ Ht (i & t0 & Hi & He). unfold stored. cbn [inserted trees].
  destruct (decide (i = prefix (ipaddr c))) as [->|Hne].
  - exists (prefix (ipaddr c)), (t ++ [c]). split.
    + by apply list_lookup_insert_eq, (lookup_lt_Some _ _ _ Hi).
    + rewrite (Ht _ Hi). apply elem_of_app. by left.
  - exists i, t0. by rewrite list_lookup_insert_ne.
Qed.

Lemma num_inserted_kept t c e : e ∈ t → e ∈ num_inserted (Some t) c.
Proof.
  intros He. unfold num_inserted, rbtree_insert.
  destruct (rbtree_finddata client_num_cmp t c); [done|].
  apply elem_of_app. by left.
Qed.

(** Closes the cases in which a call leaves the state as it was. *)
Ltac state_unchanged :=
  split_and?; try done; try lia; eauto;
  try (by intros; left; eauto); try (by intros; constructor).

(** One call [client_add(clients, c)] with a list given: only that list
    can change, and it only grows. *)
Lemma client_add_explicit st p c b st' :
  client_add st (Some p) (Some c) = Some (b, st') →
  length (lists st') = length (lists st) ∧
  (∀ q, q ≠ p → lists st' !! q = lists st !! q) ∧
  root_clients st' = root_clients st ∧ servers st' = servers st ∧
  (tree_num_max st ≤ tree_num_max st')%Z ∧ numbers_kept st st' ∧
  (∀ cl e, lists st !! p = Some cl → stored cl e →
     ∃ cl', lists st' !! p = Some cl' ∧ stored cl' e) ∧
  (∀ cl' e, lists st' !! p = Some cl' → stored cl' e →
     (∃ cl, lists st !! p = Some cl ∧ stored cl e) ∨
     ∃ c1, wildcard_fixup c = Some c1 ∧
           e = set_number c1 (tree_num_max st) ∧
           (tree_num_max st < tree_num_max st')%Z) ∧
  (b = true → ∃ c1 cl' e, wildcard_fixup c = Some c1 ∧
     lists st' !! p = Some cl' ∧ stored cl' e ∧
     complete_duplicate e c1 = true).
Proof.
  intros Hadd.
  assert (b = true → ∃ c1 cl' e, wildcard_fixup c = Some c1 ∧
     lists st' !! p = Some cl' ∧ stored cl' e ∧
     complete_duplicate e c1 = true) as Hdup.
  { intros ->.
    destruct (client_add_true_stored _ _ _ _ Hadd)
      as (c1 & p' & cl & t & old & Hfix & Hc & Hp & Hs & Hfind & Hd).
    injection Hc as <-. exists c1, cl, old. repeat split; try done.
    exists (prefix (ipaddr c1)), t. split; [done|].
    by apply rbtree_finddata_Some in Hfind as [? _]. }
  apply client_add_inv in Hadd
    as (c1 & Hfix & [(? & _)|(p' & st1 & cl & slot & Hc & Hp & Hs & H)]);
    [done|].
  injection Hc as <- <-.
  assert (numbers_kept st st) as Hsame by (intros t e Ht He; eauto).
  destruct H as [(t & old & -> & _ & _ & _ & ->)|(Hfind & _ & Hmax & ->)].
  { state_unchanged. }
  cbn [added_state lists root_clients servers tree_num_max tree_num].
  repeat split; try done.
  - by rewrite length_insert.
  - intros q Hq. by rewrite list_lookup_insert_ne.
  - lia.
  - intros t e Ht He. eexists. split; [done|]. rewrite Ht.
    by apply num_inserted_kept.
  - intros cl0 e Hcl0 He. rewrite Hp in Hcl0. injection Hcl0 as <-.
    eexists. split.
    + by apply list_lookup_insert_eq, (lookup_lt_Some _ _ _ Hp).
    + apply stored_inserted_mono; [| |done].
      * right. apply (lookup_lt_Some _ _ _ Hs).
      * intros t0 Ht0. simpl in Ht0. rewrite Hs in Ht0.
        by injection Ht0 as ->.
  - intros cl' e.
    rewrite list_lookup_insert_eq by apply (lookup_lt_Some _ _ _ Hp).
    intros [= <-] He.
    apply stored_inserted in He as [->|He]; [|by left; eauto|done].
    right. exists c1. repeat split; [done|lia].
Qed.

(** What the loop over the subsections leaves behind, however it ends. *)
Lemma parse_section_loop_inv env subsections :
  ∀ st s p scs tls b st' s',
  parse_section_loop env st s p scs tls subsections = Some (b, st', s') →
  length (lists st') = length (lists st) ∧
  (∀ q, q ≠ p → lists st' !! q = lists st !! q) ∧
  root_clients st' = root_clients st ∧ servers st' = servers st ∧
  (tree_num_max st ≤ tree_num_max st')%Z ∧ numbers_kept st st' ∧
  (state_wf st → state_wf st') ∧
  (∀ cl e, lists st !! p = Some cl → stored cl e →
     ∃ cl', lists st' !! p = Some cl' ∧ stored cl' e) ∧
  (∀ cl' e, lists st' !! p = Some cl' → stored cl' e →
     (∃ cl, lists st !! p = Some cl ∧ stored cl e) ∨
     ∃ cs c c1, cs ∈ subsections ∧
       parsed_with env (servers st) scs tls cs c ∧
       wildcard_fixup (rc_client c) = Some c1 ∧
       e = set_number c1 (number e) ∧
       (tree_num_max st ≤ number e < tree_num_max st')%Z) ∧
  (b = true →
   Forall (λ cs, ∃ c c1 cl' e,
             parsed_with env (servers st) scs tls cs c ∧
             wildcard_fixup (rc_client c) = Some c1 ∧
             lists st' !! p = Some cl' ∧ stored cl' e ∧
             complete_duplicate e c1 = true) subsections).
Proof.
  assert (∀ st, numbers_kept st st) as Hsame by (intros st t e Ht He; eauto).
  induction subsections as [|cs rest IH]; intros st s p scs tls b st' s' H.
  { injection H as <- <- <-. state_unchanged. }
  cbn [parse_section_loop] in H.
  destruct (client_afrom_cs env (servers st) s cs scs) as [[c| |] s1] eqn:Hb;
    [|injection H as <- <- <-; state_unchanged|done].
  case_bool_decide as Htls.
  { injection H as <- <- <-. state_unchanged. }
  destruct (client_add st (Some p) (Some (rc_client c)))
    as [[[] st1]|] eqn:Hadd; [| |done].
  2:{ injection H as <- <- <-.
      apply client_add_false_unchanged in Hadd as ->.
      state_unchanged. }
  pose proof (client_add_explicit _ _ _ _ _ Hadd)
    as (Hlen & Hoth & Hroot & Hsrv & Hmax & Hnum & Hkeep & Hnew & Hdup).
  destruct (IH _ _ _ _ _ _ _ _ H)
    as (Hlen' & Hoth' & Hroot' & Hsrv' & Hmax' & Hnum' & Hwf' & Hkeep'
        & Hnew' & Hall').
  assert (parsed_with env (servers st) scs tls cs c) as Hparsed
    by (exists s, s1; done).
  split_and?.
  - congruence.
  - intros q Hq. by rewrite Hoth', Hoth.
  - congruence.
  - congruence.
  - lia.
  - intros t e Ht He. destruct (Hnum _ _ Ht He) as (t1 & Ht1 & He1). eauto.
  - intros Hwf. apply Hwf'. by eapply client_add_wf.
  - intros cl e Hcl He. destruct (Hkeep _ _ Hcl He) as (cl1 & Hcl1 & He1).
    eauto.
  - intros cl' e Hcl' He.
    destruct (Hnew' _ _ Hcl' He)
      as [(cl1 & Hcl1 & He1)|(cs' & c' & c1' & Hin & Hp' & Hfix' & -> & Hn)].
    + destruct (Hnew _ _ Hcl1 He1)
        as [Hold|(c1 & Hfix & -> & Hlt)]; [by left|].
      right. exists cs, c, c1. split; [left|]. split_and?; try done.
      all: simpl; lia.
    + right. exists cs', c', c1'. split; [by right|].
      rewrite <- Hsrv. split_and?; try done; simpl in *; lia.
  - intros ->. constructor.
    + destruct (Hdup eq_refl) as (c1 & cl1 & e & Hfix & Hcl1 & He & Hd).
      destruct (Hkeep' _ _ Hcl1 He) as (cl' & Hcl' & He').
      exists c, c1, cl', e. done.
    + rewrite <- Hsrv. by apply Hall'.
Qed.

(** The section data [cf_data_add] attaches is what [cf_section] reads. *)
Lemma cf_data_add_section cf section sec p :
  cf_section cf section = Some sec →
  cf_section (cf_data_add cf section p) section
  = Some (set_cs_clients sec (Some p)).
Proof.
  destruct section as [|n]; simpl.
  - by intros [= ->].
  - intros Hn. by rewrite lookup_alter_eq, Hn.
Qed.

(** The loop has changed nothing, or the list it fills holds a record. *)
Lemma parse_section_loop_progress env subsections :
  ∀ st s p scs tls b st' s',
  parse_section_loop env st s p scs tls subsections = Some (b, st', s') →
  st' = st ∨ ∃ cl e, lists st' !! p = Some cl ∧ stored cl e.
Proof.
  induction subsections as [|cs rest IH]; intros st s p scs tls b st' s' H.
  { injection H as <- <- <-. by left. }
  cbn [parse_section_loop] in H.
  destruct (client_afrom_cs env (servers st) s cs scs) as [[c| |] s1] eqn:Hb;
    [|injection H as <- <- <-; by left|done].
  case_bool_decide as Htls.
  { injection H as <- <- <-. by left. }
  destruct (client_add st (Some p) (Some (rc_client c)))
    as [[[] st1]|] eqn:Hadd; [| |done].
  2:{ injection H as <- <- <-.
      apply client_add_false_unchanged in Hadd as ->. by left. }
  right.
  destruct (client_add_explicit _ _ _ _ _ Hadd)
    as (_ & _ & _ & _ & _ & _ & _ & _ & Hdup).
  destruct (Hdup eq_refl) as (c1 & cl1 & e & _ & Hcl1 & He & _).
  destruct (parse_section_loop_inv _ _ _ _ _ _ _ _ _ _ H)
    as (_ & _ & _ & _ & _ & _ & _ & Hkeep & _).
  destruct (Hkeep _ _ Hcl1 He) as (cl' & Hcl' & He'). eauto.
Qed.

(** The ways [client_list_parse_section] ends, for a section with no
    list attached. *)
Lemma client_list_parse_section_inv env cf section subs tls r cf' sec :
  cf_section cf section = Some sec → cs_clients sec = None →
  client_list_parse_section env cf section subs tls = Some (r, cf') →
  let p := length (lists (registry cf)) in
  let st0 := set_lists (registry cf)
               (lists (registry cf) ++ [empty_list (Some sec)]) in
  let scs := if bool_decide (name1 sec = "server")
             then Some (cf_section_name2_of section, sec) else None in
  ∃ b st1 s1,
    parse_section_loop env st0 (parser_statics cf) p scs tls subs
    = Some (b, st1, s1) ∧
    ((b = false ∧ r = None ∧
      (∃ cl, lists st1 !! p = Some cl ∧ entries cl = []) ∧
      cf' = {| registry := set_lists st1 (take p (lists st1));
               root_section := root_section cf; parser_statics := s1 |}) ∨
     (b = true ∧ r = Some p ∧
      cf_section cf' section = Some (set_cs_clients sec (Some p)) ∧
      lists (registry cf') = lists st1 ∧
      tree_num (registry cf') = tree_num st1 ∧
      tree_num_max (registry cf') = tree_num_max st1 ∧
      root_clients (registry cf')
      = match section with
        | SecRoot => Some p
        | SecServer _ => root_clients st1
        end)).
Proof.
  intros Hsec Hnone. unfold client_list_parse_section.
  rewrite Hsec. simpl. rewrite Hnone.
  destruct (parse_section_loop _ _ _ _ _ _ _) as [[[[] st1] s1]|] eqn:Hloop;
    [| |done].
  - intros [= <- <-]. exists true, st1, s1. split; [done|]. right.
    split; [done|]. split; [done|].
    destruct section as [|n]; simpl in *.
    + by injection Hsec as <-.
    + assert (servers st1 = servers (registry cf)) as ->.
      { by destruct (parse_section_loop_inv _ _ _ _ _ _ _ _ _ _ Hloop)
          as (_ & _ & _ & -> & _). }
      by rewrite lookup_alter_eq, Hsec.
  - destruct (lists st1 !! length (lists (registry cf))) as [cl|] eqn:Hcl;
      [|done].
    simpl. destruct (entries cl) eqn:He; [|done].
    intros [= <- <-]. exists false, st1, s1. split; [done|]. left.
    split; [done|]. split; [done|]. split; [by exists cl|done].
Qed.

(** X16 — [client_list_parse_section] is forgiving: once it has returned
    a list for a section, every further call for that section returns
    the same list and changes nothing, whatever subsections the section
    then has and whatever TLS setting the caller asks for; neither is
    looked at. *)
Theorem client_list_parse_section_forgiving env cf section subs tls p cf' :
  client_list_parse_section env cf section subs tls = Some (Some p, cf') →
  ∀ subs' tls',
    client_list_parse_section env cf' section subs' tls'
    = Some (Some p, cf').
Proof.
  intros H subs' tls'.
  destruct (cf_section cf section) as [sec|] eqn:Hsec;
    [|by unfold client_list_parse_section in H; rewrite Hsec in H].
  destruct (cs_clients sec) as [q|] eqn:Hq.
  - unfold client_list_parse_section in H. rewrite Hsec in H. simpl in H.
    rewrite Hq in H. injection H as <- <-.
    unfold client_list_parse_section. rewrite Hsec. simpl. by rewrite Hq.
  - destruct (client_list_parse_section_inv _ _ _ _ _ _ _ _ Hsec Hq H)
      as (b & st1 & s1 & _ & [(_ & ? & _)|(_ & [= <-] & Hsec' & _)]);
      [done|].
    unfold client_list_parse_section. by rewrite Hsec'.
Qed.

Lemma client_list_parse_section_forgiving_witness :
  client_list_parse_section ExampleB.env ExampleP.cf_inner
    (SecServer "inner") ExampleP.clashing true
  = Some (Some 1, ExampleP.cf_inner).
Proof.
  apply (client_list_parse_section_forgiving ExampleB.env ExampleP.cf3
           (SecServer "inner") ExampleP.two_clients false).
  vm_compute; reflexivity.
Defined.

(** X17 — A successful [client_list_parse_section] for a section with no
    list attached. The list returned is new and is attached to the
    section; the lists that existed are as they were; the global list
    pointer is the new list when the section is the root of the
    configuration and is untouched otherwise. Every record the new list
    holds was built by [client_afrom_cs] from one of the subsections,
    with the TLS flag of the caller, and carries a number drawn during
    this call; and every subsection was built so and has its client, or
    a complete duplicate of it, in the list. The invariant of the state
    is kept. *)
Theorem client_list_parse_section_success env cf section subs tls p cf' sec :
  state_wf (registry cf) →
  cf_section cf section = Some sec → cs_clients sec = None →
  client_list_parse_section env cf section subs tls = Some (Some p, cf') →
  let scs := if bool_decide (name1 sec = "server")
             then Some (cf_section_name2_of section, sec) else None in
  let srv := servers (registry cf) in
  lists (registry cf) !! p = None ∧
  state_wf (registry cf') ∧
  cf_section cf' section = Some (set_cs_clients sec (Some p)) ∧
  (∀ q cl, lists (registry cf) !! q = Some cl →
           lists (registry cf') !! q = Some cl) ∧
  root_clients (registry cf')
  = match section with
    | SecRoot => Some p
    | SecServer _ => root_clients (registry cf)
    end ∧
  ∃ cl, lists (registry cf') !! p = Some cl ∧
    (∀ e, stored cl e →
       ∃ cs c c1, cs ∈ subs ∧ parsed_with env srv scs tls cs c ∧
         wildcard_fixup (rc_client c) = Some c1 ∧
         e = set_number c1 (number e) ∧
         (tree_num_max (registry cf) ≤ number e
          < tree_num_max (registry cf'))%Z) ∧
    Forall (λ cs, ∃ c c1 e, parsed_with env srv scs tls cs c ∧
              wildcard_fixup (rc_client c) = Some c1 ∧
              stored cl e ∧ complete_duplicate e c1 = true) subs.
Proof.
  intros Hwf Hsec Hq H scs srv.
  destruct (client_list_parse_section_inv _ _ _ _ _ _ _ _ Hsec Hq H)
    as (b & st1 & s1 & Hloop
        & [(_ & ? & _)|(-> & [= ->] & Hsec' & Hl & Hn & Hm & Hr)]); [done|].
  destruct (parse_section_loop_inv _ _ _ _ _ _ _ _ _ _ Hloop)
    as (Hlen & Hoth & Hroot & Hsrv & Hmax & Hnum & Hwf1 & Hkeep & Hnew & Hall).
  cbn [set_lists lists root_clients servers tree_num_max] in *.
  assert (state_wf st1) as Hwf1'.
  { apply Hwf1. apply (client_list_init_wf _ (Some sec) Hwf). }
  assert (is_Some (lists st1 !! length (lists (registry cf)))) as [cl Hcl].
  { apply lookup_lt_is_Some_2. rewrite Hlen, length_app. simpl. lia. }
  split; [by apply lookup_ge_None_2|]. split.
  { split.
    - intros q0 cl0. rewrite Hl. by apply wf_lists.
    - intros t e. rewrite Hn, Hm. by apply wf_num.
    - intros t. rewrite Hn. by apply wf_num_distinct.
    - rewrite Hm. by apply wf_num_max. }
  split; [done|]. split.
  { intros q0 cl0 Hq0. rewrite Hl, Hoth.
    - by apply lookup_app_l_Some.
    - apply lookup_lt_Some in Hq0. lia. }
  split; [by rewrite Hr; destruct section|].
  exists cl. rewrite Hl, Hm. split; [done|]. split.
  - intros e He.
    destruct (Hnew _ _ Hcl He) as [(cl0 & Hcl0 & He0)|Hcs]; [|done].
    rewrite list_lookup_middle in Hcl0 by done. injection Hcl0 as <-.
    destruct He0 as (i & t & Hi & _). by apply empty_list_trees in Hi.
  - eapply Forall_impl; [by apply Hall|].
    intros cs (c & c1 & cl' & e & Hp & Hfix & Hcl' & He & Hd). simpl in *.
    rewrite Hcl in Hcl'. injection Hcl' as <-. by exists c, c1, e.
Qed.

Lemma client_list_parse_section_success_witness :
  root_clients (registry ExampleP.cf_inner) = Some 0 ∧
  cf_section ExampleP.cf_inner (SecServer "inner")
  = Some {| name1 := "server"; listen := true; cs_clients := Some 1 |}.
Proof.
  destruct (client_list_parse_section_success ExampleB.env ExampleP.cf3
              (SecServer "inner") ExampleP.two_clients false 1
              ExampleP.cf_inner
              {| name1 := "server"; listen := true; cs_clients := None |})
    as (_ & _ & Hsec & _ & Hroot & _).
  - apply example_st3_wf.
  - vm_compute; reflexivity.
  - reflexivity.
  - vm_compute; reflexivity.
  - split; [exact Hroot | exact Hsec].
Defined.

(** A record that [client_add] stores in the list it is given is in the
    number index. *)
Lemma client_add_explicit_indexed st p c b st' :
  state_wf st → client_add st (Some p) (Some c) = Some (b, st') →
  ∀ cl' e, lists st' !! p = Some cl' → stored cl' e →
    (∃ cl, lists st !! p = Some cl ∧ stored cl e) ∨
    ∃ t, tree_num st' = Some t ∧ e ∈ t.
Proof.
  intros Hwf Hadd cl' e Hcl' He.
  apply client_add_inv in Hadd
    as (c1 & Hfix & [(? & _)|(p' & st1 & cl & slot & Hc & Hp & Hs & H)]);
    [done|].
  injection Hc as <- <-.
  destruct H as [(t & old & -> & _ & _ & _ & ->)|(Hfind & _ & Hmax & ->)];
    [by left; eauto|].
  cbn [added_state lists] in Hcl'.
  rewrite list_lookup_insert_eq in Hcl' by apply (lookup_lt_Some _ _ _ Hp).
  injection Hcl' as <-.
  apply stored_inserted in He as [->|He]; [|by left; eauto|done].
  right.
  destruct (numbered_added st p cl (default [] slot)
              (set_number c1 (tree_num_max st)) Hwf eq_refl)
    as (t & Ht & Hin & _).
  eauto.
Qed.

Lemma parse_section_loop_indexed env subsections :
  ∀ st s p scs tls b st' s',
  state_wf st →
  parse_section_loop env st s p scs tls subsections = Some (b, st', s') →
  ∀ cl' e, lists st' !! p = Some cl' → stored cl' e →
    (∃ cl, lists st !! p = Some cl ∧ stored cl e) ∨
    ∃ t, tree_num st' = Some t ∧ e ∈ t.
Proof.
  induction subsections as [|cs rest IH];
    intros st s p scs tls b st' s' Hwf H cl' e Hcl' He.
  { injection H as <- <- <-. left. eauto. }
  cbn [parse_section_loop] in H.
  destruct (client_afrom_cs env (servers st) s cs scs) as [[c| |] s1] eqn:Hb;
    [|injection H as <- <- <-; left; eauto|done].
  case_bool_decide as Htls.
  { injection H as <- <- <-. left. eauto. }
  destruct (client_add st (Some p) (Some (rc_client c)))
    as [[[] st1]|] eqn:Hadd; [| |done].
  2:{ injection H as <- <- <-.
      apply client_add_false_unchanged in Hadd as ->. left. eauto. }
  pose proof (client_add_wf _ _ _ _ _ Hwf Hadd) as Hwf1.
  destruct (IH _ _ _ _ _ _ _ _ Hwf1 H _ _ Hcl' He)
    as [(cl1 & Hcl1 & He1)|Hidx]; [|by right].
  destruct (client_add_explicit_indexed _ _ _ _ _ Hwf Hadd _ _ Hcl1 He1)
    as [Hold|(t & Ht & Hin)]; [by left|].
  right.
  destruct (parse_section_loop_inv _ _ _ _ _ _ _ _ _ _ H)
    as (_ & _ & _ & _ & _ & Hnum & _).
  by apply (Hnum t e).
Qed.

Lemma set_lists_init_take (st : state) cl :
  set_lists (set_lists st (lists st ++ [cl]))
    (take (length (lists st)) (lists st ++ [cl])) = st.
Proof.
  destruct st as [l r n m sv]. unfold set_lists. simpl.
  by rewrite take_app_length.
Qed.

(** X18 — A failed [client_list_parse_section]. When the call returns
    NULL and the list it had begun holds no record, the list is released
    and the registry and the root section are exactly as they were
    before the call; this is what happens when the first subsection
    fails to build or has another TLS setting than the listener. When
    the loop fails after a client has been stored, every record of the
    list that is released is, at that moment, in the number index, which
    is not told of the release: the index is left referring to released
    records, and the call has no result here. *)
Theorem client_list_parse_section_failure :
  (∀ env cf section subs tls cf',
     client_list_parse_section env cf section subs tls = Some (None, cf') →
     registry cf' = registry cf ∧ root_section cf' = root_section cf) ∧
  (∀ env cf section sec cs rest tls s',
     cf_section cf section = Some sec → cs_clients sec = None →
     let scs := if bool_decide (name1 sec = "server")
                then Some (cf_section_name2_of section, sec) else None in
     (client_afrom_cs env (servers (registry cf)) (parser_statics cf) cs scs
      = (Failed, s') ∨
      ∃ c, client_afrom_cs env (servers (registry cf)) (parser_statics cf)
             cs scs = (Built c, s') ∧
           tls_required c ≠ tls) →
     client_list_parse_section env cf section (cs :: rest) tls
     = Some (None, {| registry := registry cf;
                      root_section := root_section cf;
                      parser_statics := s' |})) ∧
  (∀ env cf section sec subs tls st1 s1,
     state_wf (registry cf) →
     cf_section cf section = Some sec → cs_clients sec = None →
     let p := length (lists (registry cf)) in
     let st0 := set_lists (registry cf)
                  (lists (registry cf) ++ [empty_list (Some sec)]) in
     let scs := if bool_decide (name1 sec = "server")
                then Some (cf_section_name2_of section, sec) else None in
     parse_section_loop env st0 (parser_statics cf) p scs tls subs
     = Some (false, st1, s1) →
     st1 ≠ st0 →
     client_list_parse_section env cf section subs tls = None ∧
     ∃ cl e, lists st1 !! p = Some cl ∧ stored cl e ∧
       ∀ e', stored cl e' → ∃ t, tree_num st1 = Some t ∧ e' ∈ t).
Proof.
  split; [|split].
  - intros env cf section subs tls cf' H.
    destruct (cf_section cf section) as [sec|] eqn:Hsec;
      [|by unfold client_list_parse_section in H; rewrite Hsec in H].
    destruct (cs_clients sec) as [q|] eqn:Hq.
    { unfold client_list_parse_section in H. rewrite Hsec in H. simpl in H.
      by rewrite Hq in H. }
    destruct (client_list_parse_section_inv _ _ _ _ _ _ _ _ Hsec Hq H)
      as (b & st1 & s1 & Hloop
          & [(_ & _ & (cl & Hcl & Hempty) & ->)|(_ & ? & _)]); [|done].
    destruct (parse_section_loop_progress _ _ _ _ _ _ _ _ _ _ Hloop)
      as [->|(cl' & e & Hcl' & He)].
    + cbn [registry root_section]. by rewrite set_lists_init_take.
    + rewrite Hcl in Hcl'. injection Hcl' as <-.
      apply stored_entries in He. rewrite Hempty in He.
      by apply not_elem_of_nil in He.
  - intros env cf section sec cs rest tls s' Hsec Hq scs Hfirst.
    unfold client_list_parse_section. rewrite Hsec.
    cbn -[parse_section_loop entries take client_list_init]. rewrite Hq.
    rewrite client_list_init_spec.
    cbn -[parse_section_loop entries take empty_list]. fold scs.
    assert (parse_section_loop env
              (set_lists (registry cf)
                 (lists (registry cf) ++ [empty_list (Some sec)]))
              (parser_statics cf) (length (lists (registry cf))) scs tls
              (cs :: rest)
            = Some (false,
                    set_lists (registry cf)
                      (lists (registry cf) ++ [empty_list (Some sec)]),
                    s')) as ->.
    { cbn [parse_section_loop set_lists servers].
      destruct Hfirst as [-> | (c & -> & Htls)]; [done|].
      by rewrite bool_decide_eq_true_2 by done. }
    cbn [set_lists lists]. rewrite list_lookup_middle by done.
    change (entries <$> Some (empty_list (Some sec)))
      with (Some ([] : rbtree_t)).
    cbv iota. by rewrite set_lists_init_take.
  - intros env cf section sec subs tls st1 s1 Hwf Hsec Hq p st0 scs Hloop Hne.
    destruct (parse_section_loop_progress _ _ _ _ _ _ _ _ _ _ Hloop)
      as [->|(cl & e & Hcl & He)]; [done|].
    split.
    + unfold client_list_parse_section. rewrite Hsec.
      cbn -[parse_section_loop entries take client_list_init]. rewrite Hq.
      rewrite client_list_init_spec.
      cbn -[parse_section_loop entries take empty_list].
      unfold p, st0, scs in Hloop. rewrite Hloop.
      unfold p in Hcl. rewrite Hcl. cbn -[entries].
      apply stored_entries in He. destruct (entries cl); [|done].
      by apply not_elem_of_nil in He.
    + exists cl, e. split; [done|]. split; [done|].
      intros e' He'.
      assert (state_wf st0) as Hwf0
        by apply (client_list_init_wf _ (Some sec) Hwf).
      destruct (parse_section_loop_indexed _ _ _ _ _ _ _ _ _ _ Hwf0 Hloop
                  _ _ Hcl He') as [(cl0 & Hcl0 & He0)|Hidx]; [|done].
      unfold st0, p in Hcl0. cbn [set_lists lists] in Hcl0.
      rewrite list_lookup_middle in Hcl0 by done. injection Hcl0 as <-.
      destruct He0 as (i & t & Hi & _). by apply empty_list_trees in Hi.
Qed.

Lemma client_list_parse_section_failure_witness :
  (registry ExampleP.cf_tls = Example.st3 ∧
   root_section ExampleP.cf_tls = root_section ExampleP.cf3) ∧
  client_list_parse_section ExampleB.env ExampleP.cf3 SecRoot
    ExampleP.clashing false = None.
Proof.
  destruct client_list_parse_section_failure as (Hclean & _ & Hdangling).
  split.
  - apply (Hclean ExampleB.env ExampleP.cf3 SecRoot ExampleP.two_clients
             true ExampleP.cf_tls).
    vm_compute; reflexivity.
  - apply (Hdangling ExampleB.env ExampleP.cf3 SecRoot
             (root_section ExampleP.cf3) ExampleP.clashing false
             ExampleP.clash_loop.1 ExampleP.clash_loop.2).
    + exact example_st3_wf.
    + reflexivity.
    + reflexivity.
    + vm_compute; reflexivity.
    + intros H. apply (f_equal tree_num_max) in H. vm_compute in H.
      discriminate.
Defined.

(** ** Reading a client from a file *)

Lemma strrchr_Some s c p :
  strrchr s c = Some p →
  ∃ d q, s = d +:+ String c q ∧ p = String c q ∧ strrchr q c = None.
Proof.
  revert p. induction s as [|a rest IH]; intros p; [done|].
  cbn [strrchr]. destruct (strrchr rest c) as [p'|] eqn:E.
  - intros [= <-]. destruct (IH _ eq_refl) as (d & q & -> & -> & Hq).
    by exists (String a d), q.
  - destruct (Ascii.eqb_spec a c) as [->|]; [|done].
    intros [= <-]. by exists "", rest.
Qed.

Lemma strrchr_app d c q :
  strrchr q c = None → strrchr (d +:+ String c q) c = Some (String c q).
Proof.
  intros Hq. induction d as [|a d IH]; simpl.
  - by rewrite Hq, Ascii.eqb_refl.
  - by rewrite IH.
Qed.

Lemma string_app_assoc' a b c : (a +:+ b) +:+ c = a +:+ (b +:+ c).
Proof.
  induction a as [|x a IH]; [done|].
  change (String x ((a +:+ b) +:+ c) = String x (a +:+ (b +:+ c))).
  by rewrite IH.
Qed.

(** The part of a path after its last separator is its last component. *)
Lemma basename_last_component filename name :
  match strrchr filename FR_DIR_SEP with
  | Some (String _ p) => p
  | _ => filename
  end = name ↔ last_component filename name.
Proof.
  unfold last_component. split.
  - destruct (strrchr filename FR_DIR_SEP) as [p|] eqn:E.
    + destruct (strrchr_Some _ _ _ E) as (d & q & -> & -> & Hq).
      intros <-. split; [done|].
      exists (d +:+ String FR_DIR_SEP ""). split; [|by right; exists d].
      by rewrite string_app_assoc'.
    + intros <-. split; [done|]. exists "". split; [done|by left].
  - intros (Hn & dir & -> & [->|(d & ->)]).
    + change ("" +:+ name) with name. by rewrite Hn.
    + rewrite string_app_assoc'.
      change (String FR_DIR_SEP "" +:+ name) with (String FR_DIR_SEP name).
      by rewrite (strrchr_app _ _ _ Hn).
Qed.

(** X19 — [client_read] with [check_dns]. The client is returned exactly
    when it is returned without the check and the printed form of its
    address is the last component of the file name: the file name is
    that text, or ends in a separator followed by it, and the text holds
    no separator. Without a file name nothing is returned, and when the
    check fails the file-scope variables are as the builder left them. *)
Theorem client_read_check_dns env srv s file filename server_cs :
  (∀ c s',
     client_read env srv s file (Some filename) server_cs true
     = (Built c, s') ↔
     client_read env srv s file (Some filename) server_cs false
     = (Built c, s') ∧
     last_component filename (fr_inet_ntoh env (ipaddr (rc_client c)))) ∧
  (∀ c s',
     client_read env srv s file (Some filename) server_cs false
     = (Built c, s') →
     ¬ last_component filename (fr_inet_ntoh env (ipaddr (rc_client c))) →
     client_read env srv s file (Some filename) server_cs true
     = (Failed, s')) ∧
  (∀ check_dns,
     client_read env srv s file None server_cs check_dns = (Failed, s)).
Proof.
  split; [|split; [|done]].
  - intros c s'. unfold client_read.
    destruct (file filename) as [[cs|]|]; [|by split; [|intros []]..].
    destruct (client_afrom_cs env srv s cs server_cs) as [[c0| |] s0];
      [|by split; [|intros []]..].
    cbn [negb]. rewrite <- basename_last_component.
    destruct (String.eqb_spec
                match strrchr filename FR_DIR_SEP with
                | Some (String _ p) => p
                | _ => filename
                end (fr_inet_ntoh env (ipaddr (rc_client c0)))) as [He|He];
      cbn [negb].
    + split; [by intros [= <- <-]|by intros [? _]].
    + split; [done|]. by intros [[= <- <-] ?].
  - intros c s'. unfold client_read.
    destruct (file filename) as [[cs|]|]; [|done..].
    destruct (client_afrom_cs env srv s cs server_cs) as [[c0| |] s0];
      [|done..].
    cbn [negb]. intros [= <- <-]. rewrite <- basename_last_component.
    intros He. by apply String.eqb_neq in He as ->.
Qed.

Lemma client_read_check_dns_witness :
  client_read ExampleB.env Example.srv ExampleB.no_statics
    (λ _, Some (Some ExampleB.nas_tcp)) (Some "/etc/raddb/dynamic/192.0.2.1")
    None true
  = (Built ExampleB.nas_tcp_built, ExampleB.nas_tcp_after).
Proof.
  destruct (client_read_check_dns ExampleB.env Example.srv
              ExampleB.no_statics (λ _, Some (Some ExampleB.nas_tcp))
              "/etc/raddb/dynamic/192.0.2.1" None) as (Hiff & _).
  apply Hiff. split; [vm_compute; reflexivity|].
  split; [vm_compute; reflexivity|].
  exists "/etc/raddb/dynamic/". split; [vm_compute; reflexivity|].
  right. by exists "/etc/raddb/dynamic".
Defined.

(** ** Clients made from a request stay inside their network *)

Lemma mask_bits_mask_bits w a n m :
  m ≤ n → mask_bits w (mask_bits w a n) m = mask_bits w a m.
Proof.
  intros Hmn. unfold mask_bits.
  destruct (Nat.leb_spec w n) as [Hn|Hn]; [done|].
  destruct (Nat.leb_spec w m) as [Hm|Hm]; [lia|].
  destruct (Nat.eqb_spec m 0) as [Hm0|Hm0]; [done|].
  destruct (Nat.eqb_spec n 0) as [Hn0|Hn0]; [lia|].
  apply Z.bits_inj'. intros i Hi.
  destruct (Z.lt_ge_cases i (Z.of_nat (w - m))) as [Hlt|Hge].
  - by rewrite !Z.shiftl_spec_low.
  - rewrite !Z.shiftl_spec_high, !Z.shiftr_spec by lia.
    replace (i - Z.of_nat (w - m) + Z.of_nat (w - m))%Z with i by lia.
    rewrite Z.shiftl_spec_high, Z.shiftr_spec by lia.
    f_equal. lia.
Qed.

Lemma fr_ipaddr_mask_mask q n m :
  m ≤ n → fr_ipaddr_mask (fr_ipaddr_mask q n) m = fr_ipaddr_mask q m.
Proof.
  intros Hmn. unfold fr_ipaddr_mask.
  destruct (Z.eqb_spec (af q) AF_INET) as [H4|H4]; simpl.
  { rewrite H4. simpl. by rewrite mask_bits_mask_bits. }
  destruct (Z.eqb_spec (af q) AF_INET6) as [H6|H6]; simpl.
  { rewrite H6. simpl. by rewrite mask_bits_mask_bits. }
  destruct (Z.eqb_spec (af q) AF_INET); [done|].
  by destruct (Z.eqb_spec (af q) AF_INET6).
Qed.

(** What a lookup returns is stored, and its address is the query masked
    to its prefix length. *)
Lemma client_find_key st h cl q pr r :
  list_of st h = Some cl → list_wf cl →
  client_find st h (Some q) pr = Some r →
  stored cl r ∧ fr_ipaddr_mask q (prefix (ipaddr r)) = ipaddr r.
Proof.
  intros Hl Hwf Hfind.
  destruct (client_find_max_prefix q) as [m|] eqn:Hm.
  2:{ unfold client_find, list_of in *.
      destruct (match h with Some p => Some p | None => root_clients st end);
        [|done].
      simpl in Hl. rewrite Hl in Hfind. simpl in Hfind.
      by rewrite Hm in Hfind. }
  rewrite (client_find_unfold _ _ _ _ _ _ Hl Hm) in Hfind.
  apply client_find_loop_Some in Hfind as (i & Hi & Hp & _).
  apply client_find_probe_Some in Hp as (t & Ht & Hr & Hc).
  pose proof (wf_prefix _ Hwf _ _ _ Ht Hr) as Hpi.
  apply client_ipaddr_cmp_eq in Hc as [Hip _]. simpl in Hip.
  split; [by exists i, t | by rewrite Hpi].
Qed.

(** X20 — A client that [client_afrom_request] accepts, and the network
    that accepted the request. On a well-formed list, every lookup that
    resolves to a record with the accepted client's address key is for
    an address inside the network: the query address masked to the
    network's prefix length is the network. When the accepted client is
    not the all-zero address with a full-width prefix, the record that a
    successful [client_add] leaves for it in its list has that key. The
    all-zero address with a full-width prefix is the exception:
    [client_add] stores it with prefix length 0, and its key is then the
    mask of every address of its family, inside the network or not. *)
Theorem client_afrom_request_within_network :
  (∀ network c r st h cl q pr e,
     client_afrom_request network (Some c) = inr r →
     list_of st h = Some cl → list_wf cl →
     client_find st h (Some q) pr = Some e →
     ipaddr e = ipaddr r →
     fr_ipaddr_mask q (prefix network) = network) ∧
  (∀ network c r st h st',
     client_afrom_request network (Some c) = inr r →
     ¬ inaddr_any_full (ipaddr r) →
     client_add st h (Some r) = Some (true, st') →
     ∃ p cl e, client_add_clients st' h r = Some (p, st') ∧
               lists st' !! p = Some cl ∧ stored cl e ∧
               ipaddr e = ipaddr r ∧ same_fields e r) ∧
  (∀ network c r st h st',
     client_afrom_request network (Some c) = inr r →
     inaddr_any_full (ipaddr r) →
     client_add st h (Some r) = Some (true, st') →
     ∃ p cl e, lists st' !! p = Some cl ∧ stored cl e ∧
               same_fields e r ∧ prefix (ipaddr e) = 0 ∧
               ∀ q, af q = af (ipaddr r) →
                    fr_ipaddr_mask q 0 = ipaddr e).
Proof.
  split; [|split].
  - intros network c r st h cl q pr e Hacc Hl Hwf Hfind Hip.
    destruct (client_find_key _ _ _ _ _ _ Hl Hwf Hfind) as [_ Hq].
    rewrite Hip in Hq.
    unfold client_afrom_request in Hacc.
    destruct (Z.eqb_spec (af network) (af (ipaddr c))) as [Haf|]; [|done].
    destruct (Nat.ltb_spec (prefix (ipaddr c)) (prefix network)) as [|Hp];
      [done|].
    cbn [negb] in Hacc.
    destruct (Z.eqb_spec
                (fr_ipaddr_cmp (fr_ipaddr_mask (ipaddr c) (prefix network))
                   network) 0) as [Hcmp|]; [|done].
    cbn [negb] in Hacc. injection Hacc as <-.
    apply fr_ipaddr_cmp_eq in Hcmp.
    rewrite <- (fr_ipaddr_mask_mask q (prefix (ipaddr c)) (prefix network))
      by done.
    by rewrite Hq.
  - intros network c r st h st' _ Hnot Hadd.
    apply client_add_true_stored in Hadd
      as (c1 & p & cl & t & old & Hfix & Hc & Hp & Hs & Hfind & Hdup).
    destruct (wildcard_fixup_fields _ _ Hfix) as [->|[_ ?]]; [|done].
    apply rbtree_finddata_Some in Hfind as [Hold _].
    apply complete_duplicate_fields in Hdup as [Hip Hsame].
    exists p, cl, old. do 2 (split; [done|]).
    split; [by exists (prefix (ipaddr r)), t | done].
  - intros network c r st h st' _ Hany Hadd.
    apply client_add_true_stored in Hadd
      as (c1 & p & cl & t & old & Hfix & Hc & Hp & Hs & Hfind & Hdup).
    rewrite (wildcard_fixup_full _ Hany) in Hfix. injection Hfix as <-.
    apply rbtree_finddata_Some in Hfind as [Hold _].
    apply complete_duplicate_fields in Hdup as [Hip Hsame].
    exists p, cl, old. split; [done|].
    split; [by eexists _, t|]. split; [done|].
    split; [by rewrite Hip|].
    intros q Hq. rewrite Hip. by apply fr_ipaddr_mask_zero.
Qed.

Lemma client_afrom_request_within_network_witness :
  fr_ipaddr_mask (Example.ip4 10 1 2 3 32) 8 = Example.ip4 10 0 0 0 8 ∧
  (∃ p cl e, lists Example2.st4 !! p = Some cl ∧ stored cl e ∧
             same_fields e Example.any32 ∧ prefix (ipaddr e) = 0 ∧
             ∀ q, af q = af (ipaddr Example.any32) →
                  fr_ipaddr_mask q 0 = ipaddr e) ∧
  client_find Example2.st4 None (Some (Example.ip4 198 51 100 7 32))
    IPPROTO_UDP = Some Example.any' ∧
  fr_ipaddr_mask (Example.ip4 198 51 100 7 32) 8 ≠ Example.ip4 0 0 0 0 8.
Proof.
  destruct client_afrom_request_within_network as (Hin & _ & Hany).
  split; [|split; [|split]].
  - apply (Hin (Example.ip4 10 0 0 0 8) Example.host Example.host
             Example.st3 None Example.root3 (Example.ip4 10 1 2 3 32)
             IPPROTO_UDP Example.host').
    + vm_compute; reflexivity.
    + vm_compute; reflexivity.
    + exact example_root3_wf.
    + vm_compute; reflexivity.
    + reflexivity.
  - apply (Hany (Example.ip4 0 0 0 0 8) Example.any32 Example.any32
             Example.st3 None Example2.st4).
    + vm_compute; reflexivity.
    + split; [reflexivity | left; split; reflexivity].
    + vm_compute; reflexivity.
  - vm_compute; reflexivity.
  - vm_compute. discriminate.
Defined.

